(** * pkg/ipcache/cidr.go: CIDR identity allocation and release

    A shallow embedding of the allocation coordinator of the ipcache
    package: [AllocateCIDRs], [AllocateCIDRsForIPs],
    [UpsertGeneratedIdentities], [allocate], [releaseCIDRIdentities],
    [ReleaseCIDRIdentitiesByCIDR], [ReleaseCIDRIdentitiesByID] and the
    helper [cidrLabelToPrefix]; and of the code of package [k8s] that waits
    for the node's own resource at start-up.

    The file only holds the coordinator.  The identity allocator, the
    ipcache store, the packages [net], [ip], [labels], [labels/cidr], the
    metrics and the logger are collaborators whose code lives elsewhere;
    they enter the development as interfaces (type classes); every call
    that can change their state, every lock operation and every log line is
    also recorded in a chronological trace of events. *)

From stdpp Require Import base option list gmap strings fin_maps.


(** ** Strings (package [strings]) *)

(** [strings.HasPrefix(s, prefix)]. *)
Definition HasPrefix (s prefix : string) : bool := String.prefix prefix s.

(** [strings.TrimPrefix(s, prefix)]: [s] without the leading [prefix], and
    [s] itself when it does not start with [prefix]. *)
Definition TrimPrefix (s prefix : string) : string :=
  if HasPrefix s prefix
  then String.substring (String.length prefix)
                        (String.length s - String.length prefix) s
  else s.

(** ** Data *)

(** Go's [error] values are observed only through their message. *)
Definition Error := string.

(** [identity.Identity], restricted to the fields the file reads or writes;
    [Labels_] is the field [Labels]. *)
Record Identity {NumericIdentity Labels : Type} := mkIdentity {
  ID : NumericIdentity;
  Labels_ : Labels;
  CIDRLabel : Labels;
}.
Arguments Identity : clear implicits.
Arguments mkIdentity {_ _} _ _ _.

(** [ipcache.Identity], the value stored in the cache for a prefix. *)
Record CacheIdentity {NumericIdentity Source : Type} := mkCacheIdentity {
  cID : NumericIdentity;
  cSource : Source;
}.
Arguments CacheIdentity : clear implicits.
Arguments mkCacheIdentity {_ _} _ _.

(** A Go pointer [*T] is an [option T], [None] being the nil pointer; a
    dereference of nil is a run-time panic, like an index out of range. *)
Inductive PanicReason := IndexOutOfRange | NilPointerDereference.

(** ** Collaborators *)

(** Package [net]: the methods [String] of [IPNet] and of its field [IP],
    and [ParseCIDR], whose first result (the address) the file never uses. *)
Class PkgNet (IPNet : Type) := {
  IPNet_String : IPNet → string;
  IPNet_IP_String : IPNet → string;
  ParseCIDR : string → Error + IPNet;
}.

(** Packages [labels] and [labels/cidr].  [HasLabelWorld lbls] is
    [lbls.Has(labels.LabelWorld[labels.IDNameWorld])]. *)
Class PkgLabels (IPNet Labels : Type) := {
  LabelSourceCIDR : string;
  GetCIDRLabels : IPNet → Labels;
  MergeLabels : Labels → Labels → Labels;
  HasLabelWorld : Labels → bool;
  NewLabelsFromModel : list string → Labels;
  Labels_String : Labels → string;
}.

(** Packages [identity] and [source]: the sentinel for "no previous numeric
    identity" and the provenance tag of generated cache entries. *)
Class PkgIdentity (NumericIdentity Source : Type) := {
  InvalidIdentity : NumericIdentity;
  Generated : Source;
}.

(** The interface [IdentityAllocator], over an abstract allocator state.
    Results are the raw Go tuples: [(id, isNew, err)] for
    [AllocateIdentity], [(released, err)] for [Release].  Lookups do not
    change the state. *)
Class IdentityAllocator (NumericIdentity Labels AllocSt : Type) := {
  AllocateIdentity :
    AllocSt → Labels → bool → NumericIdentity →
    AllocSt * (option (Identity NumericIdentity Labels) * bool * option Error);
  Release :
    AllocSt → Identity NumericIdentity Labels → bool →
    AllocSt * (bool * option Error);
  ReleaseSlice :
    AllocSt → list (option (Identity NumericIdentity Labels)) →
    AllocSt * option Error;
  LookupIdentity :
    AllocSt → Labels → option (Identity NumericIdentity Labels);
  LookupIdentityByID :
    AllocSt → NumericIdentity → option (Identity NumericIdentity Labels);
}.

(** The ipcache store and the metadata table.  [Upsert] is the
    five-argument method at [hostIP = nil], [hostKey = 0], [k8sMeta = nil],
    the only way this file calls it; its results are ignored by every caller
    here, and so is the result of [deleteLocked]. *)
Class IPCacheStore (NumericIdentity Labels Source Cache Metadata : Type) := {
  Upsert : Cache → string → CacheIdentity NumericIdentity Source → Cache;
  deleteLocked : Cache → string → Source → Cache;
  LookupByIPRLocked :
    Cache → string → option (CacheIdentity NumericIdentity Source);
  metadata_getLocked : Metadata → string → Labels;
}.

(** Package [ip]: [GetCIDRPrefixesFromIPs], which turns addresses into
    the prefixes that hold exactly them. *)
Class PkgIP (IP IPNet : Type) := {
  GetCIDRPrefixesFromIPs : list IP → list (option IPNet);
}.

(** Go leaves the order of [range] over a map unspecified: an iteration
    visits the entries in some permutation. *)
Record RangeOrder (V : Type) := mkRangeOrder {
  shuffle : list (string * V) → list (string * V);
  shuffle_perm : ∀ l, shuffle l ≡ₚ l;
}.
Arguments shuffle {_} _ _.
Arguments shuffle_perm {_} _ _.

(** ** [cidrLabelToPrefix] *)

Definition cidrLabelToPrefix `{!PkgLabels IPNet Labels} (label : string)
  : string * bool :=
  if negb (HasPrefix label LabelSourceCIDR)
  then ("", false)
  else (TrimPrefix label (LabelSourceCIDR +:+ ":"), true).

(** ** Stand-ins for the collaborators

    Executable instances of the interfaces above, used to run the
    coordinator on concrete batches. *)

Module Fake.

(** A network is its address and its mask length, both as printed. *)
Abbreviation IPNet := (string * string)%type.
Abbreviation Labels := (list string).
Abbreviation NumericIdentity := N.
Abbreviation Source := string.

Definition split_cidr (s : string) : Error + IPNet :=
  match String.index 0 "/" s with
  | Some n =>
    inr (String.substring 0 n s,
         String.substring (S n) (String.length s - S n) s)
  | None => inl ("invalid CIDR address: " +:+ s)
  end.

#[export] Instance net : PkgNet IPNet := {
  IPNet_String := λ c, c.1 +:+ "/" +:+ c.2;
  IPNet_IP_String := λ c, c.1;
  ParseCIDR := split_cidr;
}.

#[export] Instance labels : PkgLabels IPNet Labels := {
  LabelSourceCIDR := "cidr";
  GetCIDRLabels := λ c, ["cidr:" +:+ c.1 +:+ "/" +:+ c.2; "reserved:world"];
  MergeLabels := λ l from, l ++ from;
  HasLabelWorld := λ l, bool_decide ("reserved:world" ∈ l);
  NewLabelsFromModel := λ l, l;
  Labels_String := String.concat ",";
}.

#[export] Instance identity : PkgIdentity NumericIdentity Source := {
  InvalidIdentity := 0%N;
  Generated := "generated";
}.

(** Modelled from the spec: the Identity Allocator, which is not part of
    this file.  It is reference-counted: one identity per label set, created
    on first allocation and destroyed when the count returns to zero; a free
    previous numeric identity is reused, and an allocation beyond [quota]
    fails. *)
Record Allocator := mkAllocator {
  held : list (Labels * NumericIdentity * nat);
  quota : nat;
}.

Definition ident_of (lbls : Labels) (nid : NumericIdentity)
  : Identity NumericIdentity Labels :=
  mkIdentity nid lbls (filter (λ l, HasPrefix l "cidr:" = true) lbls).

Definition fresh (a : Allocator) (oldNID : NumericIdentity) : NumericIdentity :=
  if bool_decide (oldNID ≠ 0%N ∧ oldNID ∉ (λ e, e.1.2) <$> held a)
  then oldNID
  else N.succ (foldr N.max 16777215%N ((λ e, e.1.2) <$> held a)).

Definition allocate_identity (a : Allocator) (lbls : Labels) (_ : bool)
    (oldNID : NumericIdentity)
  : Allocator * (option (Identity NumericIdentity Labels) * bool * option Error) :=
  match list_find (λ e, e.1.1 = lbls) (held a) with
  | Some (i, (_, nid, n)) =>
    (mkAllocator (<[i := (lbls, nid, S n)]> (held a)) (quota a),
     (Some (ident_of lbls nid), false, None))
  | None =>
    if decide (length (held a) < quota a) then
      let nid := fresh a oldNID in
      (mkAllocator (held a ++ [(lbls, nid, 1)]) (quota a),
       (Some (ident_of lbls nid), true, None))
    else (a, (None, false, Some "identity quota exceeded"))
  end.

Definition release (a : Allocator) (id : Identity NumericIdentity Labels)
    (_ : bool) : Allocator * (bool * option Error) :=
  match list_find (λ e, e.1.2 = ID id) (held a) with
  | Some (i, (lbls, nid, n)) =>
    if decide (n ≤ 1)
    then (mkAllocator (delete i (held a)) (quota a), (true, None))
    else (mkAllocator (<[i := (lbls, nid, n - 1)]> (held a)) (quota a),
          (false, None))
  | None => (a, (false, Some "identity not found"))
  end.

Definition release_slice (a : Allocator)
    (ids : list (option (Identity NumericIdentity Labels)))
  : Allocator * option Error :=
  foldl (λ acc id,
           match id with
           | None => acc
           | Some id =>
             let '(a', (_, err)) := release acc.1 id false in
             (a', from_option Some acc.2 err)
           end) (a, None) ids.

#[export] Instance allocator_ops
  : IdentityAllocator NumericIdentity Labels Allocator := {
  AllocateIdentity := allocate_identity;
  Release := release;
  ReleaseSlice := release_slice;
  LookupIdentity := λ a lbls,
    (λ e, ident_of e.2.1.1 e.2.1.2) <$> list_find (λ e, e.1.1 = lbls) (held a);
  LookupIdentityByID := λ a nid,
    (λ e, ident_of e.2.1.1 e.2.1.2) <$> list_find (λ e, e.1.2 = nid) (held a);
}.

(** Modelled from the spec: the IP Cache store, which is not part of this
    file.  Upsert inserts or overwrites the entry of a prefix; delete
    removes the entry of a prefix when it carries the given source tag. *)
Abbreviation Cache := (gmap string (CacheIdentity NumericIdentity Source)).
Abbreviation Metadata := (gmap string Labels).

Definition delete_entry (c : Cache) (prefix : string) (src : Source) : Cache :=
  match c !! prefix with
  | Some e => if decide (cSource e = src) then delete prefix c else c
  | None => c
  end.

#[export] Instance store
  : IPCacheStore NumericIdentity Labels Source Cache Metadata := {
  Upsert := λ c prefix id, <[prefix := id]> c;
  deleteLocked := delete_entry;
  LookupByIPRLocked := λ c prefix, c !! prefix;
  metadata_getLocked := λ m ip, default [] (m !! ip);
}.

(** The iteration order of [map_to_list] itself. *)
Definition in_order {V} : RangeOrder V :=
  mkRangeOrder V (λ l, l) (λ l, reflexivity l).

End Fake.

(** ** Package [k8s]: the node's own information

    The file also holds the start-up code of package [k8s] that waits for
    the node's own resource: [waitForNodeInformation],
    [retrieveNodeInformation], [useNodeCIDR], [WaitForNodeInformation] and
    [restoreRouterHostIPs].  The configuration, the node type, the parsers
    of the two resources, the getter and the setters of package [node] live
    elsewhere: the first four are interfaces, and every call of a setter,
    every request to the getter, every log line and every wait is recorded
    in a chronological list of events. *)

Definition nodeRetrievalMaxRetries : nat := 15.

(** [option.Config] through the fields that are read, the function
    [option.MightAutoDetectDevices], which reads other fields of it, the
    two IPAM modes of package [ipam/option] and the name of the environment
    variable of package [k8s/constants]. *)
Class PkgOption (Config : Type) := {
  K8sRequireIPv4PodCIDR : Config → bool;
  K8sRequireIPv6PodCIDR : Config → bool;
  IPAM : Config → string;
  EnableIPv4 : Config → bool;
  EnableIPv6 : Config → bool;
  EnableHostIPRestore : Config → bool;
  MightAutoDetectDevices : Config → bool;
  IPAMClusterPool : string;
  IPAMClusterPoolV2 : string;
  EnvNodeNameSpec : string;
}.

(** Package [node/types]: the fields and methods of [Node] that are used,
    and [GetName].  A [net.IP] and a [*cidr.CIDR] that may be nil are
    options. *)
Class PkgNodeTypes (Node IP CIDR NodeLabels : Type) := {
  GetName : string;
  Node_Name : Node → string;
  IPv4AllocCIDR : Node → option CIDR;
  IPv6AllocCIDR : Node → option CIDR;
  Node_Labels : Node → NodeLabels;
  GetNodeIP : Node → bool → option IP;
  GetK8sNodeIP : Node → option IP;
  GetExternalIP : Node → bool → option IP;
  GetCiliumInternalIP : Node → bool → option IP;
}.

(** The parsers of the two resources.  [ConvertToNode] returns an
    [interface{}], [None] being the nil interface; [asSlimNode] is the type
    assertion to [*slim_corev1.Node], which has no result on a value of
    another dynamic type; [ParseNode] is taken at [source.Unspec] and
    returns a pointer.  [CoreNode_String] is the [%s] rendering of the
    resource in an error message. *)
Class PkgK8s (CiliumNodePtr CoreNodePtr NodeObject SlimNodePtr Node : Type) := {
  ParseCiliumNode : CiliumNodePtr → Node;
  ConvertToNode : CoreNodePtr → option NodeObject;
  asSlimNode : NodeObject → option SlimNodePtr;
  ParseNode : SlimNodePtr → option Node;
  CoreNode_String : CoreNodePtr → string;
}.

(** The interface [k8sGetter], over the state of whatever answers the
    requests (the API server or a local store).  Results are the raw Go
    pairs. *)
Class K8sGetter (Getter CiliumNodePtr CoreNodePtr : Type) := {
  GetK8sNode : Getter → string → Getter * (CoreNodePtr * option Error);
  GetCiliumNode : Getter → string → Getter * (CiliumNodePtr * option Error);
}.

(** The run-time panics of this code: a field read through a nil [*Node],
    and a failed type assertion. *)
Inductive NodePanic := NilNode | InterfaceConversion.

(** The fields of the log lines. *)
Inductive NodeField {IP CIDR NodeLabels : Type} :=
| NFNodeName (name : string)
| NFLabels (lbls : NodeLabels)
| NFIPAddrIPv4 (ip : option IP)
| NFIPAddrIPv6 (ip : option IP)
| NFV4Prefix (c : option CIDR)
| NFV6Prefix (c : option CIDR)
| NFK8sNodeIP (ip : option IP)
| NFIPv4 (ip : option IP)
| NFIPv6 (ip : option IP).
Arguments NodeField : clear implicits.

Inductive NodeEvent {IP CIDR NodeLabels : Type} :=
| NGetK8sNode (nodeName : string) (err : option Error)
| NGetCiliumNode (nodeName : string) (err : option Error)
| NInfo (fields : list (NodeField IP CIDR NodeLabels)) (msg : string)
| NWarning (err : Error) (msg : string)
| NFatal (msg : string)
| NBackoffWait (name : string)
| NSetIPv4AllocRange (c : CIDR)
| NSetIPv6NodeRange (c : CIDR)
| NSetIPv4 (ip : IP)
| NSetIPv6 (ip : IP)
| NSetLabels (lbls : NodeLabels)
| NSetK8sExternalIPv4 (ip : option IP)
| NSetK8sExternalIPv6 (ip : option IP)
| NSetK8sNodeIP (ip : option IP)
| NSetInternalIPv4Router (ip : IP)
| NSetIPv6Router (ip : IP).
Arguments NodeEvent : clear implicits.

(** The state of the getter and the events so far. *)
Record NodeWorld {Getter IP CIDR NodeLabels : Type} := mkNodeWorld {
  getter : Getter;
  events : list (NodeEvent IP CIDR NodeLabels);
}.
Arguments NodeWorld : clear implicits.
Arguments mkNodeWorld {_ _ _ _} _ _.

(** A computation returns, panics, or ends the process ([log.Fatal]). *)
Inductive NodeResult {W A : Type} :=
| Returned (a : A) (w : W)
| Panicked (reason : NodePanic)
| Exited (w : W).
Arguments NodeResult : clear implicits.

Definition is_nil {A} (p : option A) : bool :=
  match p with
  | None => true
  | Some _ => false
  end.

Section NodeInformation.
Context {Config Node IP CIDR NodeLabels : Type}.
Context {CiliumNodePtr CoreNodePtr NodeObject SlimNodePtr Getter : Type}.
Context `{!PkgOption Config, !PkgNodeTypes Node IP CIDR NodeLabels,
          !PkgK8s CiliumNodePtr CoreNodePtr NodeObject SlimNodePtr Node,
          !K8sGetter Getter CiliumNodePtr CoreNodePtr}.

(** [option.Config] *)
Variable cfg : Config.

Abbreviation NEvent := (NodeEvent IP CIDR NodeLabels).
Abbreviation NWorld := (NodeWorld Getter IP CIDR NodeLabels).

Definition K (A : Type) : Type := NWorld → NodeResult NWorld A.

Definition kret {A} (a : A) : K A := λ w, Returned a w.
Definition kbind {A B} (m : K A) (k : A → K B) : K B :=
  λ w, match m w with
       | Returned a w' => k a w'
       | Panicked r => Panicked r
       | Exited w' => Exited w'
       end.
Definition kpanic {A} (reason : NodePanic) : K A := λ _, Panicked reason.
Definition record (e : NEvent) : K unit :=
  λ w, Returned tt (mkNodeWorld (getter w) (events w ++ [e])).
(** [log.Fatal(msg)] *)
Definition fatal {A} (msg : string) : K A :=
  λ w, Exited (mkNodeWorld (getter w) (events w ++ [NFatal msg])).

Notation "'let!' x ':=' m 'in' k" := (kbind m (λ x, k))
  (at level 10, x pattern, m at level 100, k at level 200).
Notation "m ;;; k" := (kbind m (λ _, k))
  (at level 100, k at level 200, right associativity).

Definition callGetCiliumNode (nodeName : string)
  : K (CiliumNodePtr * option Error) :=
  λ w, let '(g, r) := GetCiliumNode (getter w) nodeName in
       Returned r (mkNodeWorld g (events w ++ [NGetCiliumNode nodeName r.2])).

Definition callGetK8sNode (nodeName : string)
  : K (CoreNodePtr * option Error) :=
  λ w, let '(g, r) := GetK8sNode (getter w) nodeName in
       Returned r (mkNodeWorld g (events w ++ [NGetK8sNode nodeName r.2])).

(** *** [retrieveNodeInformation] *)

(** The first part of the function either returns early ([inl]) or finds
    the node [n] ([inr]). *)
Definition retrieveNodeInformation (nodeName : string)
  : K (option Node * option Error) :=
  let requireIPv4CIDR := K8sRequireIPv4PodCIDR cfg in
  let requireIPv6CIDR := K8sRequireIPv6PodCIDR cfg in
  let mightAutoDetectDevices := MightAutoDetectDevices cfg in
  let! found :=
    if bool_decide (IPAM cfg = IPAMClusterPool)
       || bool_decide (IPAM cfg = IPAMClusterPoolV2)
    then
      let! (ciliumNode, err) := callGetCiliumNode nodeName in
      match err with
      | Some e =>
        if negb requireIPv4CIDR && negb requireIPv6CIDR
           && negb mightAutoDetectDevices
        then kret (inl (None, None))
        else kret (inl (None, Some ("unable to retrieve CiliumNode: " +:+ e)))
      | None =>
        let n := ParseCiliumNode ciliumNode in
        record (NInfo [NFNodeName (Node_Name n)]
                      "Retrieved node information from cilium node") ;;;
        kret (inr n)
      end
    else
      let! (k8sNode, err) := callGetK8sNode nodeName in
      match err with
      | Some e =>
        if negb requireIPv4CIDR && negb requireIPv6CIDR
           && negb mightAutoDetectDevices
        then kret (inl (None, None))
        else kret (inl (None,
                        Some ("unable to retrieve k8s node information: "
                              +:+ e)))
      | None =>
        match ConvertToNode k8sNode with
        | None =>
          kret (inl (None,
                     Some ("invalid k8s node: " +:+ CoreNode_String k8sNode)))
        | Some nodeInterface =>
          match asSlimNode nodeInterface with
          | None => kpanic InterfaceConversion
          | Some typesNode =>
            match ParseNode typesNode with
            | None => kpanic NilNode
            | Some n =>
              record (NInfo [NFNodeName (Node_Name n)]
                        "Retrieved node information from kubernetes node") ;;;
              kret (inr n)
            end
          end
        end
      end in
  match found with
  | inl early => kret early
  | inr n =>
    if requireIPv4CIDR && is_nil (IPv4AllocCIDR n)
    then kret (None, Some "required IPv4 PodCIDR not available")
    else if requireIPv6CIDR && is_nil (IPv6AllocCIDR n)
    then kret (None, Some "required IPv6 PodCIDR not available")
    else kret (Some n, None)
  end.

(** *** [waitForNodeInformation] *)

(** The loop, with [remaining] iterations to go. *)
Fixpoint waitLoop (remaining : nat) (nodeName : string) : K (option Node) :=
  match remaining with
  | 0 => kret None
  | S remaining =>
    let! (n, err) := retrieveNodeInformation nodeName in
    match err with
    | Some e =>
      record (NWarning e "Waiting for k8s node information") ;;;
      record (NBackoffWait "k8s-node-retrieval") ;;;
      waitLoop remaining nodeName
    | None => kret n
    end
  end.

Definition waitForNodeInformation (nodeName : string) : K (option Node) :=
  waitLoop nodeRetrievalMaxRetries nodeName.

(** *** [useNodeCIDR] and [restoreRouterHostIPs] *)

Definition useNodeCIDR (n : Node) : K unit :=
  (match IPv4AllocCIDR n with
   | Some c => if EnableIPv4 cfg then record (NSetIPv4AllocRange c) else kret tt
   | None => kret tt
   end) ;;;
  match IPv6AllocCIDR n with
  | Some c => if EnableIPv6 cfg then record (NSetIPv6NodeRange c) else kret tt
  | None => kret tt
  end.

Definition restoreRouterHostIPs (n : Node) : K unit :=
  if negb (EnableHostIPRestore cfg) then kret tt
  else
    let router4 := GetCiliumInternalIP n false in
    let router6 := GetCiliumInternalIP n true in
    (match router4 with
     | Some ip => record (NSetInternalIPv4Router ip)
     | None => kret tt
     end) ;;;
    (match router6 with
     | Some ip => record (NSetIPv6Router ip)
     | None => kret tt
     end) ;;;
    if negb (is_nil router4) || negb (is_nil router6)
    then record (NInfo [NFIPv4 router4; NFIPv6 router6]
                       "Restored router IPs from node information")
    else kret tt.

(** *** [WaitForNodeInformation] *)

Definition WaitForNodeInformation : K (option Error) :=
  let nodeName := GetName in
  if bool_decide (nodeName = "") then
    if K8sRequireIPv4PodCIDR cfg || K8sRequireIPv6PodCIDR cfg then
      kret (Some ("node name must be specified via environment variable '"
                  +:+ EnvNodeNameSpec
                  +:+ "' to retrieve Kubernetes PodCIDR range"))
    else
      (if MightAutoDetectDevices cfg
       then record (NInfo [] "K8s node name is empty. BPF NodePort might not be able to auto detect all devices")
       else kret tt) ;;;
      kret None
  else
    let! found := waitForNodeInformation nodeName in
    match found with
    | Some n =>
      let nodeIP4 := GetNodeIP n false in
      let nodeIP6 := GetNodeIP n true in
      let k8sNodeIP := GetK8sNodeIP n in
      record (NInfo [NFNodeName (Node_Name n); NFLabels (Node_Labels n);
                     NFIPAddrIPv4 nodeIP4; NFIPAddrIPv6 nodeIP6;
                     NFV4Prefix (IPv4AllocCIDR n);
                     NFV6Prefix (IPv6AllocCIDR n);
                     NFK8sNodeIP k8sNodeIP]
                    "Received own node information from API server") ;;;
      useNodeCIDR n ;;;
      (match nodeIP4 with
       | Some ip => record (NSetIPv4 ip)
       | None => kret tt
       end) ;;;
      (match nodeIP6 with
       | Some ip => record (NSetIPv6 ip)
       | None => kret tt
       end) ;;;
      record (NSetLabels (Node_Labels n)) ;;;
      record (NSetK8sExternalIPv4 (GetExternalIP n false)) ;;;
      record (NSetK8sExternalIPv6 (GetExternalIP n true)) ;;;
      record (NSetK8sNodeIP k8sNodeIP) ;;;
      restoreRouterHostIPs n ;;;
      kret None
    | None =>
      (if K8sRequireIPv4PodCIDR cfg || K8sRequireIPv6PodCIDR cfg
       then fatal "Unable to derive PodCIDR via Node or CiliumNode resource, giving up"
       else kret tt) ;;;
      kret None
    end.

(** *** Vocabulary *)

(** What a computation added to the events of [w]. *)
Definition recorded (w w' : NWorld) : list NEvent :=
  drop (length (events w)) (events w').

Definition is_request (e : NEvent) : bool :=
  match e with
  | NGetK8sNode _ _ | NGetCiliumNode _ _ => true
  | _ => false
  end.

Definition is_wait (e : NEvent) : bool :=
  match e with
  | NBackoffWait _ => true
  | _ => false
  end.

Definition is_warning (e : NEvent) : bool :=
  match e with
  | NWarning _ _ => true
  | _ => false
  end.

Definition is_info (e : NEvent) : bool :=
  match e with
  | NInfo _ _ => true
  | _ => false
  end.

(** The calls of the setters of package [node]. *)
Definition is_setter (e : NEvent) : bool :=
  match e with
  | NSetIPv4AllocRange _ | NSetIPv6NodeRange _ | NSetIPv4 _ | NSetIPv6 _
  | NSetLabels _ | NSetK8sExternalIPv4 _ | NSetK8sExternalIPv6 _
  | NSetK8sNodeIP _ | NSetInternalIPv4Router _ | NSetIPv6Router _ => true
  | _ => false
  end.

Definition is_router (e : NEvent) : bool :=
  match e with
  | NSetInternalIPv4Router _ | NSetIPv6Router _ => true
  | _ => false
  end.

Definition count (p : NEvent → bool) (tr : list NEvent) : nat :=
  length (filter (λ e, p e = true) tr).

(** Whether the node is read from the CiliumNode resource. *)
Definition clusterPool : bool :=
  bool_decide (IPAM cfg = IPAMClusterPool)
  || bool_decide (IPAM cfg = IPAMClusterPoolV2).

(** The request that [retrieveNodeInformation] sends. *)
Definition request (nodeName : string) (err : option Error) : NEvent :=
  if clusterPool then NGetCiliumNode nodeName err
  else NGetK8sNode nodeName err.

(** Whether a failed request is an error rather than an absent node. *)
Definition mandatory : bool :=
  negb (negb (K8sRequireIPv4PodCIDR cfg) && negb (K8sRequireIPv6PodCIDR cfg)
        && negb (MightAutoDetectDevices cfg)).

(** The node has the pod CIDRs that the configuration requires. *)
Definition meets_requirements (n : Node) : Prop :=
  (K8sRequireIPv4PodCIDR cfg = true → is_Some (IPv4AllocCIDR n))
  ∧ (K8sRequireIPv6PodCIDR cfg = true → is_Some (IPv6AllocCIDR n)).

(** What [WaitForNodeInformation] does with the node it received. *)
Definition node_events (n : Node) : list NEvent :=
  [NInfo [NFNodeName (Node_Name n); NFLabels (Node_Labels n);
          NFIPAddrIPv4 (GetNodeIP n false); NFIPAddrIPv6 (GetNodeIP n true);
          NFV4Prefix (IPv4AllocCIDR n); NFV6Prefix (IPv6AllocCIDR n);
          NFK8sNodeIP (GetK8sNodeIP n)]
         "Received own node information from API server"]
  ++ (if EnableIPv4 cfg
      then from_option (λ c, [NSetIPv4AllocRange c]) [] (IPv4AllocCIDR n)
      else [])
  ++ (if EnableIPv6 cfg
      then from_option (λ c, [NSetIPv6NodeRange c]) [] (IPv6AllocCIDR n)
      else [])
  ++ from_option (λ ip, [NSetIPv4 ip]) [] (GetNodeIP n false)
  ++ from_option (λ ip, [NSetIPv6 ip]) [] (GetNodeIP n true)
  ++ [NSetLabels (Node_Labels n);
      NSetK8sExternalIPv4 (GetExternalIP n false);
      NSetK8sExternalIPv6 (GetExternalIP n true);
      NSetK8sNodeIP (GetK8sNodeIP n)]
  ++ (if EnableHostIPRestore cfg
      then
        from_option (λ ip, [NSetInternalIPv4Router ip]) []
                    (GetCiliumInternalIP n false)
        ++ from_option (λ ip, [NSetIPv6Router ip]) []
                       (GetCiliumInternalIP n true)
        ++ (if negb (is_nil (GetCiliumInternalIP n false))
               || negb (is_nil (GetCiliumInternalIP n true))
            then [NInfo [NFIPv4 (GetCiliumInternalIP n false);
                         NFIPv6 (GetCiliumInternalIP n true)]
                        "Restored router IPs from node information"]
            else [])
      else []).

End NodeInformation.

(** Stand-ins for the collaborators of package [k8s]: a node is its name
    and its two pod CIDRs, a resource is the node it describes, and the
    getter answers from a script, one entry per request, and with an error
    once the script is used up. *)
Module FakeNode.

Record Config := mkConfig {
  requireIPv4 : bool;
  requireIPv6 : bool;
  ipam : string;
  enableIPv4 : bool;
  enableIPv6 : bool;
  hostIPRestore : bool;
  autoDetect : bool;
}.

Record Node := mkNode {
  name : string;
  podCIDRv4 : option string;
  podCIDRv6 : option string;
}.

#[export] Instance option_ops : PkgOption Config := {
  K8sRequireIPv4PodCIDR := requireIPv4;
  K8sRequireIPv6PodCIDR := requireIPv6;
  IPAM := ipam;
  EnableIPv4 := enableIPv4;
  EnableIPv6 := enableIPv6;
  EnableHostIPRestore := hostIPRestore;
  MightAutoDetectDevices := autoDetect;
  IPAMClusterPool := "cluster-pool";
  IPAMClusterPoolV2 := "cluster-pool-v2beta";
  EnvNodeNameSpec := "K8S_NODE_NAME";
}.

#[export] Instance node_types : PkgNodeTypes Node string string unit := {
  GetName := "node1";
  Node_Name := name;
  IPv4AllocCIDR := podCIDRv4;
  IPv6AllocCIDR := podCIDRv6;
  Node_Labels := λ _, tt;
  GetNodeIP := λ _ _, None;
  GetK8sNodeIP := λ _, None;
  GetExternalIP := λ _ _, None;
  GetCiliumInternalIP := λ _ _, None;
}.

#[export] Instance k8s : PkgK8s Node Node Node Node Node := {
  ParseCiliumNode := λ n, n;
  ConvertToNode := Some;
  asSlimNode := Some;
  ParseNode := Some;
  CoreNode_String := name;
}.

Definition Script := list (Node * option Error).

Definition answer (g : Script) (nodeName : string)
  : Script * (Node * option Error) :=
  match g with
  | r :: g' => (g', r)
  | [] => ([], (mkNode nodeName None None, Some "not found"))
  end.

#[export] Instance getter_ops : K8sGetter Script Node Node := {
  GetK8sNode := answer;
  GetCiliumNode := answer;
}.

End FakeNode.


(** ** The coordinator *)

Section Coordinator.
Context {IPNet Labels NumericIdentity Source AllocSt Cache Metadata : Type}.
Context `{!PkgNet IPNet, !PkgLabels IPNet Labels,
          !PkgIdentity NumericIdentity Source,
          !IdentityAllocator NumericIdentity Labels AllocSt,
          !IPCacheStore NumericIdentity Labels Source Cache Metadata}.

Abbreviation Ident := (Identity NumericIdentity Labels).
Abbreviation CacheIdent := (CacheIdentity NumericIdentity Source).
Abbreviation IdentMap := (gmap string (option Ident)).

(** The iteration orders of the three [range] loops over a map of
    identities: over [newlyAllocatedIdentities] and over [toUpsert] in
    [UpsertGeneratedIdentities], over [allocatedIdentities] in
    [AllocateCIDRs]. *)
Variable range_newly : RangeOrder (option Ident).
Variable range_toUpsert : RangeOrder (option Ident).
Variable range_allocated : RangeOrder (option Ident).

(** *** Events *)

Inductive Level := LvlError | LvlWarning.

Inductive Field :=
| FIdentityID (nid : NumericIdentity)
| FIdentity (id : Ident)
| FCIDR (prefix : string)
| FCIDRNet (c : option IPNet)
| FLabels (lbls : Labels)
| FError (err : Error).

(** The label values of the counter [metrics.IPCacheErrorsTotal]. *)
Inductive MetricLabel := metricTypeRecover | metricErrorUnexpected.

Inductive Event :=
| EvMetadataRLock | EvMetadataRUnlock
| EvLock | EvUnlock
| EvMutexRLock | EvMutexRUnlock
| EvAllocateIdentity (lbls : Labels) (oldNID : NumericIdentity)
    (res : option Ident * bool * option Error)
| EvRelease (id : Ident) (res : bool * option Error)
| EvReleaseSlice (ids : list (option Ident)) (err : option Error)
| EvUpsert (prefix : string) (id : CacheIdent)
| EvDelete (prefix : string) (src : Source)
| EvIPCacheErrorsTotalInc (type error : MetricLabel)
| EvLog (lvl : Level) (fields : list Field) (msg : string)
| EvEnqueue (prefixes : list string) (reason : string).

(** *** The state reachable from an [IPCache] *)

Record World := mkWorld {
  allocator : AllocSt;
  cache : Cache;
  metadata : Metadata;
  trace : list Event;
}.

Definition emit (e : Event) (w : World) : World :=
  mkWorld (allocator w) (cache w) (metadata w) (trace w ++ [e]).
Definition set_allocator (a : AllocSt) (w : World) : World :=
  mkWorld a (cache w) (metadata w) (trace w).
Definition set_cache (c : Cache) (w : World) : World :=
  mkWorld (allocator w) c (metadata w) (trace w).

(** *** A state monad with run-time panics *)

Inductive Result (A : Type) :=
| Done (a : A) (w : World)
| Panic (reason : PanicReason).
Arguments Done {_} _ _.
Arguments Panic {_} _.

Definition M (A : Type) := World → Result A.

Definition ret {A} (a : A) : M A := λ w, Done a w.
Definition bind {A B} (m : M A) (k : A → M B) : M B :=
  λ w, match m w with
       | Done a w' => k a w'
       | Panic r => Panic r
       end.
Definition panic {A} (reason : PanicReason) : M A := λ _, Panic reason.
Definition get : M World := λ w, Done w w.
Definition tell (e : Event) : M unit := λ w, Done tt (emit e w).

Notation "'let!' x ':=' m 'in' k" := (bind m (λ x, k))
  (at level 10, x pattern, m at level 100, k at level 200).
Notation "m ;;; k" := (bind m (λ _, k))
  (at level 100, k at level 200, right associativity).

(** [s[i]] on a slice. *)
Definition index {A} (s : list A) (i : nat) : M A :=
  match s !! i with
  | Some x => ret x
  | None => panic IndexOutOfRange
  end.

(** [*p] on a pointer. *)
Definition deref {A} (p : option A) : M A :=
  match p with
  | Some x => ret x
  | None => panic NilPointerDereference
  end.

(** *** Calls into the collaborators *)

Definition callAllocateIdentity (lbls : Labels) (oldNID : NumericIdentity)
  : M (option Ident * bool * option Error) :=
  λ w, let '(a, r) := AllocateIdentity (allocator w) lbls false oldNID in
       Done r (emit (EvAllocateIdentity lbls oldNID r) (set_allocator a w)).

Definition callRelease (id : Ident) : M (bool * option Error) :=
  λ w, let '(a, r) := Release (allocator w) id false in
       Done r (emit (EvRelease id r) (set_allocator a w)).

Definition callReleaseSlice (ids : list (option Ident)) : M (option Error) :=
  λ w, let '(a, r) := ReleaseSlice (allocator w) ids in
       Done r (emit (EvReleaseSlice ids r) (set_allocator a w)).

Definition callUpsert (prefix : string) (id : CacheIdent) : M unit :=
  λ w, Done tt (emit (EvUpsert prefix id)
                     (set_cache (Upsert (cache w) prefix id) w)).

Definition callDeleteLocked (prefix : string) (src : Source) : M unit :=
  λ w, Done tt (emit (EvDelete prefix src)
                     (set_cache (deleteLocked (cache w) prefix src) w)).

(** *** [allocate] *)

(** [fmt.Errorf("failed to allocate identity for cidr %s: %s", prefix, err)] *)
Definition allocate_error (prefix : IPNet) (err : Error) : Error :=
  "failed to allocate identity for cidr " +:+ IPNet_String prefix
    +:+ ": " +:+ err.

(** [id.CIDRLabel = lbls] *)
Definition set_CIDRLabel (lbls : Labels) (id : Ident) : Ident :=
  mkIdentity (ID id) (Labels_ id) lbls.

(** The label list [[]string{labels.LabelSourceCIDR + ":" + prefix.String()}] *)
Definition cidrModel (prefix : IPNet) : list string :=
  [LabelSourceCIDR +:+ ":" +:+ IPNet_String prefix].

(** The context with its timeout is passed on to the allocator, whose
    failure (expiry included) comes back as [err]. *)
Definition allocate (prefix : option IPNet) (lbls : Labels)
    (oldNID : NumericIdentity) : M (option Ident * bool * option Error) :=
  match prefix with
  | None => ret (None, false, None)
  | Some p =>
    let! (id, isNew, err) := callAllocateIdentity lbls oldNID in
    match err with
    | Some e => ret (None, isNew, Some (allocate_error p e))
    | None =>
      if HasLabelWorld lbls then
        let! i := deref id in
        ret (Some (set_CIDRLabel (NewLabelsFromModel (cidrModel p)) i),
             isNew, None)
      else ret (id, isNew, None)
    end
  end.

(** *** [UpsertGeneratedIdentities] *)

(** The body of both [range] loops that upsert: [recover] tells whether the
    counter is bumped first (second loop) or not (first loop). *)
Fixpoint upsertEach (recover : bool) (entries : list (string * option Ident))
  : M unit :=
  match entries with
  | [] => ret tt
  | (prefix, id) :: rest =>
    (if recover
     then tell (EvIPCacheErrorsTotalInc metricTypeRecover metricErrorUnexpected)
     else ret tt) ;;;
    let! i := deref id in
    callUpsert prefix (mkCacheIdentity (ID i) Generated) ;;;
    upsertEach recover rest
  end.

(** The loop over [usedIdentities], filling [toUpsert]. *)
Fixpoint collectMissing (usedIdentities : list (option Ident))
    (toUpsert : IdentMap) : M IdentMap :=
  match usedIdentities with
  | [] => ret toUpsert
  | id :: rest =>
    let! i := deref id in
    match cidrLabelToPrefix (Labels_String (CIDRLabel i)) with
    | (_, false) =>
      tell (EvLog LvlWarning [FIdentityID (ID i)]
             "BUG: Attempting to upsert non-CIDR identity") ;;;
      collectMissing rest toUpsert
    | (prefix, true) =>
      let! w := get in
      match LookupByIPRLocked (cache w) prefix with
      | Some _ => collectMissing rest toUpsert
      | None => collectMissing rest (<[prefix := id]> toUpsert)
      end
    end
  end.

Definition UpsertGeneratedIdentities (newlyAllocatedIdentities : IdentMap)
    (usedIdentities : list (option Ident)) : M unit :=
  upsertEach false (shuffle range_newly (map_to_list newlyAllocatedIdentities)) ;;;
  if decide (length usedIdentities = 0) then ret tt
  else
    tell EvMutexRLock ;;;
    let! toUpsert := collectMissing usedIdentities ∅ in
    tell EvMutexRUnlock ;;;
    upsertEach true (shuffle range_toUpsert (map_to_list toUpsert)).

(** *** [AllocateCIDRs] *)

(** The three collections the loop of [AllocateCIDRs] appends to. *)
Record LoopState := mkLoopState {
  usedIdentities : list (option Ident);
  allocatedIdentities : IdentMap;
  newlyAllocatedIdentities : IdentMap;
}.

(** The loop over [prefixes], from index [i] on.  The first component of
    the result is the error of the early return, taken after
    [ReleaseSlice] and the two unlocks. *)
Fixpoint allocateLoop (i : nat) (prefixes : list (option IPNet))
    (oldNIDs : option (list NumericIdentity)) (st : LoopState)
  : M (option Error * LoopState) :=
  match prefixes with
  | [] => ret (None, st)
  | None :: rest => allocateLoop (S i) rest oldNIDs st
  | Some p :: rest =>
    let! w := get in
    let lbls :=
      MergeLabels (GetCIDRLabels p)
                  (metadata_getLocked (metadata w) (IPNet_IP_String p)) in
    let! oldNID :=
      match oldNIDs with
      | Some nids =>
        if decide (i < length nids) then index nids i else ret InvalidIdentity
      | None => ret InvalidIdentity
      end in
    let! (id, isNew, err) := allocate (Some p) lbls oldNID in
    match err with
    | Some e =>
      callReleaseSlice (usedIdentities st) ;;;
      tell EvUnlock ;;;
      tell EvMetadataRUnlock ;;;
      ret (Some e, st)
    | None =>
      let prefixStr := IPNet_String p in
      allocateLoop (S i) rest oldNIDs
        (mkLoopState
           (usedIdentities st ++ [id])
           (<[prefixStr := id]> (allocatedIdentities st))
           (if isNew
            then <[prefixStr := id]> (newlyAllocatedIdentities st)
            else newlyAllocatedIdentities st))
    end
  end.

(** [sink] is the parameter [newlyAllocatedIdentities], [None] being the nil
    map, and [oldNIDs = None] the nil slice, whose length is 0.  The third
    component of the result is the caller's map as the call leaves it
    ([None] when the caller passed nil): a Go map is shared with the
    caller. *)
Definition AllocateCIDRs (prefixes : list (option IPNet))
    (oldNIDs : option (list NumericIdentity)) (sink : option IdentMap)
  : M (option (list (option Ident)) * option Error * option IdentMap) :=
  let upsert := match sink with None => true | Some _ => false end in
  let newly0 := match sink with None => ∅ | Some m => m end in
  tell EvMetadataRLock ;;;
  tell EvLock ;;;
  let! (err, st) := allocateLoop 0 prefixes oldNIDs (mkLoopState [] ∅ newly0) in
  let out := if upsert then None else Some (newlyAllocatedIdentities st) in
  match err with
  | Some e => ret (None, Some e, out)
  | None =>
    tell EvUnlock ;;;
    tell EvMetadataRUnlock ;;;
    (if upsert
     then UpsertGeneratedIdentities (newlyAllocatedIdentities st) []
     else ret tt) ;;;
    ret (Some (snd <$> shuffle range_allocated
                 (map_to_list (allocatedIdentities st))),
         None, out)
  end.

(** *** [releaseCIDRIdentities] *)

(** The loop over [prefixes], appending to [toDelete]. *)
Fixpoint releaseLoop (prefixes : list string) (toDelete : list string)
  : M (list string) :=
  match prefixes with
  | [] => ret toDelete
  | prefix :: rest =>
    match ParseCIDR prefix with
    | inl err =>
      tell (EvLog LvlError [FCIDRNet None; FError err]
             "Unable to parse CIDR during ipcache release") ;;;
      releaseLoop rest toDelete
    | inr c =>
      let lbls := GetCIDRLabels c in
      let! w := get in
      match LookupIdentity (allocator w) lbls with
      | None =>
        tell (EvLog LvlError [FCIDR prefix]
               "Unable to find identity of previously used CIDR") ;;;
        releaseLoop rest toDelete
      | Some id =>
        let! (released, err) := callRelease id in
        (match err with
         | Some e =>
           tell (EvLog LvlWarning [FIdentity id; FCIDR prefix; FError e]
                  "Unable to release CIDR identity. Ignoring error. Identity may be leaked")
         | None => ret tt
         end) ;;;
        releaseLoop rest (if released then toDelete ++ [prefix] else toDelete)
      end
    end
  end.

(** The loop over [toDelete]. *)
Fixpoint deleteEach (toDelete : list string) : M unit :=
  match toDelete with
  | [] => ret tt
  | prefix :: rest => callDeleteLocked prefix Generated ;;; deleteEach rest
  end.

(** The deferred [ipc.Unlock()] runs when the function returns. *)
Definition releaseCIDRIdentities (prefixes : list string) : M unit :=
  tell EvLock ;;;
  let! toDelete := releaseLoop prefixes [] in
  deleteEach toDelete ;;;
  tell EvUnlock.

(** *** [ReleaseCIDRIdentitiesByCIDR] and [ReleaseCIDRIdentitiesByID] *)

(** [n.String()] on a [*net.IPNet], which prints a nil receiver. *)
Definition IPNet_ptr_String (n : option IPNet) : string :=
  match n with
  | Some n => IPNet_String n
  | None => "<nil>"
  end.

Definition ReleaseCIDRIdentitiesByCIDR (nets : list (option IPNet)) : M unit :=
  tell (EvEnqueue (IPNet_ptr_String <$> nets) "cidr-prefix-release").

(** The loop over [identities], appending to [prefixes]. *)
Fixpoint resolveLoop (identities : list NumericIdentity)
    (prefixes : list string) : M (list string) :=
  match identities with
  | [] => ret prefixes
  | nid :: rest =>
    let! w := get in
    match LookupIdentityByID (allocator w) nid with
    | Some id =>
      match cidrLabelToPrefix (Labels_String (CIDRLabel id)) with
      | (_, false) =>
        tell (EvLog LvlWarning [FIdentityID nid; FLabels (Labels_ id)]
               "Unexpected release of non-CIDR identity, will leak this identity. Please report this issue to the developers.") ;;;
        resolveLoop rest prefixes
      | (prefix, true) => resolveLoop rest (prefixes ++ [prefix])
      end
    | None =>
      tell (EvLog LvlWarning [FIdentityID nid]
             "Unexpected release of numeric identity that is no longer allocated") ;;;
      resolveLoop rest prefixes
    end
  end.

Definition ReleaseCIDRIdentitiesByID (identities : list NumericIdentity)
  : M unit :=
  let! prefixes := resolveLoop identities [] in
  tell (EvEnqueue prefixes "selector-prefix-release").

(** ** Specification vocabulary *)

(** *** Allocation *)

(** The labels requested for a prefix: its CIDR labels merged with the
    metadata registered for its address. *)
Definition labelsOf (md : Metadata) (p : IPNet) : Labels :=
  MergeLabels (GetCIDRLabels p) (metadata_getLocked md (IPNet_IP_String p)).

(** The previous numeric identity passed for the prefix of index [i]. *)
Definition hint (oldNIDs : option (list NumericIdentity)) (i : nat)
  : NumericIdentity :=
  match oldNIDs with
  | Some nids => default InvalidIdentity (nids !! i)
  | None => InvalidIdentity
  end.

(** The non-nil entries of a batch with their indices, counted from [i]. *)
Fixpoint nonNil (i : nat) (prefixes : list (option IPNet))
  : list (nat * IPNet) :=
  match prefixes with
  | [] => []
  | None :: rest => nonNil (S i) rest
  | Some p :: rest => (i, p) :: nonNil (S i) rest
  end.

(** One allocation that succeeded: the index and prefix it was made for and
    what [AllocateIdentity] answered, [(s_raw, s_isNew, nil)]. *)
Record Step := mkStep {
  s_index : nat;
  s_prefix : IPNet;
  s_raw : option Ident;
  s_isNew : bool;
}.

Definition s_place (s : Step) : nat * IPNet := (s_index s, s_prefix s).
Definition s_key (s : Step) : string := IPNet_String (s_prefix s).

Section Steps.
Variable md : Metadata.
Variable oldNIDs : option (list NumericIdentity).

Definition s_lbls (s : Step) : Labels := labelsOf md (s_prefix s).
Definition s_hint (s : Step) : NumericIdentity := hint oldNIDs (s_index s).

(** The identity [allocate] hands back for the step. *)
Definition s_id (s : Step) : option Ident :=
  if HasLabelWorld (s_lbls s)
  then set_CIDRLabel (NewLabelsFromModel (cidrModel (s_prefix s))) <$> s_raw s
  else s_raw s.

Definition s_event (s : Step) : Event :=
  EvAllocateIdentity (s_lbls s) (s_hint s) (s_raw s, s_isNew s, None).

(** [AllocRun a steps a']: from allocator state [a], the allocations of
    [steps] succeed one after the other and leave the allocator in [a']. *)
Inductive AllocRun : AllocSt → list Step → AllocSt → Prop :=
| AllocRun_nil a : AllocRun a [] a
| AllocRun_cons a a1 a' s steps :
    AllocateIdentity a (s_lbls s) false (s_hint s)
      = (a1, (s_raw s, s_isNew s, None)) →
    (HasLabelWorld (s_lbls s) = true → is_Some (s_raw s)) →
    AllocRun a1 steps a' →
    AllocRun a (s :: steps) a'.

(** What one step does to the collections of the loop. *)
Definition add_step (st : LoopState) (s : Step) : LoopState :=
  mkLoopState
    (usedIdentities st ++ [s_id s])
    (<[s_key s := s_id s]> (allocatedIdentities st))
    (if s_isNew s
     then <[s_key s := s_id s]> (newlyAllocatedIdentities st)
     else newlyAllocatedIdentities st).

(** The identity of the latest step made for the prefix string [key], among
    the steps selected by [sel]. *)
Definition latest (sel : Step → bool) (key : string) (steps : list Step)
  : option (option Ident) :=
  last (s_id <$> filter (λ s, s_key s = key ∧ sel s = true) steps).

(** The caller's map and the map of allocated identities after a run. *)
Definition record_steps (sel : Step → bool) (m : IdentMap)
    (steps : list Step) : IdentMap :=
  foldl (λ m s, if sel s then <[s_key s := s_id s]> m else m) m steps.
Definition newly_after : IdentMap → list Step → IdentMap :=
  record_steps s_isNew.
Definition allocated_after : IdentMap → list Step → IdentMap :=
  record_steps (λ _, true).

(** From allocator state [a], every non-nil prefix of the batch (indices
    from [i]) is allocated successfully, by [steps], ending in [a']. *)
Definition Completes (a : AllocSt) (i : nat) (prefixes : list (option IPNet))
    (steps : list Step) (a' : AllocSt) : Prop :=
  s_place <$> steps = nonNil i prefixes ∧ AllocRun a steps a'.

(** From allocator state [a], the non-nil prefixes of [pre] are allocated
    successfully, by [steps], and the allocation of the next prefix [p]
    then fails with [e0], the allocator answering [(raw, isNew, e0)] and
    going from [a_k] to [a_f]. *)
Definition FailsAt (a : AllocSt) (i : nat) (pre : list (option IPNet))
    (p : IPNet) (steps : list Step) (a_k a_f : AllocSt)
    (raw : option Ident) (isNew : bool) (e0 : Error) : Prop :=
  s_place <$> steps = nonNil i pre ∧ AllocRun a steps a_k ∧
  AllocateIdentity a_k (labelsOf md p) false (hint oldNIDs (i + length pre))
    = (a_f, (raw, isNew, Some e0)).

(** As [FailsAt], but the allocator answers [(nil, isNew, nil)] for [p],
    whose labels carry the world label. *)
Definition FaultsAt (a : AllocSt) (i : nat) (pre : list (option IPNet))
    (p : IPNet) (steps : list Step) (a_k a_f : AllocSt) (isNew : bool)
  : Prop :=
  s_place <$> steps = nonNil i pre ∧ AllocRun a steps a_k ∧
  AllocateIdentity a_k (labelsOf md p) false (hint oldNIDs (i + length pre))
    = (a_f, (None, isNew, None)) ∧
  HasLabelWorld (labelsOf md p) = true.

End Steps.

(** *** Upserts *)

(** The cache value [Identity{ID: id.ID, Source: source.Generated}]. *)
Definition generated (id : Ident) : CacheIdent :=
  mkCacheIdentity (ID id) Generated.

(** The entries of a map whose identity pointer is not nil. *)
Definition present (entries : list (string * option Ident))
  : list (string * Ident) :=
  omap (λ e, pair e.1 <$> e.2) entries.

(** What upserting [entries] one after the other leaves in the trace and in
    the cache; on the recovery path each upsert follows an increment of the
    counter. *)
Definition upsert_events (recover : bool) (entries : list (string * Ident))
  : list Event :=
  entries ≫= λ e,
    (if recover
     then [EvIPCacheErrorsTotalInc metricTypeRecover metricErrorUnexpected]
     else []) ++ [EvUpsert e.1 (generated e.2)].

Definition upsert_all (c : Cache) (entries : list (string * Ident)) : Cache :=
  foldl (λ c e, Upsert c e.1 (generated e.2)) c entries.

(** *** Outcomes of [AllocateCIDRs] *)

(** The trace of a call whose allocations are [steps], up to the unlocks
    of the success path. *)
Definition locked_events (md : Metadata)
    (oldNIDs : option (list NumericIdentity)) (steps : list Step)
  : list Event :=
  [EvMetadataRLock; EvLock] ++ (s_event md oldNIDs <$> steps)
  ++ [EvUnlock; EvMetadataRUnlock].

(** The trace of a call that fails at [p] after [steps]. *)
Definition rollback_events (md : Metadata)
    (oldNIDs : option (list NumericIdentity)) (steps : list Step)
    (pre : list (option IPNet)) (p : IPNet)
    (res : option Ident * bool * option Error) (released : option Error)
  : list Event :=
  [EvMetadataRLock; EvLock] ++ (s_event md oldNIDs <$> steps)
  ++ [EvAllocateIdentity (labelsOf md p) (hint oldNIDs (length pre)) res;
      EvReleaseSlice (s_id md <$> steps) released;
      EvUnlock; EvMetadataRUnlock].

(** The arguments of the calls to [AllocateIdentity] in a trace. *)
Definition alloc_call (e : Event) : option (Labels * NumericIdentity) :=
  match e with
  | EvAllocateIdentity lbls oldNID _ => Some (lbls, oldNID)
  | _ => None
  end.
Definition alloc_calls (tr : list Event) : list (Labels * NumericIdentity) :=
  omap alloc_call tr.

(** *** The recovery path of [UpsertGeneratedIdentities] *)

(** The prefix from the CIDR label of an identity, when
    [cidrLabelToPrefix] finds one. *)
Definition prefixOf (id : Ident) : option string :=
  match cidrLabelToPrefix (Labels_String (CIDRLabel id)) with
  | (prefix, true) => Some prefix
  | (_, false) => None
  end.

Definition non_cidr_warning (id : Ident) : Event :=
  EvLog LvlWarning [FIdentityID (ID id)]
        "BUG: Attempting to upsert non-CIDR identity".

(** The warnings of the loop over [usedIdentities]. *)
Definition upsert_warnings (used : list Ident) : list Event :=
  omap (λ id, match prefixOf id with
              | None => Some (non_cidr_warning id)
              | Some _ => None
              end) used.

(** The used identities whose prefix is [key], in order. *)
Definition used_for (key : string) (used : list Ident) : list Ident :=
  filter (λ id, prefixOf id = Some key) used.

(** The map [toUpsert] after the loop over [usedIdentities], against the
    cache [c]. *)
Definition missing (c : Cache) (used : list Ident) (m : IdentMap) : IdentMap :=
  foldl (λ m id,
           match prefixOf id with
           | Some prefix =>
             match LookupByIPRLocked c prefix with
             | Some _ => m
             | None => <[prefix := Some id]> m
             end
           | None => m
           end) m used.

Definition is_recovery (e : Event) : bool :=
  match e with
  | EvIPCacheErrorsTotalInc metricTypeRecover metricErrorUnexpected => true
  | _ => false
  end.

(** How often a trace bumps the counter of unexpected recoveries. *)
Definition recoveries (tr : list Event) : nat :=
  length (filter (λ e, is_recovery e = true) tr).

(** *** Release *)

(** What the release loop met at one prefix. *)
Inductive Outcome :=
| Unparsable (err : Error)
| NotFound
| Released (id : Ident) (released : bool) (err : option Error).

(** The outcome of one prefix against allocator state [a], and the state
    it leaves. *)
Definition release_one (a : AllocSt) (prefix : string) : AllocSt * Outcome :=
  match ParseCIDR prefix with
  | inl err => (a, Unparsable err)
  | inr c =>
    match LookupIdentity a (GetCIDRLabels c) with
    | None => (a, NotFound)
    | Some id =>
      let r := Release a id false in (r.1, Released id r.2.1 r.2.2)
    end
  end.

(** The outcomes of a batch, one per prefix, each against the state the
    prefixes before it left. *)
Fixpoint release_all (a : AllocSt) (prefixes : list string)
  : AllocSt * list Outcome :=
  match prefixes with
  | [] => (a, [])
  | prefix :: rest =>
    let r := release_one a prefix in
    let rs := release_all r.1 rest in
    (rs.1, r.2 :: rs.2)
  end.

(** The allocator reported that the last reference was released. *)
Definition last_reference (o : Outcome) : bool :=
  match o with
  | Released _ true _ => true
  | _ => false
  end.

(** The prefixes of a batch whose outcome is a release of the last
    reference, in batch order. *)
Definition deleted (prefixes : list string) (outcomes : list Outcome)
  : list string :=
  (filter (λ po, last_reference po.2 = true) (zip prefixes outcomes)).*1.

Definition outcome_events (prefix : string) (o : Outcome) : list Event :=
  match o with
  | Unparsable err =>
    [EvLog LvlError [FCIDRNet None; FError err]
           "Unable to parse CIDR during ipcache release"]
  | NotFound =>
    [EvLog LvlError [FCIDR prefix]
           "Unable to find identity of previously used CIDR"]
  | Released id released err =>
    EvRelease id (released, err)
    :: match err with
       | Some e =>
         [EvLog LvlWarning [FIdentity id; FCIDR prefix; FError e]
                "Unable to release CIDR identity. Ignoring error. Identity may be leaked"]
       | None => []
       end
  end.

Definition batch_events (prefixes : list string) (outcomes : list Outcome)
  : list Event :=
  mjoin (zip_with outcome_events prefixes outcomes).

Definition delete_events (prefixes : list string) : list Event :=
  (λ prefix, EvDelete prefix Generated) <$> prefixes.

Definition delete_all (c : Cache) (prefixes : list string) : Cache :=
  foldl (λ c prefix, deleteLocked c prefix Generated) c prefixes.

(** *** Release by numeric identity *)

(** The prefix a numeric identity resolves to. *)
Definition resolve (a : AllocSt) (nid : NumericIdentity) : option string :=
  LookupIdentityByID a nid ≫= prefixOf.

(** The warning for a numeric identity that does not resolve. *)
Definition resolve_warning (a : AllocSt) (nid : NumericIdentity)
  : list Event :=
  match LookupIdentityByID a nid with
  | Some id =>
    match prefixOf id with
    | Some _ => []
    | None =>
      [EvLog LvlWarning [FIdentityID nid; FLabels (Labels_ id)]
             "Unexpected release of non-CIDR identity, will leak this identity. Please report this issue to the developers."]
    end
  | None =>
    [EvLog LvlWarning [FIdentityID nid]
           "Unexpected release of numeric identity that is no longer allocated"]
  end.

(** Whether a call returned, and without an error. *)
Definition returned_ok {A B C} (r : Result (A * option B * C)) : bool :=
  match r with
  | Done (_, None, _) _ => true
  | _ => false
  end.

(** *** [AllocateCIDRsForIPs] *)

Context {IP : Type} `{!PkgIP IP IPNet}.

Definition AllocateCIDRsForIPs (prefixes : list IP) (sink : option IdentMap)
  : M (option (list (option Ident)) * option Error * option IdentMap) :=
  AllocateCIDRs (GetCIDRPrefixesFromIPs prefixes) None sink.

(** *** Kinds of events *)

Definition is_allocation (e : Event) : bool :=
  match e with
  | EvAllocateIdentity _ _ _ | EvReleaseSlice _ _ => true
  | _ => false
  end.

Definition is_upsert (e : Event) : bool :=
  match e with
  | EvUpsert _ _ => true
  | _ => false
  end.

Definition is_release (e : Event) : bool :=
  match e with
  | EvRelease _ _ => true
  | _ => false
  end.

Definition is_log (e : Event) : bool :=
  match e with
  | EvLog _ _ _ => true
  | _ => false
  end.

Definition is_delete (e : Event) : bool :=
  match e with
  | EvDelete _ _ => true
  | _ => false
  end.

(** The prefixes under which a trace upserts. *)
Definition upsert_key (e : Event) : option string :=
  match e with
  | EvUpsert prefix _ => Some prefix
  | _ => None
  end.
Definition upsert_keys (tr : list Event) : list string := omap upsert_key tr.

(** What a call added to the trace of [w]. *)
Definition added (w w' : World) : list Event :=
  drop (length (trace w)) (trace w').


(** ** Proofs *)

(** *** The monad *)

Lemma bind_Done {A B} (m : M A) (k : A → M B) w a w1 :
  m w = Done a w1 → bind m k w = k a w1.
Proof. unfold bind. by intros ->. Qed.

Lemma bind_Panic {A B} (m : M A) (k : A → M B) w r :
  m w = Panic r → bind m k w = Panic r.
Proof. unfold bind. by intros ->. Qed.

Lemma bind_inv_Done {A B} (m : M A) (k : A → M B) w b w2 :
  bind m k w = Done b w2 → ∃ a w1, m w = Done a w1 ∧ k a w1 = Done b w2.
Proof. unfold bind. destruct (m w) as [a w1|r]; [eauto | done]. Qed.

Lemma emit_trace e w : trace (emit e w) = trace w ++ [e].
Proof. done. Qed.

(** Brings the worlds in a goal to the form [mkWorld a c md (tr ++ ...)]. *)
Ltac norm_world :=
  unfold emit, set_allocator, set_cache;
  cbn [allocator cache metadata trace];
  rewrite <- ?app_assoc; cbn [app].

Lemma returned_ok_inv {A B C} (r : Result (A * option B * C)) :
  returned_ok r = true → ∃ a c w', r = Done (a, None, c) w'.
Proof. destruct r as [[[a [b|]] c] w'|]; [done| |done]. eauto. Qed.

Lemma world_eta w :
  mkWorld (allocator w) (cache w) (metadata w) (trace w) = w.
Proof. by destruct w. Qed.

(** *** [allocate] and the loop of [AllocateCIDRs] *)

Section AllocateLoop.
Variable oldNIDs : option (list NumericIdentity).

Abbreviation Run w := (AllocRun (metadata w) oldNIDs).
Abbreviation ev w := (s_event (metadata w) oldNIDs).
Abbreviation idOf w := (s_id (metadata w)).
Abbreviation add w := (add_step (metadata w)).

(** The guarded read of [oldNIDs] never leaves the slice. *)
Lemma oldNID_hint i w :
  match oldNIDs with
  | Some nids =>
    if decide (i < length nids) then index nids i else ret InvalidIdentity
  | None => ret InvalidIdentity
  end w = Done (hint oldNIDs i) w.
Proof.
  unfold hint, index. destruct oldNIDs as [nids|]; [|done].
  case_decide as Hi.
  - destruct (lookup_lt_is_Some_2 nids i Hi) as [x ->]. done.
  - rewrite lookup_ge_None_2; [done | lia].
Qed.

(** The result of [allocate] on a non-nil prefix, by the answer of the
    allocator. *)
Lemma allocate_Some p lbls oldNID w :
  allocate (Some p) lbls oldNID w =
  let '(a, (raw, isNew, err)) :=
    AllocateIdentity (allocator w) lbls false oldNID in
  let w1 := emit (EvAllocateIdentity lbls oldNID (raw, isNew, err))
                 (set_allocator a w) in
  match err with
  | Some e => Done (None, isNew, Some (allocate_error p e)) w1
  | None =>
    if HasLabelWorld lbls then
      match raw with
      | Some i =>
        Done (Some (set_CIDRLabel (NewLabelsFromModel (cidrModel p)) i),
              isNew, None) w1
      | None => Panic NilPointerDereference
      end
    else Done (raw, isNew, None) w1
  end.
Proof.
  unfold allocate, bind, callAllocateIdentity.
  destruct (AllocateIdentity _ _ _ _) as [a [[raw isNew] [e|]]]; [done|].
  destruct (HasLabelWorld lbls); [|done]. by destruct raw.
Qed.

Lemma allocate_None lbls oldNID w :
  allocate None lbls oldNID w = Done (None, false, None) w.
Proof. done. Qed.

Lemma usedIdentities_foldl md steps st :
  usedIdentities (foldl (add_step md) st steps)
  = usedIdentities st ++ (s_id md <$> steps).
Proof.
  revert st. induction steps as [|s steps IH]; intros st; simpl.
  - by rewrite app_nil_r.
  - rewrite IH. simpl. by rewrite <- app_assoc.
Qed.

(** One turn of the loop on a non-nil prefix. *)
Lemma allocateLoop_Some i p rest st w :
  allocateLoop i (Some p :: rest) oldNIDs st w =
  match allocate (Some p) (labelsOf (metadata w) p) (hint oldNIDs i) w with
  | Done (id, isNew, Some e) w1 =>
    let released := ReleaseSlice (allocator w1) (usedIdentities st) in
    Done (Some e, st)
      (mkWorld released.1 (cache w1) (metadata w1)
         (trace w1 ++ [EvReleaseSlice (usedIdentities st) released.2;
                       EvUnlock; EvMetadataRUnlock]))
  | Done (id, isNew, None) w1 =>
    allocateLoop (S i) rest oldNIDs
      (mkLoopState
         (usedIdentities st ++ [id])
         (<[IPNet_String p := id]> (allocatedIdentities st))
         (if isNew
          then <[IPNet_String p := id]> (newlyAllocatedIdentities st)
          else newlyAllocatedIdentities st)) w1
  | Panic r => Panic r
  end.
Proof.
  cbn [allocateLoop]. unfold bind at 1, get.
  unfold bind at 1. rewrite oldNID_hint.
  unfold bind at 1. fold (labelsOf (metadata w) p).
  destruct (allocate _ _ _ w) as [[[id isNew] [e|]] w1|r]; [|done..].
  unfold bind, callReleaseSlice, tell, ret, emit, set_allocator. simpl.
  destruct (ReleaseSlice _ _) as [a r]. simpl.
  by rewrite <- !app_assoc.
Qed.

(** [allocate] on a step of a run. *)
Lemma allocate_step w s a1 :
  AllocateIdentity (allocator w) (s_lbls (metadata w) s) false
                   (s_hint oldNIDs s)
    = (a1, (s_raw s, s_isNew s, None)) →
  (HasLabelWorld (s_lbls (metadata w) s) = true → is_Some (s_raw s)) →
  allocate (Some (s_prefix s)) (labelsOf (metadata w) (s_prefix s))
           (hint oldNIDs (s_index s)) w
  = Done (idOf w s, s_isNew s, None) (emit (ev w s) (set_allocator a1 w)).
Proof.
  intros Hcall Hnil. rewrite allocate_Some.
  unfold s_id, s_event, s_lbls, s_hint in *. rewrite Hcall. cbn zeta.
  destruct (HasLabelWorld _); [|done].
  by destruct (Hnil eq_refl) as [raw ->].
Qed.

(** A run of successful allocations drives the loop to its end. *)
Lemma allocateLoop_ok prefixes : ∀ i st w steps a',
  s_place <$> steps = nonNil i prefixes →
  Run w (allocator w) steps a' →
  allocateLoop i prefixes oldNIDs st w
  = Done (None, foldl (add w) st steps)
         (mkWorld a' (cache w) (metadata w) (trace w ++ (ev w <$> steps))).
Proof.
  induction prefixes as [|[p|] rest IH]; intros i st w steps a' Hpl Hrun.
  - destruct steps; [|done]. inversion Hrun; subst. simpl.
    rewrite app_nil_r, world_eta. done.
  - destruct steps as [|s steps]; [done|].
    cbn [fmap list_fmap nonNil] in Hpl. unfold s_place at 1 in Hpl.
    injection Hpl as Hi Hp Hpl.
    inversion Hrun as [|? a1 ? ? ? Hcall Hnil Hrest]; subst.
    rewrite allocateLoop_Some, (allocate_step _ _ _ Hcall Hnil).
    set (w1 := emit _ _).
    change (mkLoopState _ _ _) with (add w st s).
    rewrite (IH (S (s_index s)) (add w st s) w1 steps a' Hpl Hrest).
    simpl. by rewrite <- app_assoc.
  - simpl in Hpl. simpl. by apply IH.
Qed.

(** The loop over a batch cut in two. *)
Lemma allocateLoop_app pre rest : ∀ i st w st1 w1,
  allocateLoop i pre oldNIDs st w = Done (None, st1) w1 →
  allocateLoop i (pre ++ rest) oldNIDs st w
  = allocateLoop (i + length pre) rest oldNIDs st1 w1.
Proof.
  induction pre as [|[p|] pre IH]; intros i st w st1 w1 Hpre.
  - simpl in *. injection Hpre as -> ->. by rewrite Nat.add_0_r.
  - cbn [app]. rewrite allocateLoop_Some in Hpre |- *.
    destruct (allocate _ _ _ w) as [[[id isNew] [e|]] w2|r]; [done| |done].
    rewrite (IH _ _ _ _ _ Hpre). simpl. f_equal. lia.
  - cbn [allocateLoop app] in *. rewrite (IH _ _ _ _ _ Hpre).
    simpl. f_equal. lia.
Qed.

(** A run of successful allocations followed by a failing one: the loop
    releases what it used, unlocks and returns the error. *)
Lemma allocateLoop_err pre p post i st w steps a_k a_f raw isNew e0 :
  s_place <$> steps = nonNil i pre →
  Run w (allocator w) steps a_k →
  AllocateIdentity a_k (labelsOf (metadata w) p) false
                   (hint oldNIDs (i + length pre))
    = (a_f, (raw, isNew, Some e0)) →
  allocateLoop i (pre ++ Some p :: post) oldNIDs st w
  = let st' := foldl (add w) st steps in
    let released := ReleaseSlice a_f (usedIdentities st') in
    Done (Some (allocate_error p e0), st')
      (mkWorld released.1 (cache w) (metadata w)
         (trace w ++ (ev w <$> steps)
          ++ [EvAllocateIdentity (labelsOf (metadata w) p)
                (hint oldNIDs (i + length pre)) (raw, isNew, Some e0);
              EvReleaseSlice (usedIdentities st') released.2;
              EvUnlock; EvMetadataRUnlock])).
Proof.
  intros Hpl Hrun Hfail.
  rewrite (allocateLoop_app _ _ _ _ _ _ _ (allocateLoop_ok _ _ st _ _ _ Hpl Hrun)).
  rewrite allocateLoop_Some, allocate_Some. cbn [allocator metadata].
  rewrite Hfail. cbn zeta. simpl.
  by rewrite <- !app_assoc.
Qed.

(** A run of successful allocations followed by one for which the
    allocator answers neither an identity nor an error, under labels that
    carry the world label: [allocate] writes through the nil pointer. *)
Lemma allocateLoop_nil pre p post i st w steps a_k a_f isNew :
  s_place <$> steps = nonNil i pre →
  Run w (allocator w) steps a_k →
  AllocateIdentity a_k (labelsOf (metadata w) p) false
                   (hint oldNIDs (i + length pre))
    = (a_f, (None, isNew, None)) →
  HasLabelWorld (labelsOf (metadata w) p) = true →
  allocateLoop i (pre ++ Some p :: post) oldNIDs st w
  = Panic NilPointerDereference.
Proof.
  intros Hpl Hrun Hcall Hworld.
  rewrite (allocateLoop_app _ _ _ _ _ _ _ (allocateLoop_ok _ _ st _ _ _ Hpl Hrun)).
  rewrite allocateLoop_Some, allocate_Some. cbn [allocator metadata].
  rewrite Hcall. cbn zeta. by rewrite Hworld.
Qed.

(** Every batch either completes, fails at some prefix, or faults there. *)
Lemma alloc_cases md prefixes : ∀ a i,
  (∃ steps a', Completes md oldNIDs a i prefixes steps a')
  ∨ (∃ pre p post steps a_k a_f raw isNew e0,
       prefixes = pre ++ Some p :: post ∧
       FailsAt md oldNIDs a i pre p steps a_k a_f raw isNew e0)
  ∨ (∃ pre p post steps a_k a_f isNew,
       prefixes = pre ++ Some p :: post ∧
       FaultsAt md oldNIDs a i pre p steps a_k a_f isNew).
Proof.
  unfold Completes, FailsAt, FaultsAt.
  induction prefixes as [|[p|] rest IH]; intros a i.
  - left. exists [], a. split; [done | constructor].
  - destruct (AllocateIdentity a (labelsOf md p) false (hint oldNIDs i))
      as [a1 [[raw isNew] [e|]]] eqn:Hcall.
    { right; left. exists [], p, rest, [], a, a1, raw, isNew, e.
      simpl. rewrite Nat.add_0_r. split_and!; try done. constructor. }
    destruct (decide (HasLabelWorld (labelsOf md p) = true ∧ raw = None))
      as [[Hw ->]|Hgood].
    { right; right. exists [], p, rest, [], a, a1, isNew.
      simpl. rewrite Nat.add_0_r. split_and!; try done. constructor. }
    assert (Hstep : ∀ steps a',
      AllocRun md oldNIDs a1 steps a' →
      AllocRun md oldNIDs a (mkStep i p raw isNew :: steps) a').
    { intros steps a' Hrun. econstructor; [exact Hcall| |exact Hrun].
      unfold s_lbls. simpl. intros Hw. destruct raw; [eauto|].
      destruct Hgood. done. }
    assert (Hplace : ∀ steps l,
      s_place <$> steps = l →
      s_place <$> (mkStep i p raw isNew :: steps) = (i, p) :: l).
    { by intros steps l <-. }
    destruct (IH a1 (S i)) as
      [(steps & a' & Hpl & Hrun)
      |[(pre & q & post & steps & a_k & a_f & raw' & isNew' & e0 & -> & Hpl & Hrun & Hf)
       |(pre & q & post & steps & a_k & a_f & isNew' & -> & Hpl & Hrun & Hf & Hw)]].
    + left. exists (mkStep i p raw isNew :: steps), a'.
      cbn [nonNil]. split; auto.
    + right; left.
      exists (Some p :: pre), q, post, (mkStep i p raw isNew :: steps),
        a_k, a_f, raw', isNew', e0.
      cbn [nonNil length]. rewrite <- Nat.add_succ_comm. split_and!; auto.
    + right; right.
      exists (Some p :: pre), q, post, (mkStep i p raw isNew :: steps),
        a_k, a_f, isNew'.
      cbn [nonNil length]. rewrite <- Nat.add_succ_comm. split_and!; auto.
  - destruct (IH a (S i)) as
      [(steps & a' & Hpl & Hrun)
      |[(pre & q & post & steps & a_k & a_f & raw' & isNew' & e0 & -> & Hpl & Hrun & Hf)
       |(pre & q & post & steps & a_k & a_f & isNew' & -> & Hpl & Hrun & Hf & Hw)]].
    + left. exists steps, a'. done.
    + right; left. exists (None :: pre), q, post, steps, a_k, a_f, raw', isNew', e0.
      simpl. rewrite <- Nat.add_succ_comm. done.
    + right; right. exists (None :: pre), q, post, steps, a_k, a_f, isNew'.
      simpl. rewrite <- Nat.add_succ_comm. done.
Qed.

Lemma newly_foldl md steps st :
  newlyAllocatedIdentities (foldl (add_step md) st steps)
  = newly_after md (newlyAllocatedIdentities st) steps.
Proof.
  unfold newly_after, record_steps.
  revert st. induction steps as [|s steps IH]; intros st; [done|].
  simpl. by rewrite IH.
Qed.

Lemma allocated_foldl md steps st :
  allocatedIdentities (foldl (add_step md) st steps)
  = allocated_after md (allocatedIdentities st) steps.
Proof.
  unfold allocated_after, record_steps.
  revert st. induction steps as [|s steps IH]; intros st; [done|].
  simpl. by rewrite IH.
Qed.

(** The entry a run leaves under a key is the one of the latest selected
    step for that key, and the old entry when there is none. *)
Lemma record_steps_lookup md sel steps : ∀ m key,
  record_steps md sel m steps !! key
  = from_option Some (m !! key) (latest md sel key steps).
Proof.
  unfold record_steps, latest.
  induction steps as [|s steps IH]; intros m key; [done|].
  cbn [foldl]. rewrite IH. rewrite filter_cons.
  destruct (decide (s_key s = key ∧ sel s = true)) as [[Hk Hs]|Hno].
  - rewrite Hs, fmap_cons, last_cons.
    destruct (last _); [done|]. simpl. by rewrite <- Hk, lookup_insert_eq.
  - destruct (sel s) eqn:Hs; [|done].
    rewrite lookup_insert_ne; [done|]. intros Hk. by destruct Hno.
Qed.

End AllocateLoop.

(** *** The upsert loops *)

Lemma present_all_Some (entries : list (string * option Ident)) :
  Forall (λ e, is_Some e.2) entries →
  (prod_map id Some <$> present entries) = entries.
Proof.
  unfold present. induction 1 as [|[key v] l [i Hi] _ IH]; [done|].
  simpl in Hi. subst v. simpl. f_equal. exact IH.
Qed.

Lemma elem_of_present (entries : list (string * option Ident)) key i :
  (key, i) ∈ present entries ↔ (key, Some i) ∈ entries.
Proof.
  unfold present. rewrite list_elem_of_omap. split.
  - intros ([k [v|]] & Hin & Heq); simpl in Heq; [|done].
    by injection Heq as -> ->.
  - intros Hin. by exists (key, Some i).
Qed.

Lemma upsertEach_ok recover entries : ∀ w,
  Forall (λ e, is_Some e.2) entries →
  upsertEach recover entries w
  = Done tt (mkWorld (allocator w) (upsert_all (cache w) (present entries))
               (metadata w)
               (trace w ++ upsert_events recover (present entries))).
Proof.
  induction entries as [|[key v] entries IH]; intros w Hall.
  - simpl. by rewrite app_nil_r, world_eta.
  - inversion Hall as [|? ? [i Hi] Hrest]; subst. simpl in Hi. subst v.
    cbn [upsertEach]. unfold bind at 1.
    destruct recover; simpl.
    + unfold bind, callUpsert, deref, ret. simpl.
      rewrite (IH _ Hrest). simpl. by rewrite <- !app_assoc.
    + unfold bind, callUpsert, deref, ret. simpl.
      rewrite (IH _ Hrest). simpl. by rewrite <- !app_assoc.
Qed.

Lemma upsertEach_nil recover entries : ∀ w,
  ¬ Forall (λ e, is_Some e.2) entries →
  upsertEach recover entries w = Panic NilPointerDereference.
Proof.
  induction entries as [|[key [i|]] entries IH]; intros w Hnot.
  - by destruct Hnot.
  - cbn [upsertEach]. unfold bind at 1.
    assert (Hrest : ¬ Forall (λ e : string * option Ident, is_Some e.2) entries).
    { intros Hall. apply Hnot. constructor; [by eexists | done]. }
    destruct recover; simpl; unfold bind, callUpsert, deref, ret; simpl;
      by rewrite IH.
  - cbn [upsertEach]. unfold bind at 1.
    destruct recover; done.
Qed.

(** *** [AllocateCIDRs] *)

Section AllocateCIDRs.
Variable oldNIDs : option (list NumericIdentity).

Lemma AllocateCIDRs_loop prefixes sink w :
  AllocateCIDRs prefixes oldNIDs sink w =
  let upsert := match sink with None => true | Some _ => false end in
  let newly0 := match sink with None => ∅ | Some m => m end in
  match allocateLoop 0 prefixes oldNIDs (mkLoopState [] ∅ newly0)
          (emit EvLock (emit EvMetadataRLock w)) with
  | Done (err, st) w1 =>
    let out :=
      if upsert then None else Some (newlyAllocatedIdentities st) in
    match err with
    | Some e => Done (None, Some e, out) w1
    | None =>
      match (if upsert
             then UpsertGeneratedIdentities (newlyAllocatedIdentities st) []
             else ret tt) (emit EvMetadataRUnlock (emit EvUnlock w1)) with
      | Done _ w2 =>
        Done (Some (snd <$> shuffle range_allocated
                      (map_to_list (allocatedIdentities st))), None, out) w2
      | Panic r => Panic r
      end
    end
  | Panic r => Panic r
  end.
Proof.
  unfold AllocateCIDRs, bind, tell, ret.
  destruct (allocateLoop _ _ _ _ _) as [[[e|] st] w1|r]; done.
Qed.

Lemma UpsertGeneratedIdentities_no_used newly w :
  UpsertGeneratedIdentities newly [] w
  = upsertEach false (shuffle range_newly (map_to_list newly)) w.
Proof.
  unfold UpsertGeneratedIdentities, bind, ret. simpl.
  by destruct (upsertEach _ _ _) as [[] ?|].
Qed.

(** The call on a batch whose allocations all succeed. *)
Lemma AllocateCIDRs_completes prefixes sink w steps a' :
  Completes (metadata w) oldNIDs (allocator w) 0 prefixes steps a' →
  AllocateCIDRs prefixes oldNIDs sink w =
  let md := metadata w in
  let returned :=
    snd <$> shuffle range_allocated
              (map_to_list (allocated_after md ∅ steps)) in
  let tr := trace w ++ locked_events md oldNIDs steps in
  match sink with
  | Some m =>
    Done (Some returned, None, Some (newly_after md m steps))
         (mkWorld a' (cache w) md tr)
  | None =>
    let entries :=
      shuffle range_newly (map_to_list (newly_after md ∅ steps)) in
    if decide (Forall (λ e, is_Some e.2) entries) then
      Done (Some returned, None, None)
           (mkWorld a' (upsert_all (cache w) (present entries)) md
                    (tr ++ upsert_events false (present entries)))
    else Panic NilPointerDereference
  end.
Proof.
  intros [Hpl Hrun]. rewrite AllocateCIDRs_loop. cbn zeta.
  rewrite (allocateLoop_ok oldNIDs prefixes 0 _ _ steps a'); [|done..].
  cbn [emit metadata cache trace allocator].
  rewrite newly_foldl, allocated_foldl. cbn [newlyAllocatedIdentities
    allocatedIdentities].
  unfold locked_events. destruct sink as [m|].
  - unfold ret. by norm_world.
  - rewrite UpsertGeneratedIdentities_no_used. case_decide as Hall.
    + rewrite upsertEach_ok by done. by norm_world.
    + by rewrite upsertEach_nil.
Qed.

(** The call on a batch one of whose allocations fails. *)
Lemma AllocateCIDRs_fails pre p post sink w steps a_k a_f raw isNew e0 :
  FailsAt (metadata w) oldNIDs (allocator w) 0 pre p steps a_k a_f
          raw isNew e0 →
  AllocateCIDRs (pre ++ Some p :: post) oldNIDs sink w =
  let md := metadata w in
  let released := ReleaseSlice a_f (s_id md <$> steps) in
  Done (None, Some (allocate_error p e0),
        (λ m, newly_after md m steps) <$> sink)
       (mkWorld released.1 (cache w) md
          (trace w ++ rollback_events md oldNIDs steps pre p
                        (raw, isNew, Some e0) released.2)).
Proof.
  intros (Hpl & Hrun & Hfail). rewrite AllocateCIDRs_loop. cbn zeta.
  rewrite (allocateLoop_err oldNIDs pre p post 0 _ _ steps a_k a_f raw isNew e0);
    [|done..].
  cbv zeta iota beta. rewrite newly_foldl, usedIdentities_foldl.
  cbn [newlyAllocatedIdentities usedIdentities app].
  unfold rollback_events. norm_world. by destruct sink.
Qed.

(** The call on a batch one of whose allocations yields a nil identity
    that [allocate] writes to. *)
Lemma AllocateCIDRs_faults pre p post sink w steps a_k a_f isNew :
  FaultsAt (metadata w) oldNIDs (allocator w) 0 pre p steps a_k a_f isNew →
  AllocateCIDRs (pre ++ Some p :: post) oldNIDs sink w
  = Panic NilPointerDereference.
Proof.
  intros (Hpl & Hrun & Hcall & Hworld). rewrite AllocateCIDRs_loop. cbn zeta.
  by rewrite (allocateLoop_nil oldNIDs pre p post 0 _ _ steps a_k a_f isNew).
Qed.

End AllocateCIDRs.

(** *** Inverting a call of [AllocateCIDRs] that returned no error *)

Lemma AllocateCIDRs_inv_ok prefixes oldNIDs sink w ids out w' :
  AllocateCIDRs prefixes oldNIDs sink w = Done (ids, None, out) w' →
  ∃ steps a',
    Completes (metadata w) oldNIDs (allocator w) 0 prefixes steps a'.
Proof.
  intros Hcall.
  destruct (alloc_cases oldNIDs (metadata w) prefixes (allocator w) 0) as
    [(steps & a' & Hok)
    |[(pre & q & post & steps & a_k & a_f & raw & isNew & e0 & -> & Hf)
     |(pre & q & post & steps & a_k & a_f & isNew & -> & Hf)]].
  - eauto.
  - by rewrite (AllocateCIDRs_fails _ _ _ _ _ _ _ _ _ _ _ _ Hf) in Hcall.
  - by rewrite (AllocateCIDRs_faults _ _ _ _ _ _ _ _ _ _ Hf) in Hcall.
Qed.

Lemma latest_None md sel key steps :
  latest md sel key steps = None
  ↔ ∀ s, s ∈ steps → s_key s = key → sel s = false.
Proof.
  unfold latest. rewrite last_None. split.
  - intros Hnil%fmap_nil_inv s Hin Hkey.
    destruct (sel s) eqn:Hsel; [|done].
    by destruct (filter_nil_not_elem_of _ _ s Hnil).
  - intros Hall.
    destruct (filter _ steps) as [|s l] eqn:Hfilter; [done|].
    assert (Hin : s ∈ filter (λ s, s_key s = key ∧ sel s = true) steps).
    { rewrite Hfilter. left. }
    apply list_elem_of_filter in Hin as [[Hkey Hsel] Hin].
    by rewrite (Hall s Hin Hkey) in Hsel.
Qed.

(** The keys of the entries of a map, in any iteration order, are distinct,
    and the entries are those of the map. *)
Lemma shuffle_NoDup (order : RangeOrder (option Ident)) (m : IdentMap) :
  NoDup (shuffle order (map_to_list m)).*1.
Proof.
  rewrite (shuffle_perm order). apply NoDup_fst_map_to_list.
Qed.

Lemma shuffle_elem_of (order : RangeOrder (option Ident)) (m : IdentMap) key v :
  (key, v) ∈ shuffle order (map_to_list m) ↔ m !! key = Some v.
Proof. rewrite (shuffle_perm order). apply elem_of_map_to_list. Qed.

Lemma present_fst (entries : list (string * option Ident)) :
  Forall (λ e, is_Some e.2) entries → (present entries).*1 = entries.*1.
Proof.
  intros Hall. rewrite <- (present_all_Some entries Hall) at 2.
  rewrite <- list_fmap_compose. by apply list_fmap_ext.
Qed.

Lemma no_upsert_in_locked md oldNIDs steps prefix id :
  EvUpsert prefix id ∉ locked_events md oldNIDs steps.
Proof.
  unfold locked_events.
  rewrite !elem_of_app, list_elem_of_fmap, !elem_of_cons, elem_of_nil.
  intros [Hin|[(s & Hs & _)|Hin]]; [|done|];
    repeat destruct Hin as [Hin|Hin]; done.
Qed.

Lemma no_delete_in_locked md oldNIDs steps prefix src :
  EvDelete prefix src ∉ locked_events md oldNIDs steps.
Proof.
  unfold locked_events.
  rewrite !elem_of_app, list_elem_of_fmap, !elem_of_cons, elem_of_nil.
  intros [Hin|[(s & Hs & _)|Hin]]; [|done|];
    repeat destruct Hin as [Hin|Hin]; done.
Qed.

(** *** Nil entries and the previous-ID hints *)

Lemma nonNil_app l1 l2 : ∀ i,
  nonNil i (l1 ++ l2) = nonNil i l1 ++ nonNil (i + length l1) l2.
Proof.
  induction l1 as [|[p|] l1 IH]; intros i; simpl.
  - by rewrite Nat.add_0_r.
  - by rewrite IH, Nat.add_succ_comm.
  - by rewrite IH, Nat.add_succ_comm.
Qed.

Lemma nonNil_bounds prefixes : ∀ i i' p,
  (i', p) ∈ nonNil i prefixes → i ≤ i' < i + length prefixes.
Proof.
  induction prefixes as [|[q|] rest IH]; intros i i' p Hin; simpl in *.
  - by apply elem_of_nil in Hin.
  - apply elem_of_cons in Hin as [[= -> ->]|Hin]; [lia|].
    apply IH in Hin. lia.
  - apply IH in Hin. lia.
Qed.

Lemma nonNil_replicate n : ∀ i, nonNil i (replicate n None) = [].
Proof. induction n as [|n IH]; intros i; [done|]. simpl. apply IH. Qed.

(** The loop reads [oldNIDs] only through the hints of the non-nil
    entries. *)
Lemma allocateLoop_ext prefixes : ∀ i h1 h2 st w,
  (∀ i' p, (i', p) ∈ nonNil i prefixes → hint h2 i' = hint h1 i') →
  allocateLoop i prefixes h1 st w = allocateLoop i prefixes h2 st w.
Proof.
  induction prefixes as [|[p|] rest IH]; intros i h1 h2 st w Hh; [done|..].
  - rewrite !allocateLoop_Some.
    rewrite (Hh i p) by (simpl; left).
    destruct (allocate _ _ _ w) as [[[id isNew] [e|]] w1|r]; [done| |done].
    apply IH. intros i' q Hin. apply (Hh i' q). simpl. by right.
  - simpl. apply IH. intros i' q Hin. by apply (Hh i' q).
Qed.

(** The loop on a batch is the loop on its non-nil entries, given the
    hints of their indices. *)
Lemma allocateLoop_compact prefixes : ∀ i j h1 h2 st w,
  (∀ k i' p, nonNil i prefixes !! k = Some (i', p) →
             hint h2 (j + k) = hint h1 i') →
  allocateLoop i prefixes h1 st w
  = allocateLoop j (Some <$> (nonNil i prefixes).*2) h2 st w.
Proof.
  induction prefixes as [|[p|] rest IH]; intros i j h1 h2 st w Hh; [done|..].
  - cbn [nonNil fmap list_fmap]. rewrite !allocateLoop_Some.
    rewrite <- (Hh 0 i p), Nat.add_0_r by done.
    destruct (allocate _ _ _ w) as [[[id isNew] [e|]] w1|r]; [done| |done].
    apply IH. intros k i' q Hk. rewrite <- (Hh (S k) i' q) by done.
    f_equal. lia.
  - simpl. apply IH. intros k i' q Hk. by apply (Hh k i' q).
Qed.

Lemma hint_Some_fmap oldNIDs (l : list nat) k i :
  l !! k = Some i → hint (Some (hint oldNIDs <$> l)) k = hint oldNIDs i.
Proof. intros Hk. unfold hint at 1. by rewrite list_lookup_fmap, Hk. Qed.

Lemma AllocateCIDRs_ext prefixes h1 h2 sink w :
  (∀ i p, (i, p) ∈ nonNil 0 prefixes → hint h2 i = hint h1 i) →
  AllocateCIDRs prefixes h1 sink w = AllocateCIDRs prefixes h2 sink w.
Proof.
  intros Hh. rewrite !AllocateCIDRs_loop. cbn zeta.
  by rewrite (allocateLoop_ext prefixes 0 h1 h2).
Qed.

Lemma AllocateCIDRs_compact prefixes oldNIDs sink w :
  AllocateCIDRs prefixes oldNIDs sink w
  = AllocateCIDRs (Some <$> (nonNil 0 prefixes).*2)
      (Some (hint oldNIDs <$> (nonNil 0 prefixes).*1)) sink w.
Proof.
  rewrite !AllocateCIDRs_loop. cbn zeta.
  rewrite (allocateLoop_compact prefixes 0 0 oldNIDs
             (Some (hint oldNIDs <$> (nonNil 0 prefixes).*1))); [done|].
  intros k i p Hk. apply hint_Some_fmap. cbn [Nat.add].
  by rewrite list_lookup_fmap, Hk.
Qed.

Lemma shuffle_empty (order : RangeOrder (option Ident)) :
  shuffle order (map_to_list (∅ : IdentMap)) = [].
Proof.
  apply Permutation_nil_r. rewrite (shuffle_perm order).
  by rewrite map_to_list_empty.
Qed.

Lemma AllocateCIDRs_all_nil n oldNIDs sink w :
  AllocateCIDRs (replicate n None) oldNIDs sink w
  = Done (Some [], None, sink)
      (mkWorld (allocator w) (cache w) (metadata w)
         (trace w ++ [EvMetadataRLock; EvLock; EvUnlock; EvMetadataRUnlock])).
Proof.
  rewrite (AllocateCIDRs_completes oldNIDs _ sink w [] (allocator w)).
  - cbv zeta. unfold allocated_after, newly_after, record_steps, locked_events.
    cbn [foldl fmap list_fmap app]. rewrite !shuffle_empty.
    destruct sink; [done|]. case_decide as Hall; [|by destruct Hall].
    cbn [present omap list_omap upsert_all upsert_events foldl mbind
         list_bind fmap list_fmap].
    by rewrite app_nil_r.
  - split; [by rewrite nonNil_replicate | constructor].
Qed.

Lemma alloc_calls_app l1 l2 :
  alloc_calls (l1 ++ l2) = alloc_calls l1 ++ alloc_calls l2.
Proof. apply omap_app. Qed.

Lemma alloc_calls_steps md oldNIDs steps :
  alloc_calls (s_event md oldNIDs <$> steps)
  = (λ ip, (labelsOf md ip.2, hint oldNIDs ip.1)) <$> (s_place <$> steps).
Proof.
  unfold alloc_calls. induction steps as [|s steps IH]; [done|].
  simpl. f_equal. exact IH.
Qed.

Lemma alloc_calls_upserts recover entries :
  alloc_calls (upsert_events recover entries) = [].
Proof.
  unfold alloc_calls, upsert_events.
  induction entries as [|e entries IH]; [done|].
  cbn [mbind list_bind]. rewrite omap_app, IH. by destruct recover.
Qed.

(** ** Properties of [AllocateCIDRs] *)

(** C1.  Rollback: when the allocations of the non-nil prefixes of [pre]
    succeed and the allocation of the next prefix [p] fails with [e0],
    [AllocateCIDRs] returns the nil slice together with that error (wrapped
    by [allocate]); the identities allocated for [pre], and only they, are
    handed to [ReleaseSlice], whose own error [released.2] does not reach
    the caller; the cache is the one the call started with, and the trace of
    the call holds no upsert. *)
Theorem AllocateCIDRs_rollback
    pre p post oldNIDs sink w steps a_k a_f raw isNew e0 :
  FailsAt (metadata w) oldNIDs (allocator w) 0 pre p steps a_k a_f
          raw isNew e0 →
  let md := metadata w in
  let used := s_id md <$> steps in
  let released := ReleaseSlice a_f used in
  let events :=
    rollback_events md oldNIDs steps pre p (raw, isNew, Some e0) released.2 in
  AllocateCIDRs (pre ++ Some p :: post) oldNIDs sink w
  = Done (None, Some (allocate_error p e0),
          (λ m, newly_after md m steps) <$> sink)
         (mkWorld released.1 (cache w) md (trace w ++ events))
  ∧ s_place <$> steps = nonNil 0 pre
  ∧ EvReleaseSlice used released.2 ∈ events
  ∧ (∀ prefix id, EvUpsert prefix id ∉ events).
Proof.
  intros Hfail md used released events. split_and!.
  - by apply (AllocateCIDRs_fails oldNIDs pre p post sink w steps a_k).
  - by destruct Hfail.
  - unfold events, rollback_events.
    rewrite !elem_of_app, !elem_of_cons. tauto.
  - intros prefix id. unfold events, rollback_events.
    rewrite !elem_of_app, list_elem_of_fmap, !elem_of_cons, elem_of_nil.
    intros [Hin|[(s & Hs & _)|Hin]]; [|done|];
      repeat destruct Hin as [Hin|Hin]; done.
Qed.

(** C2.  A call without output map that returns no error has made the
    allocations [steps], one per non-nil prefix.  After the unlocks it
    upserts the entries [upserted], each tagged [Generated] (see
    [upsert_events]) and each under a prefix string of its own: a prefix
    string is upserted exactly when some allocation for it reported
    [isNew], with the identity of the latest such allocation, so a prefix
    all of whose allocations were reuses is not upserted.  The returned
    slice has one identity per distinct prefix string, the one of the
    latest allocation for it. *)
Theorem AllocateCIDRs_upserts_new prefixes oldNIDs w ids out w' :
  AllocateCIDRs prefixes oldNIDs None w = Done (ids, None, out) w' →
  let md := metadata w in
  ∃ steps (upserted : list (string * Ident))
      (returned : list (string * option Ident)),
    Completes md oldNIDs (allocator w) 0 prefixes steps (allocator w') ∧
    trace w' = trace w ++ locked_events md oldNIDs steps
                       ++ upsert_events false upserted ∧
    cache w' = upsert_all (cache w) upserted ∧
    NoDup upserted.*1 ∧
    (∀ key id,
       (key, id) ∈ upserted ↔ latest md s_isNew key steps = Some (Some id)) ∧
    (∀ key,
       (∀ s, s ∈ steps → s_key s = key → s_isNew s = false) →
       key ∉ upserted.*1) ∧
    ids = Some returned.*2 ∧ out = None ∧
    NoDup returned.*1 ∧
    (∀ key v,
       (key, v) ∈ returned ↔ latest md (λ _, true) key steps = Some v).
Proof.
  intros Hcall md.
  destruct (AllocateCIDRs_inv_ok _ _ _ _ _ _ _ Hcall) as (steps & a' & Hok).
  rewrite (AllocateCIDRs_completes _ _ _ _ _ _ Hok) in Hcall.
  cbv zeta iota beta in Hcall. fold md in Hcall.
  case_decide as Hall; [|done]. injection Hcall as <- <- <-.
  set (entries := shuffle range_newly (map_to_list (newly_after md ∅ steps)))
    in *.
  assert (Hup : ∀ key id,
    (key, id) ∈ present entries ↔ latest md s_isNew key steps = Some (Some id)).
  { intros key id. rewrite elem_of_present. unfold entries.
    rewrite shuffle_elem_of. unfold newly_after.
    rewrite record_steps_lookup, lookup_empty.
    by destruct (latest _ _ _ _). }
  exists steps, (present entries),
    (shuffle range_allocated (map_to_list (allocated_after md ∅ steps))).
  cbn [allocator cache trace]. split_and!; try done.
  - by rewrite app_assoc.
  - rewrite present_fst by done. apply shuffle_NoDup.
  - intros key Hreused. rewrite list_elem_of_fmap.
    intros ([key' id] & -> & Hin). apply Hup in Hin.
    apply (latest_None md) in Hreused. simpl in Hreused.
    by rewrite Hreused in Hin.
  - apply shuffle_NoDup.
  - intros key v. rewrite shuffle_elem_of. unfold allocated_after.
    rewrite record_steps_lookup, lookup_empty.
    by destruct (latest _ _ _ _).
Qed.

(** C3.  A call with an output map [m] that returns no error has made the
    allocations [steps], one per non-nil prefix, and nothing else: its trace
    holds the lock events and the allocator calls, no upsert and no delete,
    and the cache is the one it started with.  The caller's map holds, under
    each prefix string, the identity of the latest allocation for it that
    reported [isNew], and what it held before when there is none. *)
Theorem AllocateCIDRs_output_map prefixes oldNIDs m w ids out w' :
  AllocateCIDRs prefixes oldNIDs (Some m) w = Done (ids, None, out) w' →
  let md := metadata w in
  ∃ steps m',
    Completes md oldNIDs (allocator w) 0 prefixes steps (allocator w') ∧
    trace w' = trace w ++ locked_events md oldNIDs steps ∧
    (∀ prefix id, EvUpsert prefix id ∉ locked_events md oldNIDs steps) ∧
    (∀ prefix src, EvDelete prefix src ∉ locked_events md oldNIDs steps) ∧
    cache w' = cache w ∧
    out = Some m' ∧
    (∀ key,
       m' !! key = from_option Some (m !! key) (latest md s_isNew key steps)).
Proof.
  intros Hcall md.
  destruct (AllocateCIDRs_inv_ok _ _ _ _ _ _ _ Hcall) as (steps & a' & Hok).
  rewrite (AllocateCIDRs_completes _ _ _ _ _ _ Hok) in Hcall.
  cbv zeta iota beta in Hcall. fold md in Hcall.
  injection Hcall as <- <- <-.
  exists steps, (newly_after md m steps).
  cbn [allocator cache trace]. split_and!; try done.
  - apply no_upsert_in_locked.
  - apply no_delete_in_locked.
  - intros key. apply record_steps_lookup.
Qed.

(** C6.  Nil entries are skipped.  The call on a batch is the call on the
    batch without its nil entries, each remaining prefix keeping the hint of
    the index it had; a batch of nil entries only (the empty batch
    included) returns an empty, non-nil slice and no error, calls neither
    the allocator nor the cache, and leaves the caller's map alone; and an
    error that the call returns is the failure of the allocation of a
    non-nil entry. *)
Theorem AllocateCIDRs_skips_nil prefixes oldNIDs sink w :
  AllocateCIDRs prefixes oldNIDs sink w
  = AllocateCIDRs (Some <$> (nonNil 0 prefixes).*2)
      (Some (hint oldNIDs <$> (nonNil 0 prefixes).*1)) sink w
  ∧ (∀ n,
       AllocateCIDRs (replicate n None) oldNIDs sink w
       = Done (Some [], None, sink)
           (mkWorld (allocator w) (cache w) (metadata w)
              (trace w ++ [EvMetadataRLock; EvLock;
                           EvUnlock; EvMetadataRUnlock])))
  ∧ (∀ ids e out w',
       AllocateCIDRs prefixes oldNIDs sink w = Done (ids, Some e, out) w' →
       ∃ pre p post e0,
         prefixes = pre ++ Some p :: post ∧ e = allocate_error p e0).
Proof.
  split_and!.
  - apply AllocateCIDRs_compact.
  - intros n. apply AllocateCIDRs_all_nil.
  - intros ids e out w' Hcall.
    destruct (alloc_cases oldNIDs (metadata w) prefixes (allocator w) 0) as
      [(steps & a' & Hok)
      |[(pre & q & post & steps & a_k & a_f & raw & isNew & e0 & -> & Hf)
       |(pre & q & post & steps & a_k & a_f & isNew & -> & Hf)]].
    + rewrite (AllocateCIDRs_completes _ _ _ _ _ _ Hok) in Hcall.
      cbv zeta in Hcall. destruct sink; [done|]. by case_decide.
    + rewrite (AllocateCIDRs_fails _ _ _ _ _ _ _ _ _ _ _ _ Hf) in Hcall.
      cbv zeta in Hcall. injection Hcall as _ <- _ _. by exists pre, q, post, e0.
    + by rewrite (AllocateCIDRs_faults _ _ _ _ _ _ _ _ _ _ Hf) in Hcall.
Qed.

(** C10.  [oldNIDs] is never read out of bounds, whatever its length: the
    call never panics on an index; it is the call with the slice of the
    length of the batch whose entry [i] is [hint oldNIDs i], that is
    [oldNIDs[i]] where [oldNIDs] has an index [i] and [InvalidIdentity]
    elsewhere; and in a call that returns, the calls to [AllocateIdentity]
    are those of the non-nil prefixes in order (all of them when no error is
    returned), the one for the prefix of index [i] carrying
    [hint oldNIDs i]. *)
Theorem AllocateCIDRs_oldNIDs_in_bounds prefixes oldNIDs sink w :
  AllocateCIDRs prefixes oldNIDs sink w ≠ Panic IndexOutOfRange
  ∧ AllocateCIDRs prefixes oldNIDs sink w
    = AllocateCIDRs prefixes
        (Some (hint oldNIDs <$> seq 0 (length prefixes))) sink w
  ∧ match AllocateCIDRs prefixes oldNIDs sink w with
    | Done (ids, err, out) w' =>
      ∃ places,
        places `prefix_of` nonNil 0 prefixes ∧
        (err = None → places = nonNil 0 prefixes) ∧
        alloc_calls (drop (length (trace w)) (trace w'))
        = (λ ip, (labelsOf (metadata w) ip.2, hint oldNIDs ip.1)) <$> places
    | Panic r => r = NilPointerDereference
    end
  ∧ (∀ nids i x, nids !! i = Some x → hint (Some nids) i = x)
  ∧ (∀ nids i, length nids ≤ i → hint (Some nids) i = InvalidIdentity)
  ∧ (∀ i, hint None i = InvalidIdentity).
Proof.
  assert (Hcalls :
    match AllocateCIDRs prefixes oldNIDs sink w with
    | Done (ids, err, out) w' =>
      ∃ places,
        places `prefix_of` nonNil 0 prefixes ∧
        (err = None → places = nonNil 0 prefixes) ∧
        alloc_calls (drop (length (trace w)) (trace w'))
        = (λ ip, (labelsOf (metadata w) ip.2, hint oldNIDs ip.1)) <$> places
    | Panic r => r = NilPointerDereference
    end).
  { destruct (alloc_cases oldNIDs (metadata w) prefixes (allocator w) 0) as
      [(steps & a' & Hok)
      |[(pre & q & post & steps & a_k & a_f & raw & isNew & e0 & -> & Hf)
       |(pre & q & post & steps & a_k & a_f & isNew & -> & Hf)]].
    - rewrite (AllocateCIDRs_completes _ _ _ _ _ _ Hok). cbv zeta.
      destruct Hok as [Hpl _].
      assert (Hlocked : alloc_calls (locked_events (metadata w) oldNIDs steps)
        = (λ ip, (labelsOf (metadata w) ip.2, hint oldNIDs ip.1))
            <$> nonNil 0 prefixes).
      { unfold locked_events.
        by rewrite !alloc_calls_app, alloc_calls_steps, Hpl, app_nil_r. }
      destruct sink as [m|]; [|case_decide; [|done]].
      + exists (nonNil 0 prefixes). cbn [trace].
        by rewrite drop_app_length.
      + exists (nonNil 0 prefixes). cbn [trace].
        rewrite <- app_assoc, drop_app_length, alloc_calls_app.
        by rewrite alloc_calls_upserts, app_nil_r.
    - rewrite (AllocateCIDRs_fails _ _ _ _ _ _ _ _ _ _ _ _ Hf). cbv zeta.
      destruct Hf as (Hpl & _ & _).
      exists (nonNil 0 pre ++ [(length pre, q)]). split_and!; [|done|].
      + rewrite nonNil_app. apply prefix_app, prefix_cons, prefix_nil.
      + cbn [trace]. rewrite drop_app_length. unfold rollback_events.
        rewrite !alloc_calls_app, alloc_calls_steps, Hpl, fmap_app.
        done.
    - by rewrite (AllocateCIDRs_faults _ _ _ _ _ _ _ _ _ _ Hf). }
  split_and!.
  - intros Hpanic. by rewrite Hpanic in Hcalls.
  - apply AllocateCIDRs_ext. intros i p Hin%nonNil_bounds.
    apply hint_Some_fmap, lookup_seq. lia.
  - exact Hcalls.
  - intros nids i x Hx. unfold hint. by rewrite Hx.
  - intros nids i Hi. unfold hint. by rewrite lookup_ge_None_2.
  - done.
Qed.

(** ** [UpsertGeneratedIdentities] *)

Lemma upsert_warnings_cons id used :
  upsert_warnings (id :: used)
  = match prefixOf id with
    | None => [non_cidr_warning id]
    | Some _ => []
    end ++ upsert_warnings used.
Proof. unfold upsert_warnings. simpl. by destruct (prefixOf id). Qed.

Lemma collectMissing_ok used : ∀ m w,
  collectMissing (Some <$> used) m w
  = Done (missing (cache w) used m)
      (mkWorld (allocator w) (cache w) (metadata w)
         (trace w ++ upsert_warnings used)).
Proof.
  induction used as [|id used IH]; intros m w.
  - simpl. by rewrite app_nil_r, world_eta.
  - cbn [fmap list_fmap collectMissing]. unfold bind at 1, deref, ret.
    rewrite upsert_warnings_cons.
    change (missing (cache w) (id :: used) m) with
      (missing (cache w) used
         match prefixOf id with
         | Some prefix =>
           match LookupByIPRLocked (cache w) prefix with
           | Some _ => m
           | None => <[prefix := Some id]> m
           end
         | None => m
         end).
    unfold prefixOf.
    destruct (cidrLabelToPrefix _) as [prefix [|]].
    + unfold bind, get.
      destruct (LookupByIPRLocked (cache w) prefix); rewrite IH; done.
    + unfold bind, tell. rewrite IH. by norm_world.
Qed.

Lemma missing_lookup c used : ∀ m key,
  missing c used m !! key
  = match LookupByIPRLocked c key with
    | Some _ => m !! key
    | None =>
      from_option (λ id, Some (Some id)) (m !! key) (last (used_for key used))
    end.
Proof.
  unfold missing, used_for.
  induction used as [|id used IH]; intros m key.
  - simpl. by destruct (LookupByIPRLocked c key).
  - cbn [foldl]. rewrite IH, filter_cons.
    destruct (prefixOf id) as [prefix|] eqn:Hp.
    + destruct (decide (Some prefix = Some key)) as [[= ->]|Hne].
      * rewrite last_cons.
        destruct (LookupByIPRLocked c key); [done|].
        rewrite lookup_insert_eq. by destruct (last _).
      * destruct (LookupByIPRLocked c prefix);
          [done | rewrite lookup_insert_ne by congruence; done].
    + by rewrite decide_False.
Qed.

Lemma recoveries_app l1 l2 :
  recoveries (l1 ++ l2) = recoveries l1 + recoveries l2.
Proof. unfold recoveries. by rewrite filter_app, length_app. Qed.

Lemma recoveries_upserts recover entries :
  recoveries (upsert_events recover entries)
  = if recover then length entries else 0.
Proof.
  unfold upsert_events.
  induction entries as [|e entries IH]; [by destruct recover|].
  cbn [mbind list_bind]. rewrite recoveries_app, IH.
  by destruct recover.
Qed.

Lemma recoveries_warnings used : recoveries (upsert_warnings used) = 0.
Proof.
  unfold upsert_warnings.
  induction used as [|id used IH]; [done|].
  cbn [omap list_omap]. by destruct (prefixOf id).
Qed.

Lemma entries_fmap_Some (m : gmap string Ident) :
  Forall (λ e, is_Some e.2) (shuffle range_newly (map_to_list (Some <$> m))).
Proof.
  apply Forall_forall. intros [key v] Hin%shuffle_elem_of.
  rewrite lookup_fmap in Hin. destruct (m !! key); [|done].
  injection Hin as <-. by eexists.
Qed.

Lemma entries_missing c used key v :
  (key, v) ∈ shuffle range_toUpsert (map_to_list (missing c used ∅))
  ↔ LookupByIPRLocked c key = None
    ∧ ∃ id, v = Some id ∧ last (used_for key used) = Some id.
Proof.
  rewrite shuffle_elem_of, missing_lookup, lookup_empty.
  destruct (LookupByIPRLocked c key).
  { split; [done | by intros [? _]]. }
  destruct (last _) as [id|]; simpl; split.
  - intros [= <-]. eauto.
  - by intros (_ & id' & -> & [= ->]).
  - done.
  - by intros (_ & id' & _ & ?).
Qed.

Lemma entries_missing_Some c used :
  Forall (λ e, is_Some e.2)
         (shuffle range_toUpsert (map_to_list (missing c used ∅))).
Proof.
  apply Forall_forall. intros [key v] (_ & id & -> & _)%entries_missing.
  by eexists.
Qed.

Lemma no_delete_in_upserts recover entries prefix src :
  EvDelete prefix src ∉ upsert_events recover entries.
Proof.
  unfold upsert_events. rewrite list_elem_of_bind.
  intros (e & Hin & _). destruct recover;
    repeat (apply elem_of_cons in Hin as [Hin|Hin]; [done|]);
    by apply elem_of_nil in Hin.
Qed.

Lemma no_delete_in_warnings used prefix src :
  EvDelete prefix src ∉ upsert_warnings used.
Proof.
  unfold upsert_warnings. rewrite list_elem_of_omap.
  intros (id & _ & Hev). by destruct (prefixOf id).
Qed.

(** The call on a map and a slice that hold no nil pointer. *)
Lemma UpsertGeneratedIdentities_run (newMap : gmap string Ident)
    (used : list Ident) w :
  UpsertGeneratedIdentities (Some <$> newMap) (Some <$> used) w =
  let new := present (shuffle range_newly (map_to_list (Some <$> newMap))) in
  let c1 := upsert_all (cache w) new in
  let recovered :=
    present (shuffle range_toUpsert (map_to_list (missing c1 used ∅))) in
  Done tt
    (mkWorld (allocator w) (upsert_all c1 recovered) (metadata w)
       (trace w ++ upsert_events false new ++
        if decide (used = []) then []
        else [EvMutexRLock] ++ upsert_warnings used ++ [EvMutexRUnlock]
             ++ upsert_events true recovered)).
Proof.
  unfold UpsertGeneratedIdentities. unfold bind at 1.
  rewrite upsertEach_ok by apply entries_fmap_Some. cbv zeta.
  destruct used as [|id used].
  - simpl. unfold ret. unfold missing. simpl. rewrite shuffle_empty.
    by rewrite app_nil_r.
  - rewrite decide_False by done. rewrite (decide_False (P := _ = [])) by done.
    unfold bind at 1, tell. unfold bind at 1.
    rewrite collectMissing_ok. unfold bind at 1, tell.
    rewrite upsertEach_ok by apply entries_missing_Some.
    by norm_world.
Qed.

(** ** Properties of [UpsertGeneratedIdentities] *)

(** C5.  On a map [newMap] and a slice [used] without nil pointers the call
    returns and leaves the trace [events]: an upsert tagged [Generated] for
    every entry of [newMap] and no other ([new]); then, when [used] is not
    empty, a warning for every used identity whose CIDR label yields no
    prefix, and the upserts [recovered], each preceded by one increment of
    the recovery counter.  A prefix is recovered exactly when the cache,
    as the upserts of [newMap] left it, has no entry for it and some used
    identity carries it, the latest of these being upserted; no prefix is
    recovered twice, the counter is bumped once per recovered prefix, and
    the call deletes nothing: the final cache is the initial one after the
    upserts of [new] and [recovered]. *)
Theorem UpsertGeneratedIdentities_widens (newMap : gmap string Ident)
    (used : list Ident) w :
  let new := present (shuffle range_newly (map_to_list (Some <$> newMap))) in
  let c1 := upsert_all (cache w) new in
  let recovered :=
    present (shuffle range_toUpsert (map_to_list (missing c1 used ∅))) in
  let events :=
    upsert_events false new ++
    if decide (used = []) then []
    else [EvMutexRLock] ++ upsert_warnings used ++ [EvMutexRUnlock]
         ++ upsert_events true recovered in
  UpsertGeneratedIdentities (Some <$> newMap) (Some <$> used) w
  = Done tt (mkWorld (allocator w) (upsert_all c1 recovered) (metadata w)
               (trace w ++ events))
  ∧ NoDup new.*1
  ∧ (∀ key id, (key, id) ∈ new ↔ newMap !! key = Some id)
  ∧ (∀ id, id ∈ used → prefixOf id = None → non_cidr_warning id ∈ events)
  ∧ NoDup recovered.*1
  ∧ (∀ key id,
       (key, id) ∈ recovered
       ↔ LookupByIPRLocked c1 key = None ∧ last (used_for key used) = Some id)
  ∧ recoveries events = length recovered
  ∧ (∀ prefix src, EvDelete prefix src ∉ events).
Proof.
  intros new c1 recovered events. split_and!.
  - apply UpsertGeneratedIdentities_run.
  - unfold new. rewrite present_fst by apply entries_fmap_Some.
    apply shuffle_NoDup.
  - intros key id. unfold new.
    rewrite elem_of_present, shuffle_elem_of, lookup_fmap.
    destruct (newMap !! key); simpl; split; congruence.
  - intros id Hin Hp. unfold events.
    rewrite decide_False by (intros ->; by apply elem_of_nil in Hin).
    rewrite !elem_of_app. right; right; left.
    unfold upsert_warnings. rewrite list_elem_of_omap.
    exists id. by rewrite Hp.
  - unfold recovered. rewrite present_fst by apply entries_missing_Some.
    apply shuffle_NoDup.
  - intros key id. unfold recovered.
    rewrite elem_of_present, entries_missing. split.
    + by intros (Hc & id' & [= <-] & Hlast).
    + intros [Hc Hlast]. eauto.
  - unfold events. rewrite recoveries_app, recoveries_upserts.
    case_decide as Hused.
    + unfold recovered. subst used. unfold missing. simpl.
      by rewrite shuffle_empty.
    + rewrite !recoveries_app, recoveries_upserts, recoveries_warnings.
      done.
  - intros prefix src. unfold events. rewrite elem_of_app.
    intros [Hin%no_delete_in_upserts|Hin]; [done|].
    case_decide; [by apply elem_of_nil in Hin|].
    rewrite !elem_of_app, !elem_of_cons, !elem_of_nil in Hin.
    destruct Hin as [[|[]]|[Hin%no_delete_in_warnings
                            |[[|[]]|Hin%no_delete_in_upserts]]]; done.
Qed.

(** ** [releaseCIDRIdentities] *)

Lemma release_all_length prefixes : ∀ a,
  length (release_all a prefixes).2 = length prefixes.
Proof. induction prefixes as [|p rest IH]; intros a; simpl; [done|]. by rewrite IH. Qed.

Lemma release_all_app l1 l2 a :
  release_all a (l1 ++ l2)
  = ((release_all (release_all a l1).1 l2).1,
     (release_all a l1).2 ++ (release_all (release_all a l1).1 l2).2).
Proof.
  revert a. induction l1 as [|p l1 IH]; intros a; simpl.
  - by destruct (release_all a l2).
  - by rewrite IH.
Qed.

(** Each prefix meets its outcome in the state the prefixes before it
    left. *)
Lemma release_all_lookup prefixes a i prefix :
  prefixes !! i = Some prefix →
  (release_all a prefixes).2 !! i
  = Some (release_one (release_all a (take i prefixes)).1 prefix).2.
Proof.
  intros Hi.
  rewrite <- (take_drop_middle prefixes i prefix Hi) at 1.
  rewrite release_all_app. cbn [snd release_all].
  rewrite lookup_app_r; rewrite release_all_length, length_take_le;
    try (apply lookup_lt_Some in Hi; lia).
  by rewrite Nat.sub_diag.
Qed.

Lemma releaseLoop_run prefixes : ∀ toDelete w,
  releaseLoop prefixes toDelete w =
  let run := release_all (allocator w) prefixes in
  Done (toDelete ++ deleted prefixes run.2)
    (mkWorld run.1 (cache w) (metadata w)
       (trace w ++ batch_events prefixes run.2)).
Proof.
  unfold deleted, batch_events.
  induction prefixes as [|prefix rest IH]; intros toDelete w.
  - simpl. by rewrite !app_nil_r, world_eta.
  - cbn [releaseLoop release_all]. unfold release_one.
    destruct (ParseCIDR prefix) as [err|c].
    { unfold bind, tell. rewrite IH. cbn zeta. by norm_world. }
    unfold bind at 1, get.
    destruct (LookupIdentity (allocator w) (GetCIDRLabels c)) as [id|].
    2:{ unfold bind, tell. rewrite IH. cbn zeta. by norm_world. }
    unfold bind at 1, callRelease.
    destruct (Release (allocator w) id false) as [a1 [released err]].
    unfold bind at 1.
    cbn zeta. cbn [fst snd zip_with mjoin list_join outcome_events].
    rewrite filter_cons. cbn [snd last_reference].
    destruct err as [e|]; unfold tell, ret; rewrite IH; cbn zeta;
      destruct released; simpl; norm_world;
      rewrite <- ?app_assoc; done.
Qed.

Lemma deleteEach_run toDelete : ∀ w,
  deleteEach toDelete w
  = Done tt (mkWorld (allocator w) (delete_all (cache w) toDelete)
               (metadata w) (trace w ++ delete_events toDelete)).
Proof.
  induction toDelete as [|prefix rest IH]; intros w.
  - simpl. by rewrite app_nil_r, world_eta.
  - cbn [deleteEach]. unfold bind, callDeleteLocked. rewrite IH.
    by norm_world.
Qed.

Lemma releaseCIDRIdentities_run prefixes w :
  releaseCIDRIdentities prefixes w =
  let run := release_all (allocator w) prefixes in
  let del := deleted prefixes run.2 in
  Done tt
    (mkWorld run.1 (delete_all (cache w) del) (metadata w)
       (trace w ++ [EvLock] ++ batch_events prefixes run.2
        ++ delete_events del ++ [EvUnlock])).
Proof.
  unfold releaseCIDRIdentities, bind, tell.
  rewrite releaseLoop_run. cbv zeta iota beta. rewrite deleteEach_run.
  by norm_world.
Qed.

Lemma last_reference_true o :
  last_reference o = true ↔ ∃ id err, o = Released id true err.
Proof.
  split.
  - destruct o as [| |id [|] err]; try done. eauto.
  - by intros (id & err & ->).
Qed.

Lemma elem_of_deleted prefixes outcomes prefix :
  prefix ∈ deleted prefixes outcomes
  ↔ ∃ i id err,
      prefixes !! i = Some prefix ∧ outcomes !! i = Some (Released id true err).
Proof.
  unfold deleted. rewrite list_elem_of_fmap. split.
  - intros ([q o] & -> & Hin). apply list_elem_of_filter in Hin as [Hlast Hin].
    apply list_elem_of_lookup in Hin as [i Hi].
    apply lookup_zip_with_Some in Hi as (q' & o' & [= <- <-] & Hq & Ho).
    apply last_reference_true in Hlast as (id & err & Heq).
    simpl in Heq. subst o. by exists i, id, err.
  - intros (i & id & err & Hq & Ho).
    exists (prefix, Released id true err). split; [done|].
    apply list_elem_of_filter. split; [done|].
    apply list_elem_of_lookup. exists i.
    apply lookup_zip_with_Some. eauto.
Qed.

Lemma no_delete_in_batch prefixes : ∀ outcomes prefix src,
  EvDelete prefix src ∉ batch_events prefixes outcomes.
Proof.
  unfold batch_events.
  induction prefixes as [|q rest IH]; intros [|o outcomes] prefix src;
    try (by apply not_elem_of_nil).
  cbn [zip_with mjoin list_join]. rewrite elem_of_app.
  intros [Hin|Hin]; [|by apply IH in Hin].
  destruct o as [err| |id released [e|]]; simpl in Hin;
    repeat (apply elem_of_cons in Hin as [Hin|Hin]; [done|]);
    by apply elem_of_nil in Hin.
Qed.

Lemma elem_of_release_events prefixes outcomes prefix src :
  EvDelete prefix src
    ∈ [EvLock] ++ batch_events prefixes outcomes
      ++ delete_events (deleted prefixes outcomes) ++ [EvUnlock]
  ↔ src = Generated ∧ prefix ∈ deleted prefixes outcomes.
Proof.
  unfold delete_events.
  rewrite !elem_of_app, list_elem_of_fmap, !elem_of_cons, !elem_of_nil.
  split.
  - intros [[|[]]|[Hin%no_delete_in_batch|[(q & [= -> ->] & Hq)|[|[]]]]];
      done.
  - intros [-> Hin]. right; right; left. by exists prefix.
Qed.

(** A store whose deletions leave the other prefixes alone keeps the entry
    of every prefix that is not deleted. *)
Lemma delete_all_frame c prefixes prefix :
  (∀ c q src p, p ≠ q →
     LookupByIPRLocked (deleteLocked c q src) p = LookupByIPRLocked c p) →
  prefix ∉ prefixes →
  LookupByIPRLocked (delete_all c prefixes) prefix
  = LookupByIPRLocked c prefix.
Proof.
  intros Hframe. unfold delete_all.
  revert c. induction prefixes as [|q rest IH]; intros c Hnot; [done|].
  apply not_elem_of_cons in Hnot as [Hne Hnot].
  cbn [foldl]. rewrite IH by done. by apply Hframe.
Qed.

Lemma release_all_step prefixes a i prefix :
  prefixes !! i = Some prefix →
  (release_all a (take (S i) prefixes)).1
  = (release_one (release_all a (take i prefixes)).1 prefix).1.
Proof.
  intros Hi. rewrite (take_S_r _ _ _ Hi), release_all_app. done.
Qed.

Lemma deleted_app l1 l2 o1 o2 :
  length l1 = length o1 →
  deleted (l1 ++ l2) (o1 ++ o2) = deleted l1 o1 ++ deleted l2 o2.
Proof.
  intros Hlen. unfold deleted.
  by rewrite zip_with_app, filter_app, fmap_app.
Qed.

(** A prefix that leaves the allocator as it is and is not a release of a
    last reference can be dropped from the batch: the final allocator state
    and the deletions are the same. *)
Lemma release_all_skip a l1 prefix l2 :
  let a1 := (release_all a l1).1 in
  (release_one a1 prefix).1 = a1 →
  last_reference (release_one a1 prefix).2 = false →
  (release_all a (l1 ++ prefix :: l2)).1 = (release_all a (l1 ++ l2)).1
  ∧ deleted (l1 ++ prefix :: l2) (release_all a (l1 ++ prefix :: l2)).2
    = deleted (l1 ++ l2) (release_all a (l1 ++ l2)).2.
Proof.
  intros a1 Hsame Hlast. rewrite !release_all_app. cbn [fst snd release_all].
  fold a1. rewrite Hsame. split; [done|].
  rewrite !deleted_app by (by rewrite release_all_length).
  f_equal. unfold deleted. cbn [zip zip_with].
  rewrite filter_cons. cbn [snd]. rewrite Hlast. done.
Qed.

(** ** Properties of [releaseCIDRIdentities] *)

(** C4.  The release transaction on a batch returns; with [run.2] the
    outcomes of its prefixes, it calls [deleteLocked] (with the tag
    [Generated]) on a prefix exactly when some occurrence of that prefix in
    the batch had its identity released with the allocator reporting the
    last reference, and the final cache is the initial one after these
    deletions, in batch order.  An outcome [Released id released err] is the
    answer [(released, err)] of [Release] on the identity [id] looked up
    for the prefix.  Over a store whose deletions leave the entries of the
    other prefixes alone, the entry of every prefix with no such release is
    what it was before the call. *)
Theorem releaseCIDRIdentities_deletes_last_reference prefixes w :
  (∀ c q src p, p ≠ q →
     LookupByIPRLocked (deleteLocked c q src) p = LookupByIPRLocked c p) →
  let run := release_all (allocator w) prefixes in
  let state_at i := (release_all (allocator w) (take i prefixes)).1 in
  let events :=
    [EvLock] ++ batch_events prefixes run.2
    ++ delete_events (deleted prefixes run.2) ++ [EvUnlock] in
  let last_ref prefix :=
    ∃ i id err,
      prefixes !! i = Some prefix ∧ run.2 !! i = Some (Released id true err) in
  ∃ w',
    releaseCIDRIdentities prefixes w = Done tt w' ∧
    trace w' = trace w ++ events ∧
    cache w' = delete_all (cache w) (deleted prefixes run.2) ∧
    (∀ prefix, prefix ∈ deleted prefixes run.2 ↔ last_ref prefix) ∧
    (∀ prefix src,
       EvDelete prefix src ∈ events ↔ src = Generated ∧ last_ref prefix) ∧
    (∀ i prefix id released err,
       prefixes !! i = Some prefix →
       run.2 !! i = Some (Released id released err) →
       ∃ c, ParseCIDR prefix = inr c ∧
            LookupIdentity (state_at i) (GetCIDRLabels c) = Some id ∧
            (Release (state_at i) id false).2 = (released, err)) ∧
    (∀ prefix,
       ¬ last_ref prefix →
       LookupByIPRLocked (cache w') prefix
       = LookupByIPRLocked (cache w) prefix).
Proof.
  intros Hframe run state_at events last_ref.
  eexists. split; [apply releaseCIDRIdentities_run|].
  cbv zeta. cbn [trace cache]. fold run. split_and!; try done.
  - intros prefix. apply elem_of_deleted.
  - intros prefix src. unfold events.
    rewrite elem_of_release_events. by rewrite elem_of_deleted.
  - intros i prefix id released err Hi Ho. unfold run in Ho.
    rewrite (release_all_lookup _ _ _ _ Hi) in Ho. fold (state_at i) in Ho.
    unfold release_one in Ho.
    destruct (ParseCIDR prefix) as [e|c]; [done|].
    destruct (LookupIdentity (state_at i) (GetCIDRLabels c))
      as [id'|] eqn:Hlookup; [|done].
    injection Ho as -> <- <-. exists c. split_and!; [done..|].
    by destruct (Release _ _ _) as [a [r e]].
  - intros prefix Hnot. apply delete_all_frame; [done|].
    by rewrite elem_of_deleted.
Qed.

(** C7.  The release transaction on a batch returns, without a result to
    propagate.  Every prefix of the batch meets its outcome
    ([release_one]) in the allocator state the prefixes before it left,
    whatever their outcomes were; a prefix that does not parse, or whose
    identity is not found, leaves that state as it is and one error line in
    the log, and the batch without it ends with the same allocator and the
    same cache; an allocator error on [Release] leaves one warning after the
    call, which counts like any other. *)
Theorem releaseCIDRIdentities_continues prefixes w :
  let run := release_all (allocator w) prefixes in
  let state_at i := (release_all (allocator w) (take i prefixes)).1 in
  ∃ w',
    releaseCIDRIdentities prefixes w = Done tt w' ∧
    trace w' = trace w ++ [EvLock] ++ batch_events prefixes run.2
                 ++ delete_events (deleted prefixes run.2) ++ [EvUnlock] ∧
    allocator w' = run.1 ∧
    length run.2 = length prefixes ∧
    (∀ i prefix,
       prefixes !! i = Some prefix →
       run.2 !! i = Some (release_one (state_at i) prefix).2 ∧
       state_at (S i) = (release_one (state_at i) prefix).1) ∧
    (∀ a prefix err,
       ParseCIDR prefix = inl err →
       release_one a prefix = (a, Unparsable err) ∧
       outcome_events prefix (Unparsable err)
       = [EvLog LvlError [FCIDRNet None; FError err]
                "Unable to parse CIDR during ipcache release"]) ∧
    (∀ a prefix c,
       ParseCIDR prefix = inr c →
       LookupIdentity a (GetCIDRLabels c) = None →
       release_one a prefix = (a, NotFound) ∧
       outcome_events prefix NotFound
       = [EvLog LvlError [FCIDR prefix]
                "Unable to find identity of previously used CIDR"]) ∧
    (∀ a prefix c id a' released e,
       ParseCIDR prefix = inr c →
       LookupIdentity a (GetCIDRLabels c) = Some id →
       Release a id false = (a', (released, Some e)) →
       release_one a prefix = (a', Released id released (Some e)) ∧
       outcome_events prefix (Released id released (Some e))
       = [EvRelease id (released, Some e);
          EvLog LvlWarning [FIdentity id; FCIDR prefix; FError e]
                "Unable to release CIDR identity. Ignoring error. Identity may be leaked"]) ∧
    (∀ l1 prefix l2,
       prefixes = l1 ++ prefix :: l2 →
       (∃ err, ParseCIDR prefix = inl err)
       ∨ (∃ c, ParseCIDR prefix = inr c ∧
               LookupIdentity (state_at (length l1)) (GetCIDRLabels c)
               = None) →
       ∃ w'',
         releaseCIDRIdentities (l1 ++ l2) w = Done tt w'' ∧
         allocator w'' = allocator w' ∧ cache w'' = cache w').
Proof.
  intros run state_at.
  eexists. split; [apply releaseCIDRIdentities_run|].
  cbv zeta. cbn [trace allocator cache]. fold run. split_and!; try done.
  - apply release_all_length.
  - intros i prefix Hi. split.
    + by apply release_all_lookup.
    + by apply release_all_step.
  - intros a prefix err Hparse. unfold release_one. by rewrite Hparse.
  - intros a prefix c Hparse Hlookup. unfold release_one.
    by rewrite Hparse, Hlookup.
  - intros a prefix c id a' released e Hparse Hlookup Hrel.
    unfold release_one. by rewrite Hparse, Hlookup, Hrel.
  - intros l1 prefix l2 -> Hskip.
    eexists. split; [apply releaseCIDRIdentities_run|].
    cbv zeta. cbn [allocator cache]. unfold run.
    assert (Hat : state_at (length l1) = (release_all (allocator w) l1).1).
    { unfold state_at. by rewrite take_app_length. }
    rewrite Hat in Hskip.
    destruct (release_all_skip (allocator w) l1 prefix l2) as [-> ->];
      [..|done]; unfold release_one;
      destruct Hskip as [[err ->]|(c & -> & ->)]; done.
Qed.

(** The transaction is one critical section: the trace it adds starts
    with the lock and ends with the unlock, and holds no other lock event. *)
Lemma releaseCIDRIdentities_critical_section prefixes w :
  ∃ w' body,
    releaseCIDRIdentities prefixes w = Done tt w' ∧
    trace w' = trace w ++ ([EvLock] ++ body ++ [EvUnlock]) ∧
    (EvLock ∉ body) ∧ (EvUnlock ∉ body).
Proof.
  set (outcomes := (release_all (allocator w) prefixes).2).
  eexists.
  exists (batch_events prefixes outcomes
          ++ delete_events (deleted prefixes outcomes)).
  split; [apply releaseCIDRIdentities_run|].
  cbv zeta. cbn [trace]. rewrite <- !app_assoc. split; [done|].
  assert (Hbatch : ∀ e, (e = EvLock ∨ e = EvUnlock) →
            ∀ l os, e ∉ batch_events l os).
  { intros e He. unfold batch_events.
    induction l as [|q rest IH]; intros [|o os];
      try (by apply not_elem_of_nil).
    cbn [zip_with mjoin list_join]. rewrite elem_of_app.
    intros [Hin|Hin]; [|by apply IH in Hin].
    destruct o as [err| |id released [e'|]]; simpl in Hin;
      repeat (apply elem_of_cons in Hin as [->|Hin]; [by destruct He|]);
      by apply elem_of_nil in Hin. }
  unfold delete_events.
  split; rewrite elem_of_app, list_elem_of_fmap;
    (intros [Hin|(q & ? & _)]; [|done]);
    (eapply Hbatch; [|exact Hin]); auto.
Qed.

(** ** [cidrLabelToPrefix] *)

Lemma append_cons a p s : String a p +:+ s = String a (p +:+ s).
Proof. reflexivity. Qed.

Lemma append_assoc (a b c : string) : (a +:+ b) +:+ c = a +:+ (b +:+ c).
Proof.
  induction a as [|x a IH]; [done|]. rewrite !append_cons. by rewrite IH.
Qed.

Lemma HasPrefix_app p s : HasPrefix (p +:+ s) p = true.
Proof.
  unfold HasPrefix. induction p as [|a p IH].
  - by destruct s.
  - rewrite append_cons. cbn [String.prefix].
    destruct (Ascii.ascii_dec a a); [exact IH | done].
Qed.

Lemma substring_full s : String.substring 0 (String.length s) s = s.
Proof. induction s as [|a s IH]; [done|]. simpl. by rewrite IH. Qed.

Lemma TrimPrefix_app p s : TrimPrefix (p +:+ s) p = s.
Proof.
  unfold TrimPrefix. rewrite HasPrefix_app.
  induction p as [|a p IH].
  - change ("" +:+ s) with s. simpl. rewrite Nat.sub_0_r.
    apply substring_full.
  - rewrite append_cons. simpl. exact IH.
Qed.

(** X2.  Round trip with the label of [allocate]: from the label that
    [allocate] builds for a prefix string, the source name, a colon and the
    string, [cidrLabelToPrefix] gives the string back, whatever the string
    holds (colons of an IPv6 prefix included). *)
Lemma cidrLabelToPrefix_model prefix :
  cidrLabelToPrefix (LabelSourceCIDR +:+ ":" +:+ prefix) = (prefix, true).
Proof.
  unfold cidrLabelToPrefix. rewrite HasPrefix_app. simpl.
  by rewrite <- append_assoc, TrimPrefix_app.
Qed.

(** A label from another source gives no prefix. *)
Lemma cidrLabelToPrefix_other label :
  HasPrefix label LabelSourceCIDR = false →
  cidrLabelToPrefix label = ("", false).
Proof. unfold cidrLabelToPrefix. by intros ->. Qed.

(** ** [ReleaseCIDRIdentitiesByID] *)

Lemma prefixOf_Some id prefix :
  prefixOf id = Some prefix
  ↔ cidrLabelToPrefix (Labels_String (CIDRLabel id)) = (prefix, true).
Proof.
  unfold prefixOf. destruct (cidrLabelToPrefix _) as [q [|]]; split; congruence.
Qed.

Lemma prefixOf_None id :
  prefixOf id = None
  ↔ (cidrLabelToPrefix (Labels_String (CIDRLabel id))).2 = false.
Proof.
  unfold prefixOf. by destruct (cidrLabelToPrefix _) as [q [|]].
Qed.

Lemma resolveLoop_run identities : ∀ prefixes w,
  resolveLoop identities prefixes w
  = Done (prefixes ++ omap (resolve (allocator w)) identities)
      (mkWorld (allocator w) (cache w) (metadata w)
         (trace w ++ (identities ≫= resolve_warning (allocator w)))).
Proof.
  induction identities as [|nid rest IH]; intros prefixes w.
  - simpl. by rewrite !app_nil_r, world_eta.
  - cbn [resolveLoop omap list_omap mbind list_bind]. unfold bind at 1, get.
    unfold resolve at 1, resolve_warning at 1.
    destruct (LookupIdentityByID (allocator w) nid) as [id|]; simpl.
    + unfold prefixOf. destruct (cidrLabelToPrefix _) as [prefix [|]].
      * rewrite IH. by rewrite <- app_assoc.
      * unfold bind, tell. rewrite IH. by norm_world.
    + unfold bind, tell. rewrite IH. by norm_world.
Qed.

(** ** Properties of [ReleaseCIDRIdentitiesByID] *)

(** C8.  The call returns, with the allocator and the cache as they were;
    it leaves in the trace one warning per numeric identity that does not
    resolve and then the one [enqueue], of the prefixes of the identities
    that do, in their order.  A prefix is enqueued exactly when some
    identity of the list is found by the allocator and
    [cidrLabelToPrefix] gives that prefix for its CIDR label; an identity
    that is not found, or whose label gives no prefix, gets its warning,
    and the list without it enqueues the same prefixes. *)
Theorem ReleaseCIDRIdentitiesByID_resolves identities w :
  let a := allocator w in
  let enqueued := omap (resolve a) identities in
  let warnings := identities ≫= resolve_warning a in
  ReleaseCIDRIdentitiesByID identities w
  = Done tt (mkWorld a (cache w) (metadata w)
               (trace w ++ warnings
                ++ [EvEnqueue enqueued "selector-prefix-release"]))
  ∧ (∀ prefix,
       prefix ∈ enqueued
       ↔ ∃ nid id,
           nid ∈ identities ∧ LookupIdentityByID a nid = Some id ∧
           cidrLabelToPrefix (Labels_String (CIDRLabel id)) = (prefix, true))
  ∧ (∀ nid,
       nid ∈ identities → LookupIdentityByID a nid = None →
       EvLog LvlWarning [FIdentityID nid]
         "Unexpected release of numeric identity that is no longer allocated"
       ∈ warnings)
  ∧ (∀ nid id,
       nid ∈ identities → LookupIdentityByID a nid = Some id →
       (cidrLabelToPrefix (Labels_String (CIDRLabel id))).2 = false →
       EvLog LvlWarning [FIdentityID nid; FLabels (Labels_ id)]
         "Unexpected release of non-CIDR identity, will leak this identity. Please report this issue to the developers."
       ∈ warnings)
  ∧ (∀ l1 nid l2,
       identities = l1 ++ nid :: l2 → resolve a nid = None →
       enqueued = omap (resolve a) (l1 ++ l2))
  ∧ (∀ e, e ∈ warnings → ∃ fields msg, e = EvLog LvlWarning fields msg).
Proof.
  intros a enqueued warnings. split_and!.
  - unfold ReleaseCIDRIdentitiesByID, bind, tell. rewrite resolveLoop_run.
    by norm_world.
  - intros prefix. unfold enqueued. rewrite list_elem_of_omap. split.
    + intros (nid & Hin & Hres). unfold resolve in Hres.
      destruct (LookupIdentityByID a nid) as [id|] eqn:Hid; [|done].
      simpl in Hres. apply prefixOf_Some in Hres. eauto.
    + intros (nid & id & Hin & Hid & Hp). exists nid. split; [done|].
      unfold resolve. rewrite Hid. simpl. by apply prefixOf_Some.
  - intros nid Hin Hid. unfold warnings. rewrite list_elem_of_bind.
    exists nid. split; [|done]. unfold resolve_warning. rewrite Hid. left.
  - intros nid id Hin Hid Hp. unfold warnings. rewrite list_elem_of_bind.
    exists nid. split; [|done]. unfold resolve_warning. rewrite Hid.
    apply prefixOf_None in Hp. rewrite Hp. left.
  - intros l1 nid l2 -> Hres. unfold enqueued.
    rewrite !omap_app. cbn [omap list_omap]. by rewrite Hres.
  - intros e. unfold warnings. rewrite list_elem_of_bind.
    intros (nid & He & _). unfold resolve_warning in He.
    destruct (LookupIdentityByID a nid) as [id|].
    + destruct (prefixOf id); [by apply elem_of_nil in He|].
      apply list_elem_of_singleton in He. eauto.
    + apply list_elem_of_singleton in He. eauto.
Qed.

(** ** Further properties of the coordinator *)

(** *** [cidrLabelToPrefix] and the labels that [allocate] builds *)

Lemma HasPrefix_inv p : ∀ s,
  HasPrefix s p = true → s = p +:+ TrimPrefix s p.
Proof.
  unfold TrimPrefix. intros s H. rewrite H. revert s H. unfold HasPrefix.
  induction p as [|a p IH]; intros s H.
  - change ("" +:+ ?x) with x. simpl. rewrite Nat.sub_0_r.
    by rewrite substring_full.
  - destruct s as [|b s]; [done|]. cbn [String.prefix] in H.
    destruct (Ascii.ascii_dec a b) as [->|]; [|done].
    rewrite append_cons. simpl. f_equal. by apply IH.
Qed.

(** X1.  What [cidrLabelToPrefix] returns, for every label.  The label is
    accepted exactly when it starts with the source name [LabelSourceCIDR];
    a refused label yields the empty string.  From an accepted label that
    starts with the source name and a colon, the result is what follows the
    colon; an accepted label without the colon there is returned whole. *)
Theorem cidrLabelToPrefix_result label :
  match cidrLabelToPrefix label with
  | (prefix, true) =>
    HasPrefix label LabelSourceCIDR = true ∧
    if HasPrefix label (LabelSourceCIDR +:+ ":")
    then label = LabelSourceCIDR +:+ ":" +:+ prefix
    else prefix = label
  | (prefix, false) =>
    HasPrefix label LabelSourceCIDR = false ∧ prefix = ""
  end.
Proof.
  unfold cidrLabelToPrefix.
  destruct (HasPrefix label LabelSourceCIDR) eqn:Hsrc; [|done].
  cbn [negb]. split; [done|].
  destruct (HasPrefix label (LabelSourceCIDR +:+ ":")) eqn:Hcolon.
  - rewrite <- append_assoc. by apply HasPrefix_inv.
  - unfold TrimPrefix. by rewrite Hcolon.
Qed.


Lemma latest_Some_elem md sel key steps v :
  latest md sel key steps = Some v →
  ∃ s, s ∈ steps ∧ s_key s = key ∧ sel s = true ∧ v = s_id md s.
Proof.
  unfold latest. intros Hin%last_Some_elem_of.
  apply list_elem_of_fmap in Hin as (s & -> & Hs).
  apply list_elem_of_filter in Hs as [[Hkey Hsel] Hs]. eauto.
Qed.


Lemma elem_of_nonNil prefixes p : ∀ i,
  Some p ∈ prefixes ↔ ∃ i', (i', p) ∈ nonNil i prefixes.
Proof.
  induction prefixes as [|[q|] rest IH]; intros i; cbn [nonNil].
  - split; [by intros ?%elem_of_nil | by intros [? ?%elem_of_nil]].
  - rewrite elem_of_cons, (IH (S i)). split.
    + intros [[= ->]|[i' Hin]]; [exists i; left | exists i'; by right].
    + intros [i' [[= -> ->]|Hin]%elem_of_cons]; [by left | right; eauto].
  - rewrite elem_of_cons, (IH (S i)). split; [|by right].
    by intros [|].
Qed.

(** The identities a call returns are those of the latest allocation of
    each prefix string. *)
Lemma AllocateCIDRs_returned prefixes oldNIDs sink w ids out w' :
  AllocateCIDRs prefixes oldNIDs sink w = Done (ids, None, out) w' →
  ∃ steps a',
    Completes (metadata w) oldNIDs (allocator w) 0 prefixes steps a' ∧
    ids = Some (snd <$> shuffle range_allocated
                  (map_to_list (allocated_after (metadata w) ∅ steps))) ∧
    w' = mkWorld a' (cache w') (metadata w) (trace w') ∧
    added w w'
    = locked_events (metadata w) oldNIDs steps
      ++ match sink with
         | Some _ => []
         | None =>
           upsert_events false
             (present (shuffle range_newly
                (map_to_list (newly_after (metadata w) ∅ steps))))
         end.
Proof.
  intros Hcall. unfold added.
  destruct (AllocateCIDRs_inv_ok _ _ _ _ _ _ _ Hcall) as (steps & a' & Hok).
  rewrite (AllocateCIDRs_completes _ _ _ _ _ _ Hok) in Hcall.
  cbv zeta iota beta in Hcall. exists steps, a'. split; [done|].
  destruct sink as [m|].
  - injection Hcall as <- _ <-. cbn [trace cache metadata].
    by rewrite drop_app_length, app_nil_r.
  - case_decide; [|done]. injection Hcall as <- _ <-.
    cbn [trace cache metadata]. by rewrite <- app_assoc, drop_app_length.
Qed.





(** *** Nil pointers in [UpsertGeneratedIdentities] *)

Lemma collectMissing_nil used : ∀ m w,
  None ∈ used → collectMissing used m w = Panic NilPointerDereference.
Proof.
  induction used as [|[i|] used IH]; intros m w Hin.
  - by apply elem_of_nil in Hin.
  - apply elem_of_cons in Hin as [|Hin]; [done|].
    cbn [collectMissing]. unfold bind at 1, deref, ret.
    destruct (cidrLabelToPrefix _) as [prefix [|]].
    + unfold bind, get. destruct (LookupByIPRLocked _ _); by rewrite IH.
    + unfold bind, tell. by rewrite IH.
  - done.
Qed.

Lemma fmap_Some_omap_id {A} (l : list (option A)) :
  None ∉ l → Some <$> omap id l = l.
Proof.
  induction l as [|[x|] l IH]; intros Hnot; [done|..].
  - apply not_elem_of_cons in Hnot as [_ Hnot]. simpl. f_equal. by apply IH.
  - destruct Hnot. left.
Qed.

Lemma map_fmap_Some_omap_id {A} (m : gmap string (option A)) :
  (∀ key, m !! key ≠ Some None) → Some <$> omap id m = m.
Proof.
  intros Hnot. apply map_eq. intros key.
  rewrite lookup_fmap, lookup_omap.
  destruct (m !! key) as [[x|]|] eqn:Hkey; [done| |done].
  by destruct (Hnot key).
Qed.

(** X4.  [UpsertGeneratedIdentities] dereferences every pointer it is
    given: the call returns exactly when neither the map nor the slice
    holds a nil identity, and panics on the nil dereference otherwise. *)
Theorem UpsertGeneratedIdentities_nil_pointer newMap used w :
  match UpsertGeneratedIdentities newMap used w with
  | Done _ _ => (∀ key, newMap !! key ≠ Some None) ∧ None ∉ used
  | Panic r =>
    r = NilPointerDereference
    ∧ ((∃ key, newMap !! key = Some None) ∨ None ∈ used)
  end.
Proof.
  destruct (decide (Forall (λ e : string * option Ident, is_Some e.2)
                      (shuffle range_newly (map_to_list newMap))))
    as [Hall|Hnil].
  - assert (Hmap : ∀ key, newMap !! key ≠ Some None).
    { intros key Hkey.
      apply (proj2 (shuffle_elem_of range_newly newMap key None)) in Hkey.
      rewrite Forall_forall in Hall. by destruct (Hall _ Hkey). }
    destruct (decide (Forall (λ x : option Ident, is_Some x) used))
      as [Hnot|Hin].
    2:{ apply not_Forall_Exists in Hin; [|apply _].
        apply Exists_exists in Hin as ([i|] & Hin & Hnone);
          [destruct Hnone; by eexists|].
        unfold UpsertGeneratedIdentities. unfold bind at 1.
        rewrite upsertEach_ok by done.
        rewrite decide_False
          by (destruct used; [by apply elem_of_nil in Hin|done]).
        unfold bind at 1, tell. unfold bind at 1.
        rewrite collectMissing_nil by done. auto. }
    assert (Hused : None ∉ used).
    { intros Hin. rewrite Forall_forall in Hnot.
      by destruct (Hnot _ Hin). }
    clear Hnot. rename Hused into Hnot.
    pose proof (UpsertGeneratedIdentities_run (omap id newMap)
                  (omap id used) w) as Hrun.
    cbv zeta in Hrun.
    rewrite map_fmap_Some_omap_id, fmap_Some_omap_id in Hrun by done.
    rewrite Hrun. exact (conj Hmap Hnot).
  - unfold UpsertGeneratedIdentities. unfold bind at 1.
    rewrite upsertEach_nil by done. split; [done|]. left.
    apply not_Forall_Exists in Hnil; [|apply _].
    apply Exists_exists in Hnil as ([key [i|]] & Hin & Hnone).
    + destruct Hnone. by eexists.
    + exists key. by apply shuffle_elem_of in Hin.
Qed.

(** *** The output map of a call that fails *)

(** X5.  The rollback of [AllocateCIDRs] does not reach the caller's map.
    When the allocations of the non-nil prefixes of [pre] succeed and that
    of the next prefix fails, a call with an output map [m] returns the
    error with the map as the allocations before the failure left it: under
    each prefix string the identity of the latest allocation that reported
    [isNew], which the same call has handed to [ReleaseSlice]. *)
Theorem AllocateCIDRs_failure_keeps_output_map
    pre p post oldNIDs m w steps a_k a_f raw isNew e0 :
  FailsAt (metadata w) oldNIDs (allocator w) 0 pre p steps a_k a_f
          raw isNew e0 →
  ∃ m' w' released err,
    AllocateCIDRs (pre ++ Some p :: post) oldNIDs (Some m) w
    = Done (None, Some (allocate_error p e0), Some m') w' ∧
    (∀ key,
       m' !! key
       = from_option Some (m !! key)
           (latest (metadata w) s_isNew key steps)) ∧
    EvReleaseSlice released err ∈ added w w' ∧
    (∀ s, s ∈ steps → s_isNew s = true →
       ∃ v, m' !! s_key s = Some v ∧ v ∈ released).
Proof.
  intros Hfail.
  rewrite (AllocateCIDRs_fails _ _ _ _ _ _ _ _ _ _ _ _ Hfail). cbv zeta.
  eexists _, _, (s_id (metadata w) <$> steps), _.
  split; [reflexivity|]. unfold added. cbn [trace].
  rewrite drop_app_length. split_and!.
  - intros key. apply record_steps_lookup.
  - unfold rollback_events. rewrite !elem_of_app, !elem_of_cons. tauto.
  - intros s Hs Hnew. unfold newly_after. rewrite record_steps_lookup.
    destruct (latest (metadata w) s_isNew (s_key s) steps) as [v|] eqn:Hl.
    + exists v. split; [done|].
      apply latest_Some_elem in Hl as (s' & Hs' & _ & _ & ->).
      apply list_elem_of_fmap. eauto.
    + pose proof (proj1 (latest_None _ _ _ _) Hl s Hs eq_refl) as Hold.
      simpl in Hold. by rewrite Hold in Hnew.
Qed.

(** *** The locks of [AllocateCIDRs] *)

Lemma Forall_upsert_events_new entries :
  Forall (λ e, is_upsert e = true) (upsert_events false entries).
Proof.
  unfold upsert_events. apply Forall_bind, Forall_forall. intros e _.
  by repeat constructor.
Qed.

(** X6.  Lock discipline of [AllocateCIDRs].  Every call that returns,
    with or without an error, has taken the read lock of the metadata and
    then the lock of the cache, released them in the reverse order, and
    called the allocator (and nothing else) in between; whatever it does
    after the unlocks is an upsert, and there is none on the error path or
    when the caller passed a map. *)
Theorem AllocateCIDRs_lock_discipline prefixes oldNIDs sink w :
  match AllocateCIDRs prefixes oldNIDs sink w with
  | Done (ids, err, out) w' =>
    ∃ body tail,
      trace w' = trace w ++ [EvMetadataRLock; EvLock] ++ body
                   ++ [EvUnlock; EvMetadataRUnlock] ++ tail ∧
      Forall (λ e, is_allocation e = true) body ∧
      Forall (λ e, is_upsert e = true) tail ∧
      (tail ≠ [] → err = None ∧ sink = None)
  | Panic _ => True
  end.
Proof.
  destruct (alloc_cases oldNIDs (metadata w) prefixes (allocator w) 0) as
    [(steps & a' & Hok)
    |[(pre & q & post & steps & a_k & a_f & raw & isNew & e0 & -> & Hf)
     |(pre & q & post & steps & a_k & a_f & isNew & -> & Hf)]].
  - rewrite (AllocateCIDRs_completes _ _ _ _ _ _ Hok). cbv zeta.
    assert (Hbody : Forall (λ e, is_allocation e = true)
                      (s_event (metadata w) oldNIDs <$> steps)).
    { apply Forall_fmap, Forall_forall. by intros s _. }
    destruct sink as [m|]; [|case_decide; [|done]].
    + exists (s_event (metadata w) oldNIDs <$> steps), [].
      cbn [trace]. unfold locked_events. split_and!; try done.
    + exists (s_event (metadata w) oldNIDs <$> steps),
        (upsert_events false
           (present (shuffle range_newly
              (map_to_list (newly_after (metadata w) ∅ steps))))).
      cbn [trace]. unfold locked_events. split_and!; [|done| |done].
      * by rewrite <- !app_assoc.
      * apply Forall_upsert_events_new.
  - rewrite (AllocateCIDRs_fails _ _ _ _ _ _ _ _ _ _ _ _ Hf). cbv zeta.
    set (released := ReleaseSlice a_f (s_id (metadata w) <$> steps)).
    exists ((s_event (metadata w) oldNIDs <$> steps)
            ++ [EvAllocateIdentity (labelsOf (metadata w) q)
                  (hint oldNIDs (length pre)) (raw, isNew, Some e0);
                EvReleaseSlice (s_id (metadata w) <$> steps) released.2]), [].
    cbn [trace]. unfold rollback_events. split_and!; try done.
    + by rewrite <- !app_assoc.
    + apply Forall_app. split.
      * apply Forall_fmap, Forall_forall. by intros s _.
      * by repeat constructor.
  - by rewrite (AllocateCIDRs_faults _ _ _ _ _ _ _ _ _ _ Hf).
Qed.

(** *** How many identities a call returns *)

Lemma remove_dups_length {A} `{EqDecision A} (l : list A) :
  length (remove_dups l) ≤ length l.
Proof.
  induction l as [|x l IH]; [done|]. cbn [remove_dups].
  case_decide; simpl; lia.
Qed.

Lemma nonNil_length prefixes : ∀ i, length (nonNil i prefixes) ≤ length prefixes.
Proof.
  induction prefixes as [|[p|] rest IH]; intros i; simpl; [done|..].
  - specialize (IH (S i)). lia.
  - specialize (IH (S i)). lia.
Qed.

Lemma allocated_after_keys md steps :
  (map_to_list (allocated_after md ∅ steps)).*1
  ≡ₚ remove_dups (s_key <$> steps).
Proof.
  apply NoDup_Permutation.
  - apply NoDup_fst_map_to_list.
  - apply NoDup_remove_dups.
  - intros key. rewrite elem_of_remove_dups, list_elem_of_fmap. split.
    + intros ([k v] & -> & Hin). apply elem_of_map_to_list in Hin.
      unfold allocated_after in Hin.
      rewrite record_steps_lookup, lookup_empty in Hin.
      destruct (latest md (λ _, true) k steps) as [x|] eqn:Hl; [|done].
      apply latest_Some_elem in Hl as (s & Hs & Hkey & _).
      apply list_elem_of_fmap. eauto.
    + intros (s & -> & Hs)%list_elem_of_fmap.
      destruct (latest md (λ _, true) (s_key s) steps) as [x|] eqn:Hl.
      * exists (s_key s, x). split; [done|]. apply elem_of_map_to_list.
        unfold allocated_after.
        by rewrite record_steps_lookup, lookup_empty, Hl.
      * by specialize (proj1 (latest_None _ _ _ _) Hl s Hs eq_refl).
Qed.

(** X7.  How many identities [AllocateCIDRs] returns.  A call that returns
    no error has called [AllocateIdentity] once per non-nil prefix of the
    batch, and returns one identity per distinct prefix string: a prefix
    listed twice is allocated twice and returned once. *)
Theorem AllocateCIDRs_returns_one_per_prefix_string
    prefixes oldNIDs sink w ids out w' :
  AllocateCIDRs prefixes oldNIDs sink w = Done (ids, None, out) w' →
  let keys := IPNet_String <$> (nonNil 0 prefixes).*2 in
  ∃ l,
    ids = Some l ∧
    length l = length (remove_dups keys) ∧
    length (alloc_calls (added w w')) = length keys ∧
    length l ≤ length keys ∧ length keys ≤ length prefixes.
Proof.
  intros Hcall keys.
  destruct (AllocateCIDRs_returned _ _ _ _ _ _ _ Hcall)
    as (steps & a' & [Hpl Hrun] & -> & _ & ->).
  assert (Hkeys : keys = s_key <$> steps).
  { unfold keys. rewrite <- Hpl, <- !list_fmap_compose. done. }
  assert (Hlen : length (snd <$> shuffle range_allocated
                   (map_to_list (allocated_after (metadata w) ∅ steps)))
                 = length (remove_dups keys)).
  { rewrite length_fmap, (shuffle_perm range_allocated).
    rewrite <- (length_fmap fst), allocated_after_keys. by rewrite Hkeys. }
  eexists. split; [done|]. split_and!.
  - exact Hlen.
  - unfold locked_events.
    rewrite !alloc_calls_app, alloc_calls_steps, app_nil_r. cbn [app].
    replace (alloc_calls match sink with
                         | Some _ => []
                         | None => _
                         end) with (@nil (Labels * NumericIdentity))
      by (destruct sink; [done | by rewrite alloc_calls_upserts]).
    rewrite app_nil_r, Hkeys, length_app, !length_fmap. done.
  - rewrite Hlen. apply remove_dups_length.
  - unfold keys. rewrite !length_fmap. apply nonNil_length.
Qed.

(** *** Batches of [releaseCIDRIdentities] *)

(** X8.  Cutting a batch in two.  Releasing [l1 ++ l2] in one transaction
    leaves the allocator and the cache as releasing [l1] and then [l2] in
    two transactions does: the deletions of a batch wait for the end of
    its releases, but no release looks at the cache. *)
Theorem releaseCIDRIdentities_batch_split l1 l2 w :
  ∃ w1 w2 w12,
    releaseCIDRIdentities l1 w = Done tt w1 ∧
    releaseCIDRIdentities l2 w1 = Done tt w2 ∧
    releaseCIDRIdentities (l1 ++ l2) w = Done tt w12 ∧
    allocator w12 = allocator w2 ∧
    cache w12 = cache w2 ∧
    metadata w12 = metadata w2.
Proof.
  eexists _, _, _.
  split_and!; [apply releaseCIDRIdentities_run.. | | |].
  - cbv zeta. cbn [allocator]. by rewrite release_all_app.
  - cbv zeta. cbn [allocator cache]. rewrite release_all_app.
    cbn [fst snd]. rewrite deleted_app by (by rewrite release_all_length).
    unfold delete_all. by rewrite foldl_app.
  - done.
Qed.

Lemma batch_events_cons prefix prefixes o outcomes :
  batch_events (prefix :: prefixes) (o :: outcomes)
  = outcome_events prefix o ++ batch_events prefixes outcomes.
Proof. done. Qed.

Lemma deleted_cons prefix prefixes o outcomes :
  deleted (prefix :: prefixes) (o :: outcomes)
  = (if last_reference o then [prefix] else []) ++ deleted prefixes outcomes.
Proof.
  unfold deleted. cbn [zip zip_with]. rewrite filter_cons. cbn [snd].
  by destruct (last_reference o).
Qed.

Lemma batch_events_kinds prefixes : ∀ outcomes,
  Forall (λ e, is_release e = true ∨ is_log e = true)
         (batch_events prefixes outcomes).
Proof.
  induction prefixes as [|prefix rest IH]; intros [|o outcomes];
    try by constructor.
  rewrite batch_events_cons. apply Forall_app. split; [|apply IH].
  destruct o as [err| |id released [e|]]; cbn [outcome_events];
    repeat (apply Forall_cons; split; [auto|]); constructor.
Qed.

Lemma batch_events_count prefixes : ∀ outcomes,
  length (deleted prefixes outcomes)
  ≤ length (filter (λ e, is_release e = true)
                   (batch_events prefixes outcomes))
  ∧ length (filter (λ e, is_release e = true)
                   (batch_events prefixes outcomes))
    ≤ length prefixes.
Proof.
  induction prefixes as [|prefix rest IH]; intros [|o outcomes];
    try (cbn; lia).
  rewrite batch_events_cons, deleted_cons, filter_app, !length_app.
  destruct (IH outcomes) as [IH1 IH2].
  set (n1 := length (deleted rest outcomes)) in *.
  set (n2 := length (filter _ (batch_events rest outcomes))) in *.
  destruct o as [err| |id [|] [e|]]; cbn [outcome_events last_reference];
    rewrite ?filter_cons, ?filter_nil; repeat case_decide; try done;
    cbn [length]; lia.
Qed.

(** X9.  Order within the release transaction.  Between its lock and its
    unlock the transaction first walks the batch, where it only calls
    [Release] and logs, and then deletes; it calls [Release] at most once
    per prefix and [deleteLocked] at most once per call to [Release]. *)
Theorem releaseCIDRIdentities_releases_then_deletes prefixes w :
  ∃ w' releases deletes,
    releaseCIDRIdentities prefixes w = Done tt w' ∧
    added w w' = [EvLock] ++ releases ++ deletes ++ [EvUnlock] ∧
    Forall (λ e, is_release e = true ∨ is_log e = true) releases ∧
    Forall (λ e, is_delete e = true) deletes ∧
    length deletes ≤ length (filter (λ e, is_release e = true) releases) ∧
    length (filter (λ e, is_release e = true) releases) ≤ length prefixes.
Proof.
  set (outcomes := (release_all (allocator w) prefixes).2).
  exists (mkWorld (release_all (allocator w) prefixes).1
            (delete_all (cache w) (deleted prefixes outcomes)) (metadata w)
            (trace w ++ [EvLock] ++ batch_events prefixes outcomes
             ++ delete_events (deleted prefixes outcomes) ++ [EvUnlock])),
    (batch_events prefixes outcomes),
    (delete_events (deleted prefixes outcomes)).
  split; [apply releaseCIDRIdentities_run|].
  unfold added. cbn [trace]. rewrite drop_app_length.
  split_and!; [done| | | |].
  - apply batch_events_kinds.
  - unfold delete_events. apply Forall_fmap, Forall_forall. by intros q _.
  - unfold delete_events. rewrite length_fmap.
    apply batch_events_count.
  - apply batch_events_count.
Qed.

(** *** [ReleaseCIDRIdentitiesByID]: one decision per identity *)

Lemma resolve_accounts a identities :
  length (identities ≫= resolve_warning a)
  + length (omap (resolve a) identities)
  = length identities.
Proof.
  induction identities as [|nid rest IH]; [done|].
  cbn [mbind list_bind omap list_omap]. rewrite length_app.
  unfold resolve at 1, resolve_warning at 1.
  destruct (LookupIdentityByID a nid) as [id|]; cbn [mbind option_bind].
  - destruct (prefixOf id); cbn [length]; lia.
  - cbn [length]. lia.
Qed.

(** X10.  [ReleaseCIDRIdentitiesByID] settles every numeric identity of
    its list in exactly one way, a warning or a prefix of the enqueued
    batch; it enqueues one batch in all cases, an empty one when no
    identity resolves. *)
Theorem ReleaseCIDRIdentitiesByID_one_decision_each identities w :
  ∃ w' warnings enqueued,
    ReleaseCIDRIdentitiesByID identities w = Done tt w' ∧
    added w w'
    = warnings ++ [EvEnqueue enqueued "selector-prefix-release"] ∧
    Forall (λ e, is_log e = true) warnings ∧
    length warnings + length enqueued = length identities ∧
    ((∀ nid, nid ∈ identities → resolve (allocator w) nid = None) →
     enqueued = []).
Proof.
  exists (mkWorld (allocator w) (cache w) (metadata w)
            (trace w ++ (identities ≫= resolve_warning (allocator w))
             ++ [EvEnqueue (omap (resolve (allocator w)) identities)
                           "selector-prefix-release"])),
    (identities ≫= resolve_warning (allocator w)),
    (omap (resolve (allocator w)) identities).
  split_and!.
  - unfold ReleaseCIDRIdentitiesByID, bind, tell. rewrite resolveLoop_run.
    by norm_world.
  - unfold added. cbn [trace]. by rewrite drop_app_length.
  - apply Forall_bind, Forall_forall. intros nid _.
    unfold compose, resolve_warning.
    destruct (LookupIdentityByID (allocator w) nid) as [id|];
      [destruct (prefixOf id)|];
      repeat (apply Forall_cons; split; [done|]); constructor.
  - apply resolve_accounts.
  - intros Hnone. induction identities as [|nid rest IH]; [done|].
    cbn [omap list_omap]. rewrite (Hnone nid) by left.
    apply IH. intros nid' Hin. apply Hnone. by right.
Qed.

(** *** [AllocateCIDRsForIPs] *)

(** The calls to [AllocateIdentity] of a call of [AllocateCIDRs]. *)
Lemma AllocateCIDRs_alloc_calls prefixes oldNIDs sink w :
  match AllocateCIDRs prefixes oldNIDs sink w with
  | Done (ids, err, out) w' =>
    ∃ places,
      places `prefix_of` nonNil 0 prefixes ∧
      alloc_calls (added w w')
      = (λ ip, (labelsOf (metadata w) ip.2, hint oldNIDs ip.1)) <$> places
  | Panic r => r = NilPointerDereference
  end.
Proof.
  unfold added.
  destruct (alloc_cases oldNIDs (metadata w) prefixes (allocator w) 0) as
    [(steps & a' & Hok)
    |[(pre & q & post & steps & a_k & a_f & raw & isNew & e0 & -> & Hf)
     |(pre & q & post & steps & a_k & a_f & isNew & -> & Hf)]].
  - rewrite (AllocateCIDRs_completes _ _ _ _ _ _ Hok). cbv zeta.
    destruct Hok as [Hpl _].
    assert (Hlocked : alloc_calls (locked_events (metadata w) oldNIDs steps)
      = (λ ip, (labelsOf (metadata w) ip.2, hint oldNIDs ip.1))
          <$> nonNil 0 prefixes).
    { unfold locked_events.
      by rewrite !alloc_calls_app, alloc_calls_steps, Hpl, app_nil_r. }
    destruct sink as [m|]; [|case_decide; [|done]].
    + exists (nonNil 0 prefixes). cbn [trace].
      by rewrite drop_app_length.
    + exists (nonNil 0 prefixes). cbn [trace].
      rewrite <- app_assoc, drop_app_length, alloc_calls_app.
      by rewrite alloc_calls_upserts, app_nil_r.
  - rewrite (AllocateCIDRs_fails _ _ _ _ _ _ _ _ _ _ _ _ Hf). cbv zeta.
    destruct Hf as (Hpl & _ & _).
    exists (nonNil 0 pre ++ [(length pre, q)]). split.
    + rewrite nonNil_app. apply prefix_app, prefix_cons, prefix_nil.
    + cbn [trace]. rewrite drop_app_length. unfold rollback_events.
      rewrite !alloc_calls_app, alloc_calls_steps, Hpl, fmap_app.
      done.
  - by rewrite (AllocateCIDRs_faults _ _ _ _ _ _ _ _ _ _ Hf).
Qed.

(** X11.  [AllocateCIDRsForIPs] allocates without previous numeric
    identities: it is [AllocateCIDRs] on the prefixes of the addresses
    with any slice of [InvalidIdentity] for [oldNIDs], the nil slice
    included, and every call to [AllocateIdentity] that it makes carries
    [InvalidIdentity]. *)
Theorem AllocateCIDRsForIPs_passes_no_hint (ips : list IP) sink w :
  (∀ nids,
     Forall (λ nid, nid = InvalidIdentity) nids →
     AllocateCIDRsForIPs ips sink w
     = AllocateCIDRs (GetCIDRPrefixesFromIPs ips) (Some nids) sink w)
  ∧ match AllocateCIDRsForIPs ips sink w with
    | Done (ids, err, out) w' =>
      Forall (λ c, c.2 = InvalidIdentity) (alloc_calls (added w w'))
    | Panic r => r = NilPointerDereference
    end.
Proof.
  unfold AllocateCIDRsForIPs. split.
  - intros nids Hnids. apply AllocateCIDRs_ext. intros i p _.
    unfold hint. destruct (nids !! i) as [nid|] eqn:Hi; [|done].
    rewrite Forall_forall in Hnids. apply Hnids.
    by apply list_elem_of_lookup_2 in Hi.
  - pose proof (AllocateCIDRs_alloc_calls (GetCIDRPrefixesFromIPs ips)
                  None sink w) as Hcalls.
    destruct (AllocateCIDRs _ _ _ _) as [[[ids err] out] w'|r]; [|done].
    destruct Hcalls as (places & _ & ->).
    apply Forall_fmap, Forall_forall. by intros ip _.
Qed.

(** *** [ReleaseCIDRIdentitiesByCIDR] after [AllocateCIDRs] *)

Lemma upsert_keys_app l1 l2 :
  upsert_keys (l1 ++ l2) = upsert_keys l1 ++ upsert_keys l2.
Proof. apply omap_app. Qed.

Lemma upsert_keys_locked md oldNIDs steps :
  upsert_keys (locked_events md oldNIDs steps) = [].
Proof.
  unfold locked_events. rewrite !upsert_keys_app.
  assert (Hsteps : upsert_keys (s_event md oldNIDs <$> steps) = []).
  { unfold upsert_keys. induction steps as [|s steps IH]; [done|]. exact IH. }
  by rewrite Hsteps.
Qed.

Lemma upsert_keys_upserts recover entries :
  upsert_keys (upsert_events recover entries) = entries.*1.
Proof.
  unfold upsert_events. induction entries as [|e entries IH]; [done|].
  cbn [mbind list_bind]. rewrite upsert_keys_app, IH.
  by destruct recover.
Qed.

Lemma step_key_in_batch prefixes steps s :
  s_place <$> steps = nonNil 0 prefixes → s ∈ steps →
  s_key s ∈ IPNet_ptr_String <$> prefixes.
Proof.
  intros Hpl Hs. apply list_elem_of_fmap. exists (Some (s_prefix s)).
  split; [done|]. apply (elem_of_nonNil _ _ 0). exists (s_index s).
  rewrite <- Hpl. apply list_elem_of_fmap. by exists s.
Qed.

(** X12.  [ReleaseCIDRIdentitiesByCIDR] covers what [AllocateCIDRs]
    created.  After a call of [AllocateCIDRs] on a batch that returned no
    error, [ReleaseCIDRIdentitiesByCIDR] on the same batch enqueues one
    string per entry of the batch, and among them every prefix string that
    the allocation upserted into the cache or, when the caller passed a
    map, wrote or overwrote in that map; it changes neither the allocator
    nor the cache itself. *)
Theorem ReleaseCIDRIdentitiesByCIDR_covers_allocation
    prefixes oldNIDs sink w ids out w1 :
  AllocateCIDRs prefixes oldNIDs sink w = Done (ids, None, out) w1 →
  ∃ enqueued,
    ReleaseCIDRIdentitiesByCIDR prefixes w1
    = Done tt (mkWorld (allocator w1) (cache w1) (metadata w1)
                 (trace w1 ++ [EvEnqueue enqueued "cidr-prefix-release"])) ∧
    length enqueued = length prefixes ∧
    (∀ key, key ∈ upsert_keys (added w w1) → key ∈ enqueued) ∧
    (∀ m0 m key,
       sink = Some m0 → out = Some m → m !! key ≠ m0 !! key →
       key ∈ enqueued).
Proof.
  intros Hcall. exists (IPNet_ptr_String <$> prefixes).
  split_and!; [done | by rewrite length_fmap | |].
  - destruct (AllocateCIDRs_returned _ _ _ _ _ _ _ Hcall)
      as (steps & a' & [Hpl Hrun] & _ & _ & ->).
    rewrite upsert_keys_app, upsert_keys_locked. cbn [app].
    destruct sink as [m0|]; [by intros key ?%elem_of_nil|].
    rewrite upsert_keys_upserts. intros key Hkey.
    apply list_elem_of_fmap in Hkey as ([k id] & -> & Hin).
    apply elem_of_present, shuffle_elem_of in Hin.
    unfold newly_after in Hin.
    rewrite record_steps_lookup, lookup_empty in Hin.
    destruct (latest (metadata w) s_isNew k steps) as [v|] eqn:Hl; [|done].
    apply latest_Some_elem in Hl as (s & Hs & <- & _).
    by apply (step_key_in_batch prefixes steps).
  - intros m0 m key -> -> Hkey.
    destruct (AllocateCIDRs_inv_ok _ _ _ _ _ _ _ Hcall) as (steps & a' & Hok).
    rewrite (AllocateCIDRs_completes _ _ _ _ _ _ Hok) in Hcall.
    cbv zeta iota beta in Hcall. injection Hcall as _ Hm _.
    rewrite <- Hm in Hkey. unfold newly_after in Hkey.
    rewrite record_steps_lookup in Hkey.
    destruct (latest (metadata w) s_isNew key steps) as [v|] eqn:Hl; [|done].
    apply latest_Some_elem in Hl as (s & Hs & <- & _).
    destruct Hok as [Hpl _]. by apply (step_key_in_batch prefixes steps).
Qed.

(** *** Allocation followed by the reconciliation upsert *)


Lemma upsert_all_present entries : ∀ c key,
  (∀ c k v, is_Some (LookupByIPRLocked (Upsert c k v) k)) →
  (∀ c k v k',
     is_Some (LookupByIPRLocked c k') →
     is_Some (LookupByIPRLocked (Upsert c k v) k')) →
  key ∈ entries.*1 ∨ is_Some (LookupByIPRLocked c key) →
  is_Some (LookupByIPRLocked (upsert_all c entries) key).
Proof.
  unfold upsert_all.
  induction entries as [|[k id] entries IH]; intros c key Hnew Hkeep [Hin|Hc].
  - by apply elem_of_nil in Hin.
  - done.
  - cbn [foldl]. apply IH; [done..|]. cbn in Hin.
    apply elem_of_cons in Hin as [->|Hin]; [right; apply Hnew | by left].
  - cbn [foldl]. apply IH; [done..|]. right. by apply Hkeep.
Qed.

(** The cache after the two rounds of upserts of
    [UpsertGeneratedIdentities], over a store in which an upserted prefix
    is found and an upsert removes no entry. *)
Lemma upserts_cover (newMap : gmap string Ident) (used : list Ident) c :
  (∀ c k v, is_Some (LookupByIPRLocked (Upsert c k v) k)) →
  (∀ c k v k',
     is_Some (LookupByIPRLocked c k') →
     is_Some (LookupByIPRLocked (Upsert c k v) k')) →
  let new := present (shuffle range_newly (map_to_list (Some <$> newMap))) in
  let c1 := upsert_all c new in
  let recovered :=
    present (shuffle range_toUpsert (map_to_list (missing c1 used ∅))) in
  let c2 := upsert_all c1 recovered in
  (∀ key, is_Some (newMap !! key) → is_Some (LookupByIPRLocked c2 key))
  ∧ (∀ i key,
       i ∈ used → prefixOf i = Some key →
       is_Some (LookupByIPRLocked c2 key))
  ∧ (∀ key,
       is_Some (LookupByIPRLocked c key) →
       is_Some (LookupByIPRLocked c2 key)).
Proof.
  intros Hnew Hkeep new c1 recovered c2.
  assert (Hc1 : ∀ key,
    is_Some (LookupByIPRLocked c1 key) → is_Some (LookupByIPRLocked c2 key)).
  { intros key Hkey. apply upsert_all_present; auto. }
  split_and!.
  - intros key [i Hi]. apply Hc1, upsert_all_present; [done..|]. left.
    apply list_elem_of_fmap. exists (key, i). split; [done|].
    apply elem_of_present, shuffle_elem_of. by rewrite lookup_fmap, Hi.
  - intros i key Hi Hres.
    assert (Hused : i ∈ used_for key used).
    { unfold used_for. by apply list_elem_of_filter. }
    destruct (last (used_for key used)) as [i'|] eqn:Hlast.
    2:{ apply last_None in Hlast. rewrite Hlast in Hused.
        by apply elem_of_nil in Hused. }
    destruct (LookupByIPRLocked c1 key) as [e|] eqn:Hin.
    + apply Hc1. rewrite Hin. by eexists.
    + apply upsert_all_present; [done..|]. left.
      apply list_elem_of_fmap. exists (key, i'). split; [done|].
      apply elem_of_present, entries_missing. eauto.
  - intros key Hkey. apply Hc1, upsert_all_present; auto.
Qed.

(** X19.  What [UpsertGeneratedIdentities] ensures.  Over a store in which
    an upserted prefix is found and an upsert removes no entry, the call
    on a map and a slice without nil pointers returns with a cache that
    has an entry for every key of the map and for the prefix of every used
    identity whose CIDR label yields one, and that has lost no entry. *)
Theorem UpsertGeneratedIdentities_ensures_entries
    (newMap : gmap string Ident) (used : list Ident) w :
  (∀ c k v, is_Some (LookupByIPRLocked (Upsert c k v) k)) →
  (∀ c k v k',
     is_Some (LookupByIPRLocked c k') →
     is_Some (LookupByIPRLocked (Upsert c k v) k')) →
  ∃ w',
    UpsertGeneratedIdentities (Some <$> newMap) (Some <$> used) w
    = Done tt w' ∧
    (∀ key,
       is_Some (newMap !! key) →
       is_Some (LookupByIPRLocked (cache w') key)) ∧
    (∀ i key,
       i ∈ used → prefixOf i = Some key →
       is_Some (LookupByIPRLocked (cache w') key)) ∧
    (∀ key,
       is_Some (LookupByIPRLocked (cache w) key) →
       is_Some (LookupByIPRLocked (cache w') key)).
Proof.
  intros Hnew Hkeep. eexists.
  split; [apply UpsertGeneratedIdentities_run|].
  cbv zeta. cbn [cache]. by apply upserts_cover.
Qed.


End Coordinator.

Arguments Done {_ _ _ _ _ _ _ _} _ _.
Arguments Panic {_ _ _ _ _ _ _ _} _.


(** * Package [k8s]: properties of the retrieval of the node *)

Section NodeInformationProofs.
Context {Config Node IP CIDR NodeLabels : Type}.
Context {CiliumNodePtr CoreNodePtr NodeObject SlimNodePtr Getter : Type}.
Context `{!PkgOption Config, !PkgNodeTypes Node IP CIDR NodeLabels,
          !PkgK8s CiliumNodePtr CoreNodePtr NodeObject SlimNodePtr Node,
          !K8sGetter Getter CiliumNodePtr CoreNodePtr}.
Variable cfg : Config.

Abbreviation NWorld' := (NodeWorld Getter IP CIDR NodeLabels).
Abbreviation NEvent' := (NodeEvent IP CIDR NodeLabels).

Lemma count_app (p : NEvent' → bool) l1 l2 :
  count p (l1 ++ l2) = count p l1 + count p l2.
Proof. unfold count. by rewrite filter_app, length_app. Qed.

Lemma count_cons (p : NEvent' → bool) e l :
  count p (e :: l) = (if p e then 1 else 0) + count p l.
Proof.
  unfold count. rewrite filter_cons.
  destruct (p e); [by rewrite decide_True | by rewrite decide_False].
Qed.

Lemma count_nil (p : NEvent' → bool) : count p [] = 0.
Proof. done. Qed.

Lemma count_info (p : NEvent' → bool) logs :
  (∀ fields msg, p (NInfo fields msg) = false) →
  Forall (λ e, is_info e = true) logs → count p logs = 0.
Proof.
  intros Hp. induction 1 as [|e logs He _ IH]; [done|].
  rewrite count_cons, IH. destruct e; try done. by rewrite Hp.
Qed.

Lemma recorded_app (w w' : NWorld') tr :
  events w' = events w ++ tr → recorded w w' = tr.
Proof. unfold recorded. intros ->. by rewrite drop_app_length. Qed.

(** *** [retrieveNodeInformation] *)

(** One call: the request, the log line of a node that was read, and what
    the result says about the node. *)
Lemma retrieveNodeInformation_cases nodeName (w : NWorld') :
  match retrieveNodeInformation cfg nodeName w with
  | Returned (n, err) w' =>
    ∃ err0 logs,
      events w' = events w ++ request cfg nodeName err0 :: logs ∧
      Forall (λ e, is_info e = true) logs ∧
      match n, err with
      | Some n, None => err0 = None ∧ meets_requirements cfg n
      | None, None => is_Some err0 ∧ mandatory cfg = false
      | None, Some _ => is_Some err0 → mandatory cfg = true
      | Some _, Some _ => False
      end
  | Panicked _ => clusterPool cfg = false
  | Exited _ => False
  end.
Proof.
  unfold retrieveNodeInformation, request, clusterPool, mandatory,
    meets_requirements.
  unfold kbind at 1.
  destruct (bool_decide (IPAM cfg = IPAMClusterPool)
            || bool_decide (IPAM cfg = IPAMClusterPoolV2)).
  - unfold kbind at 1, callGetCiliumNode.
    destruct (GetCiliumNode (getter w) nodeName) as [g [ptr [e|]]]; cbn [snd].
    + destruct (negb (K8sRequireIPv4PodCIDR cfg)
                && negb (K8sRequireIPv6PodCIDR cfg)
                && negb (MightAutoDetectDevices cfg)); cbn;
        exists (Some e), []; split_and!; try done; by eexists.
    + unfold kbind, record, kret. cbn [getter events].
      generalize (ParseCiliumNode ptr). intros n.
      destruct (K8sRequireIPv4PodCIDR cfg), (K8sRequireIPv6PodCIDR cfg),
        (IPv4AllocCIDR n) eqn:Hv4, (IPv6AllocCIDR n) eqn:Hv6; cbn;
        eexists None, [_]; rewrite <- app_assoc;
        (split_and!; [done | by repeat constructor | try done..]);
        try (split; intros; rewrite ?Hv4, ?Hv6; by eauto).
  - unfold kbind at 1, callGetK8sNode.
    destruct (GetK8sNode (getter w) nodeName) as [g [ptr [e|]]]; cbn [snd].
    + destruct (negb (K8sRequireIPv4PodCIDR cfg)
                && negb (K8sRequireIPv6PodCIDR cfg)
                && negb (MightAutoDetectDevices cfg)); cbn;
        exists (Some e), []; split_and!; try done; by eexists.
    + destruct (ConvertToNode ptr) as [obj|].
      2:{ cbn. exists None, []. split_and!; try done. }
      destruct (asSlimNode obj) as [slim|]; [|done].
      destruct (ParseNode slim) as [n|]; [|done].
      unfold kbind, record, kret. cbn [getter events].
      destruct (K8sRequireIPv4PodCIDR cfg), (K8sRequireIPv6PodCIDR cfg),
        (IPv4AllocCIDR n) eqn:Hv4, (IPv6AllocCIDR n) eqn:Hv6; cbn;
        eexists None, [_]; rewrite <- app_assoc;
        (split_and!; [done | by repeat constructor | try done..]);
        try (split; intros; rewrite ?Hv4, ?Hv6; by eauto).
Qed.

(** Settles the part of a goal that says that one request was sent. *)
Ltac one_request :=
  split_and!;
  [ eexists _, _; split_and!;
    [reflexivity | repeat constructor | cbn [length]; lia]
  | rewrite ?count_cons; reflexivity
  | try done.. ].

(** X13.  One attempt at reading the node.  [retrieveNodeInformation]
    sends exactly one request, to the CiliumNode resource under the two
    cluster-pool IPAM modes and to the Kubernetes node otherwise, and logs
    at most a line after it.  It never returns a node together with an
    error; a node that it returns has every pod CIDR that the
    configuration requires; and it returns neither node nor error only
    when the request failed while no pod CIDR is required and no device
    detection may follow.  Its own code can panic only on the Kubernetes
    path (the type assertion, and the read of the name through the pointer
    that [ParseNode] returns), and never ends the process. *)
Theorem retrieveNodeInformation_outcome nodeName (w : NWorld') :
  match retrieveNodeInformation cfg nodeName w with
  | Returned (n, err) w' =>
    (∃ err0 logs,
       recorded w w' = request cfg nodeName err0 :: logs ∧
       Forall (λ e, is_info e = true) logs ∧ length logs ≤ 1) ∧
    count is_request (recorded w w') = 1 ∧
    match n, err with
    | Some n, None => meets_requirements cfg n
    | None, None =>
      K8sRequireIPv4PodCIDR cfg = false ∧ K8sRequireIPv6PodCIDR cfg = false
      ∧ MightAutoDetectDevices cfg = false
      ∧ ∃ e, recorded w w' = [request cfg nodeName (Some e)]
    | None, Some _ => True
    | Some _, Some _ => False
    end
  | Panicked _ => clusterPool cfg = false
  | Exited _ => False
  end.
Proof.
  unfold retrieveNodeInformation, request, clusterPool, meets_requirements,
    recorded.
  unfold kbind at 1.
  destruct (bool_decide (IPAM cfg = IPAMClusterPool)
            || bool_decide (IPAM cfg = IPAMClusterPoolV2)).
  - unfold kbind at 1, callGetCiliumNode.
    destruct (GetCiliumNode (getter w) nodeName) as [g [ptr [e|]]]; cbn [snd].
    + destruct (K8sRequireIPv4PodCIDR cfg), (K8sRequireIPv6PodCIDR cfg),
        (MightAutoDetectDevices cfg); cbn; rewrite drop_app_length;
        one_request; by eexists.
    + unfold kbind, record, kret. cbn [getter events].
      generalize (ParseCiliumNode ptr). intros n.
      destruct (K8sRequireIPv4PodCIDR cfg), (K8sRequireIPv6PodCIDR cfg),
        (IPv4AllocCIDR n) eqn:Hv4, (IPv6AllocCIDR n) eqn:Hv6; cbn;
        rewrite <- app_assoc, drop_app_length; one_request;
        split; intros; rewrite ?Hv4, ?Hv6; by eauto.
  - unfold kbind at 1, callGetK8sNode.
    destruct (GetK8sNode (getter w) nodeName) as [g [ptr [e|]]]; cbn [snd].
    + destruct (K8sRequireIPv4PodCIDR cfg), (K8sRequireIPv6PodCIDR cfg),
        (MightAutoDetectDevices cfg); cbn; rewrite drop_app_length;
        one_request; by eexists.
    + destruct (ConvertToNode ptr) as [obj|].
      2:{ cbn. rewrite drop_app_length. one_request. }
      destruct (asSlimNode obj) as [slim|]; [|done].
      destruct (ParseNode slim) as [n|]; [|done].
      unfold kbind, record, kret. cbn [getter events].
      destruct (K8sRequireIPv4PodCIDR cfg), (K8sRequireIPv6PodCIDR cfg),
        (IPv4AllocCIDR n) eqn:Hv4, (IPv6AllocCIDR n) eqn:Hv6; cbn;
        rewrite <- app_assoc, drop_app_length; one_request;
        split; intros; rewrite ?Hv4, ?Hv6; by eauto.
Qed.

(** *** [waitForNodeInformation] *)

Lemma request_kinds nodeName err :
  let e : NEvent' := request cfg nodeName err in
  is_request e = true ∧ is_wait e = false
  ∧ is_warning e = false ∧ is_setter e = false.
Proof. unfold request. by destruct (clusterPool cfg). Qed.

(** The counts of one attempt. *)
Lemma attempt_counts nodeName err logs :
  Forall (λ e : NEvent', is_info e = true) logs →
  count is_request (request cfg nodeName err :: logs) = 1
  ∧ count is_wait (request cfg nodeName err :: logs) = 0
  ∧ count is_warning (request cfg nodeName err :: logs) = 0
  ∧ count is_setter (request cfg nodeName err :: logs) = 0.
Proof.
  intros Hlogs. rewrite !count_cons.
  destruct (request_kinds nodeName err) as (-> & -> & -> & ->).
  by rewrite !(count_info _ logs) by done.
Qed.

(** The loop with [k] iterations to go: it stops at the first attempt that
    yields no error, and after [k] attempts otherwise. *)
Lemma waitLoop_run nodeName : ∀ k (w : NWorld'),
  match waitLoop cfg k nodeName w with
  | Returned n w' =>
    ∃ tr,
      events w' = events w ++ tr ∧
      count is_warning tr = count is_wait tr ∧
      count is_setter tr = 0 ∧
      count is_request tr ≤ k ∧
      ((count is_request tr = S (count is_wait tr) ∧
        match n with
        | Some n => meets_requirements cfg n
        | None => mandatory cfg = false
        end)
       ∨ (count is_request tr = k ∧ count is_wait tr = k ∧ n = None))
  | Panicked _ => clusterPool cfg = false
  | Exited _ => False
  end.
Proof.
  induction k as [|k IH]; intros w.
  - cbn. exists []. rewrite app_nil_r. split_and!; try done. by right.
  - cbn [waitLoop]. unfold kbind at 1.
    pose proof (retrieveNodeInformation_cases nodeName w) as Hone.
    destruct (retrieveNodeInformation cfg nodeName w)
      as [[n [e|]] w1|r|w1]; [| |done..].
    + destruct Hone as (err0 & logs & Hev & Hlogs & _).
      destruct (attempt_counts nodeName err0 logs Hlogs)
        as (Hreq & Hwait & Hwarn & Hset).
      unfold kbind, record. cbn [getter events].
      match goal with
      | |- context [waitLoop cfg k nodeName ?w2] =>
        specialize (IH w2); destruct (waitLoop cfg k nodeName w2)
          as [n' w'|r|w']; [|done..]
      end.
      destruct IH as (tr & Htr & Hww & Hs & Hle & Hend).
      cbn [events] in Htr. rewrite Hev in Htr.
      exists ((request cfg nodeName err0 :: logs)
              ++ [NWarning e "Waiting for k8s node information";
                  NBackoffWait "k8s-node-retrieval"] ++ tr).
      rewrite !count_app, Hreq, Hwait, Hwarn, Hset.
      rewrite !count_cons, !count_nil. cbn [is_request is_wait is_warning
        is_setter].
      split_and!; [by rewrite Htr, <- !app_assoc | lia | lia | lia |].
      destruct Hend as [[Hr Hn]|(Hr & Hw & ->)]; [left | right];
        split_and!; try done; lia.
    + destruct Hone as (err0 & logs & Hev & Hlogs & Hres).
      destruct (attempt_counts nodeName err0 logs Hlogs)
        as (Hreq & Hwait & Hwarn & Hset).
      exists (request cfg nodeName err0 :: logs).
      rewrite Hreq, Hwait, Hwarn, Hset.
      split_and!; [done | done | done | lia |]. left. split; [done|].
      destruct n as [n|]; [by destruct Hres | by destruct Hres].
Qed.

(** X14.  [waitForNodeInformation] is bounded.  A call that returns has
    sent at most [nodeRetrievalMaxRetries] (15) requests, has waited once
    after every failed attempt, each wait following a warning, and has
    called no setter.  Either its last attempt yielded no error, and then
    the node it returns has the pod CIDRs that the configuration requires
    (it returns nil from such an attempt only when the node is optional),
    or all 15 attempts failed and it returns nil. *)
Theorem waitForNodeInformation_bounded nodeName (w : NWorld') :
  match waitForNodeInformation cfg nodeName w with
  | Returned n w' =>
    let tr := recorded w w' in
    count is_request tr ≤ nodeRetrievalMaxRetries ∧
    count is_warning tr = count is_wait tr ∧
    count is_setter tr = 0 ∧
    ((count is_request tr = S (count is_wait tr) ∧
      match n with
      | Some n => meets_requirements cfg n
      | None => mandatory cfg = false
      end)
     ∨ (count is_request tr = nodeRetrievalMaxRetries ∧
        count is_wait tr = nodeRetrievalMaxRetries ∧ n = None))
  | Panicked _ => clusterPool cfg = false
  | Exited _ => False
  end.
Proof.
  unfold waitForNodeInformation.
  pose proof (waitLoop_run nodeName nodeRetrievalMaxRetries w) as Hrun.
  destruct (waitLoop cfg nodeRetrievalMaxRetries nodeName w)
    as [n w'|r|w']; [|done..].
  destruct Hrun as (tr & Htr & Hww & Hs & Hle & Hend).
  cbv zeta. by rewrite (recorded_app _ _ _ Htr).
Qed.

(** One attempt against a getter that is down. *)
Lemma retrieveNodeInformation_down (down : Getter → Prop) nodeName
    (w : NWorld') :
  (∀ g name, down g →
     down (GetK8sNode g name).1 ∧ is_Some (GetK8sNode g name).2.2) →
  (∀ g name, down g →
     down (GetCiliumNode g name).1 ∧ is_Some (GetCiliumNode g name).2.2) →
  down (getter w) →
  ∃ g e e',
    down g ∧
    retrieveNodeInformation cfg nodeName w
    = Returned (None, if mandatory cfg then Some e' else None)
        (mkNodeWorld g (events w ++ [request cfg nodeName (Some e)])).
Proof.
  intros Hk8s Hcilium Hdown.
  unfold retrieveNodeInformation, request, clusterPool, mandatory.
  unfold kbind at 1.
  destruct (bool_decide (IPAM cfg = IPAMClusterPool)
            || bool_decide (IPAM cfg = IPAMClusterPoolV2)).
  - unfold kbind at 1, callGetCiliumNode.
    destruct (Hcilium (getter w) nodeName Hdown) as [Hg [e He]].
    destruct (GetCiliumNode (getter w) nodeName) as [g [ptr err]].
    cbn [fst snd] in *. subst err.
    destruct (negb (K8sRequireIPv4PodCIDR cfg)
              && negb (K8sRequireIPv6PodCIDR cfg)
              && negb (MightAutoDetectDevices cfg)); cbn;
      by exists g, e, ("unable to retrieve CiliumNode: " +:+ e).
  - unfold kbind at 1, callGetK8sNode.
    destruct (Hk8s (getter w) nodeName Hdown) as [Hg [e He]].
    destruct (GetK8sNode (getter w) nodeName) as [g [ptr err]].
    cbn [fst snd] in *. subst err.
    destruct (negb (K8sRequireIPv4PodCIDR cfg)
              && negb (K8sRequireIPv6PodCIDR cfg)
              && negb (MightAutoDetectDevices cfg)); cbn;
      by exists g, e, ("unable to retrieve k8s node information: " +:+ e).
Qed.

Lemma waitLoop_down (down : Getter → Prop) nodeName :
  (∀ g name, down g →
     down (GetK8sNode g name).1 ∧ is_Some (GetK8sNode g name).2.2) →
  (∀ g name, down g →
     down (GetCiliumNode g name).1 ∧ is_Some (GetCiliumNode g name).2.2) →
  mandatory cfg = true →
  ∀ k (w : NWorld'),
    down (getter w) →
    ∃ w' tr,
      waitLoop cfg k nodeName w = Returned None w' ∧
      events w' = events w ++ tr ∧
      count is_request tr = k ∧ count is_wait tr = k.
Proof.
  intros Hk8s Hcilium Hmand. induction k as [|k IH]; intros w Hdown.
  - exists w, []. by rewrite app_nil_r.
  - cbn [waitLoop]. unfold kbind at 1.
    destruct (retrieveNodeInformation_down down nodeName w Hk8s Hcilium Hdown)
      as (g & e & e' & Hg & ->).
    rewrite Hmand. unfold kbind, record. cbn [getter events].
    match goal with
    | |- context [waitLoop cfg k nodeName ?w2] =>
      destruct (IH w2 Hg) as (w' & tr & -> & Htr & Hreq & Hwait)
    end.
    cbn [events] in Htr.
    exists w', ([request cfg nodeName (Some e);
                 NWarning e' "Waiting for k8s node information";
                 NBackoffWait "k8s-node-retrieval"] ++ tr).
    split_and!; [done | by rewrite Htr, <- !app_assoc | |].
    + rewrite count_app, !count_cons, count_nil, Hreq.
      by destruct (request_kinds nodeName (Some e)) as (-> & _).
    + rewrite count_app, !count_cons, count_nil, Hwait.
      by destruct (request_kinds nodeName (Some e)) as (_ & -> & _).
Qed.

(** X15.  Giving up.  Against a getter that is down, and stays down,
    [waitForNodeInformation] returns nil: after one request and without
    waiting when the node is optional (no pod CIDR is required and no
    device detection may follow), and after exactly 15 requests and 15
    waits otherwise. *)
Theorem waitForNodeInformation_gives_up (down : Getter → Prop) nodeName
    (w : NWorld') :
  (∀ g name, down g →
     down (GetK8sNode g name).1 ∧ is_Some (GetK8sNode g name).2.2) →
  (∀ g name, down g →
     down (GetCiliumNode g name).1 ∧ is_Some (GetCiliumNode g name).2.2) →
  down (getter w) →
  ∃ w',
    waitForNodeInformation cfg nodeName w = Returned None w' ∧
    let tr := recorded w w' in
    if mandatory cfg
    then count is_request tr = 15 ∧ count is_wait tr = 15
    else count is_request tr = 1 ∧ count is_wait tr = 0.
Proof.
  intros Hk8s Hcilium Hdown. unfold waitForNodeInformation.
  destruct (mandatory cfg) eqn:Hmand.
  - destruct (waitLoop_down down nodeName Hk8s Hcilium Hmand
                nodeRetrievalMaxRetries w Hdown)
      as (w' & tr & -> & Htr & Hreq & Hwait).
    exists w'. split; [done|]. cbv zeta.
    by rewrite (recorded_app _ _ _ Htr).
  - unfold nodeRetrievalMaxRetries. cbn [waitLoop]. unfold kbind at 1.
    destruct (retrieveNodeInformation_down down nodeName w Hk8s Hcilium Hdown)
      as (g & e & e' & Hg & ->).
    rewrite Hmand. eexists. split; [reflexivity|]. cbv zeta.
    unfold recorded. cbn [events]. rewrite drop_app_length.
    rewrite !count_cons, !count_nil.
    by destruct (request_kinds nodeName (Some e)) as (-> & -> & _).
Qed.

(** *** [WaitForNodeInformation] *)

Lemma record_option {A} (f : A → NEvent') (o : option A) (w : NWorld') :
  match o with
  | Some x => record (f x)
  | None => kret tt
  end w
  = Returned tt
      (mkNodeWorld (getter w)
         (events w ++ from_option (λ x, [f x]) [] o)).
Proof.
  destruct o; [done|]. unfold kret. rewrite app_nil_r. by destruct w.
Qed.

Lemma useNodeCIDR_run n (w : NWorld') :
  useNodeCIDR cfg n w
  = Returned tt
      (mkNodeWorld (getter w)
         (events w
          ++ (if EnableIPv4 cfg
              then from_option (λ c, [NSetIPv4AllocRange c]) []
                               (IPv4AllocCIDR n)
              else [])
          ++ (if EnableIPv6 cfg
              then from_option (λ c, [NSetIPv6NodeRange c]) []
                               (IPv6AllocCIDR n)
              else []))).
Proof.
  unfold useNodeCIDR, kbind, record, kret.
  destruct w as [g tr].
  destruct (IPv4AllocCIDR n), (EnableIPv4 cfg), (IPv6AllocCIDR n),
    (EnableIPv6 cfg); cbn; by rewrite <- ?app_assoc, ?app_nil_r.
Qed.

Lemma restoreRouterHostIPs_run n (w : NWorld') :
  restoreRouterHostIPs cfg n w
  = Returned tt
      (mkNodeWorld (getter w)
         (events w
          ++ (if EnableHostIPRestore cfg
              then
                from_option (λ ip, [NSetInternalIPv4Router ip]) []
                            (GetCiliumInternalIP n false)
                ++ from_option (λ ip, [NSetIPv6Router ip]) []
                               (GetCiliumInternalIP n true)
                ++ (if negb (is_nil (GetCiliumInternalIP n false))
                       || negb (is_nil (GetCiliumInternalIP n true))
                    then [NInfo [NFIPv4 (GetCiliumInternalIP n false);
                                 NFIPv6 (GetCiliumInternalIP n true)]
                                "Restored router IPs from node information"]
                    else [])
              else []))).
Proof.
  unfold restoreRouterHostIPs, kbind, record, kret.
  destruct w as [g tr].
  destruct (EnableHostIPRestore cfg), (GetCiliumInternalIP n false),
    (GetCiliumInternalIP n true); cbn;
    by rewrite <- ?app_assoc, ?app_nil_r.
Qed.


(** [WaitForNodeInformation], by what [waitForNodeInformation] returns. *)
Lemma WaitForNodeInformation_run (w : NWorld') :
  WaitForNodeInformation cfg w =
  let required := K8sRequireIPv4PodCIDR cfg || K8sRequireIPv6PodCIDR cfg in
  if bool_decide (GetName = "") then
    if required then
      Returned
        (Some ("node name must be specified via environment variable '"
               +:+ EnvNodeNameSpec
               +:+ "' to retrieve Kubernetes PodCIDR range")) w
    else
      Returned None
        (mkNodeWorld (getter w)
           (events w
            ++ if MightAutoDetectDevices cfg
               then [NInfo [] "K8s node name is empty. BPF NodePort might not be able to auto detect all devices"]
               else []))
  else
    match waitForNodeInformation cfg GetName w with
    | Returned (Some n) w1 =>
      Returned None (mkNodeWorld (getter w1) (events w1 ++ node_events cfg n))
    | Returned None w1 =>
      if required
      then Exited (mkNodeWorld (getter w1)
                     (events w1 ++ [NFatal "Unable to derive PodCIDR via Node or CiliumNode resource, giving up"]))
      else Returned None w1
    | Panicked r => Panicked r
    | Exited w1 => Exited w1
    end.
Proof.
  unfold WaitForNodeInformation. cbv zeta.
  destruct (bool_decide (GetName = "")).
  - destruct (K8sRequireIPv4PodCIDR cfg || K8sRequireIPv6PodCIDR cfg);
      [done|].
    unfold kbind, record, kret.
    destruct (MightAutoDetectDevices cfg); [done|].
    rewrite app_nil_r. by destruct w.
  - unfold kbind at 1.
    destruct (waitForNodeInformation cfg GetName w) as [[n|] w1|r|w1];
      [| |done..].
    + unfold kbind at 1, record at 1. cbv beta iota.
      unfold kbind at 1. rewrite useNodeCIDR_run. cbv beta iota.
      unfold kbind at 1. rewrite record_option. cbv beta iota.
      unfold kbind at 1. rewrite record_option. cbv beta iota.
      unfold kbind at 1, record at 1. cbv beta iota.
      unfold kbind at 1, record at 1. cbv beta iota.
      unfold kbind at 1, record at 1. cbv beta iota.
      unfold kbind at 1, record at 1. cbv beta iota.
      unfold kbind at 1. rewrite restoreRouterHostIPs_run. cbv beta iota.
      unfold kret, node_events. cbn [getter events].
      by rewrite <- !app_assoc.
    + destruct (K8sRequireIPv4PodCIDR cfg || K8sRequireIPv6PodCIDR cfg);
        [done|]. unfold kbind, kret. done.
Qed.

Lemma count_zero (p : NEvent' → bool) tr e :
  count p tr = 0 → e ∈ tr → p e = false.
Proof.
  intros Hzero Hin. destruct (p e) eqn:Hp; [|done].
  apply list_elem_of_split in Hin as (l1 & l2 & ->).
  rewrite count_app, count_cons, Hp in Hzero. lia.
Qed.

(** Takes apart a hypothesis [H : e ∈ l] on a list made of the pieces of
    [node_events]. *)
Ltac in_pieces H :=
  lazymatch type of H with
  | _ ∈ _ ++ _ => apply elem_of_app in H as [H|H]; in_pieces H
  | _ ∈ _ :: _ => apply elem_of_cons in H as [H|H]; [|in_pieces H]
  | _ ∈ [] => by apply elem_of_nil in H
  | _ ∈ (if ?b then _ else _) => destruct b eqn:?; in_pieces H
  | _ ∈ from_option _ _ ?o =>
    destruct o eqn:?; cbn [from_option] in H; in_pieces H
  end.

Lemma node_events_kinds n (e : NEvent') :
  e ∈ node_events cfg n →
  is_request e = false
  ∧ (is_router e = true → EnableHostIPRestore cfg = true)
  ∧ (∀ c, e = NSetIPv4AllocRange c →
       EnableIPv4 cfg = true ∧ IPv4AllocCIDR n = Some c)
  ∧ (∀ c, e = NSetIPv6NodeRange c →
       EnableIPv6 cfg = true ∧ IPv6AllocCIDR n = Some c).
Proof.
  unfold node_events. intros Hin.
  in_pieces Hin; subst e; (split_and!; [done | done | |]);
    intros c' [= <-] || intros c' [=]; done.
Qed.

Lemma count_none (p : NEvent' → bool) tr :
  (∀ e, e ∈ tr → p e = false) → count p tr = 0.
Proof.
  induction tr as [|e tr IH]; intros Hall; [done|].
  rewrite count_cons, (Hall e) by left. apply IH.
  intros e' Hin. apply Hall. by right.
Qed.

(** X16.  What [WaitForNodeInformation] ends with.  It returns an error
    exactly when the node has no name while a pod CIDR is required, and an
    unnamed node is never asked for: no request, no setter.  For a named
    node it sends at most 15 requests; a normal return comes either after
    the node was received, with every pod CIDR that the configuration
    requires, the steps of [node_events] closing the call, or without any
    setter called, which happens only when no pod CIDR is required.  When
    one is required and no node was received, the process ends on the
    fatal log line, no setter called. *)
Theorem WaitForNodeInformation_outcome (w : NWorld') :
  let required := K8sRequireIPv4PodCIDR cfg || K8sRequireIPv6PodCIDR cfg in
  match WaitForNodeInformation cfg w with
  | Returned err w' =>
    (is_Some err ↔ GetName = "" ∧ required = true) ∧
    (GetName = "" →
     getter w' = getter w ∧ count is_request (recorded w w') = 0
     ∧ count is_setter (recorded w w') = 0) ∧
    (GetName ≠ "" →
     count is_request (recorded w w') ≤ nodeRetrievalMaxRetries ∧
     ((∃ n tr,
         meets_requirements cfg n ∧
         recorded w w' = tr ++ node_events cfg n ∧
         count is_setter tr = 0)
      ∨ (required = false ∧ count is_setter (recorded w w') = 0)))
  | Panicked _ => GetName ≠ "" ∧ clusterPool cfg = false
  | Exited w' =>
    GetName ≠ "" ∧ required = true ∧
    count is_setter (recorded w w') = 0 ∧
    last (events w')
    = Some (NFatal "Unable to derive PodCIDR via Node or CiliumNode resource, giving up")
  end.
Proof.
  intros required. rewrite WaitForNodeInformation_run. cbv zeta.
  fold required. case_bool_decide as Hname.
  - destruct required eqn:Hreq.
    + split_and!; [|intros _|done].
      * split; [done | by eexists].
      * unfold recorded. by rewrite drop_all.
    + split_and!; [|intros _|done].
      * split; [by intros [? ?] | by intros [_ ?]].
      * unfold recorded. cbn [getter events]. rewrite drop_app_length.
        by destruct (MightAutoDetectDevices cfg).
  - pose proof (waitLoop_run GetName nodeRetrievalMaxRetries w) as Hwait.
    unfold waitForNodeInformation.
    destruct (waitLoop cfg nodeRetrievalMaxRetries GetName w)
      as [[n|] w1|r|w1]; [| |done..].
    + destruct Hwait as (tr & Htr & _ & Hset & Hle & Hend).
      assert (Hn : meets_requirements cfg n).
      { by destruct Hend as [[_ ?]|(_ & _ & ?)]. }
      assert (Hrec : recorded w
                (mkNodeWorld (getter w1) (events w1 ++ node_events cfg n))
              = tr ++ node_events cfg n).
      { apply recorded_app. cbn [events]. by rewrite Htr, <- app_assoc. }
      split_and!; [split; [by intros [? ?] | by intros [? _]] | done |].
      intros _. rewrite Hrec. split.
      * rewrite count_app.
        assert (count is_request (node_events cfg n) = 0) as ->; [|lia].
        apply count_none. intros e He. apply (node_events_kinds n e He).
      * left. by exists n, tr.
    + destruct Hwait as (tr & Htr & _ & Hset & Hle & Hend).
      destruct required eqn:Hreq.
      * split_and!; [done..| |].
        -- erewrite recorded_app;
             [|cbn [events]; rewrite Htr, <- app_assoc; reflexivity].
           by rewrite count_app, Hset.
        -- cbn [events]. by rewrite last_snoc.
      * rewrite (recorded_app _ _ _ Htr).
        split_and!; [split; [by intros [? ?] | by intros [? ?]] | done |].
        intros _. split; [done|]. by right.
Qed.

(** X17.  The switches of the configuration.  Whatever
    [WaitForNodeInformation] ends with, it has set the IPv4 allocation
    range only with IPv4 enabled, the IPv6 node range only with IPv6
    enabled, and a router address only with the restoration of host
    addresses enabled; and a range that it has set is the pod CIDR of a node
    that meets the requirements of the configuration. *)
Theorem WaitForNodeInformation_switches (w : NWorld') :
  let respects (w' : NWorld') :=
    let tr := recorded w w' in
    (∀ c, NSetIPv4AllocRange c ∈ tr →
       EnableIPv4 cfg = true ∧
       ∃ n, meets_requirements cfg n ∧ IPv4AllocCIDR n = Some c) ∧
    (∀ c, NSetIPv6NodeRange c ∈ tr →
       EnableIPv6 cfg = true ∧
       ∃ n, meets_requirements cfg n ∧ IPv6AllocCIDR n = Some c) ∧
    (EnableHostIPRestore cfg = false → count is_router tr = 0) in
  match WaitForNodeInformation cfg w with
  | Returned _ w' => respects w'
  | Panicked _ => True
  | Exited w' => respects w'
  end.
Proof.
  assert (Hquiet : ∀ (w' : NWorld') tr,
    events w' = events w ++ tr → count is_setter tr = 0 →
    (∀ c, NSetIPv4AllocRange c ∈ recorded w w' →
       EnableIPv4 cfg = true ∧
       ∃ n, meets_requirements cfg n ∧ IPv4AllocCIDR n = Some c) ∧
    (∀ c, NSetIPv6NodeRange c ∈ recorded w w' →
       EnableIPv6 cfg = true ∧
       ∃ n, meets_requirements cfg n ∧ IPv6AllocCIDR n = Some c) ∧
    (EnableHostIPRestore cfg = false → count is_router (recorded w w') = 0)).
  { intros w' tr Htr Hset. rewrite (recorded_app _ _ _ Htr). split_and!.
    - intros c Hin. by pose proof (count_zero _ _ _ Hset Hin).
    - intros c Hin. by pose proof (count_zero _ _ _ Hset Hin).
    - intros _. clear Htr. induction tr as [|e tr IH]; [done|].
      rewrite count_cons in Hset |- *.
      destruct e; cbn in Hset |- *; try done; apply IH; lia. }
  cbv zeta. rewrite WaitForNodeInformation_run. cbv zeta.
  case_bool_decide as Hname.
  - destruct (K8sRequireIPv4PodCIDR cfg || K8sRequireIPv6PodCIDR cfg).
    + apply (Hquiet w []); [by rewrite app_nil_r | done].
    + eapply Hquiet; [done|]. by destruct (MightAutoDetectDevices cfg).
  - pose proof (waitLoop_run GetName nodeRetrievalMaxRetries w) as Hwait.
    unfold waitForNodeInformation.
    destruct (waitLoop cfg nodeRetrievalMaxRetries GetName w)
      as [[n|] w1|r|w1]; [| |done..].
    + destruct Hwait as (tr & Htr & _ & Hset & Hle & Hend).
      assert (Hn : meets_requirements cfg n).
      { by destruct Hend as [[_ ?]|(_ & _ & ?)]. }
      rewrite (recorded_app w _ (tr ++ node_events cfg n))
        by (cbn [events]; by rewrite Htr, <- app_assoc).
      split_and!.
      * intros c [Hin|Hin]%elem_of_app;
          [by pose proof (count_zero _ _ _ Hset Hin)|].
        destruct (node_events_kinds n _ Hin) as (_ & _ & Hv4 & _).
        destruct (Hv4 c eq_refl) as [Hon Hc]. eauto.
      * intros c [Hin|Hin]%elem_of_app;
          [by pose proof (count_zero _ _ _ Hset Hin)|].
        destruct (node_events_kinds n _ Hin) as (_ & _ & _ & Hv6).
        destruct (Hv6 c eq_refl) as [Hon Hc]. eauto.
      * intros Hoff. rewrite count_app.
        destruct (Hquiet w1 tr Htr Hset) as (_ & _ & Hr).
        rewrite (recorded_app _ _ _ Htr) in Hr. rewrite (Hr Hoff).
        apply count_none. intros e He.
        destruct (node_events_kinds n e He) as (_ & Hrouter & _).
        destruct (is_router e); [|done].
        by rewrite (Hrouter eq_refl) in Hoff.
    + destruct Hwait as (tr & Htr & _ & Hset & Hle & Hend).
      destruct (K8sRequireIPv4PodCIDR cfg || K8sRequireIPv6PodCIDR cfg).
      * apply (Hquiet _ (tr ++ [NFatal "Unable to derive PodCIDR via Node or CiliumNode resource, giving up"])).
        -- cbn [events]. by rewrite Htr, <- app_assoc.
        -- by rewrite count_app, Hset.
      * by apply (Hquiet _ tr).
Qed.

End NodeInformationProofs.

(** ** Concrete runs *)

Import Fake.

Abbreviation FakeWorld :=
  (@World Fake.IPNet Fake.Labels Fake.NumericIdentity Fake.Source
          Fake.Allocator Fake.Cache Fake.Metadata).

(** A batch of three prefixes and a nil entry against an allocator with room
    for two identities: the third allocation fails, and the allocator is
    back at its baseline after the call. *)
Lemma AllocateCIDRs_rollback_witness :
  let w : FakeWorld := mkWorld (Fake.mkAllocator [] 2) ∅ ∅ [] in
  let batch := [Some ("10.0.0.0", "24"); None; Some ("10.0.1.0", "24");
                Some ("10.0.2.0", "24")] in
  ∃ w',
    AllocateCIDRs Fake.in_order Fake.in_order Fake.in_order batch (Some [5%N]) None w
    = Done (None,
            Some "failed to allocate identity for cidr 10.0.2.0/24: identity quota exceeded",
            None) w'
    ∧ allocator w' = Fake.mkAllocator [] 2 ∧ cache w' = ∅.
Proof.
  intros w batch.
  pose (l0 := ["cidr:10.0.0.0/24"; "reserved:world"]).
  pose (l1 := ["cidr:10.0.1.0/24"; "reserved:world"]).
  pose (steps := [mkStep 0 ("10.0.0.0", "24") (Some (Fake.ident_of l0 5%N)) true;
                  mkStep 2 ("10.0.1.0", "24")
                         (Some (Fake.ident_of l1 16777216%N)) true]).
  assert (Hfail : FailsAt (metadata w) (Some [5%N]) (allocator w) 0
            [Some ("10.0.0.0", "24"); None; Some ("10.0.1.0", "24")]
            ("10.0.2.0", "24") steps
            (Fake.mkAllocator [(l0, 5%N, 1); (l1, 16777216%N, 1)] 2)
            (Fake.mkAllocator [(l0, 5%N, 1); (l1, 16777216%N, 1)] 2)
            None false "identity quota exceeded").
  { split_and!; [reflexivity | | reflexivity].
    eapply AllocRun_cons; [reflexivity | by eexists |].
    eapply AllocRun_cons; [reflexivity | by eexists |].
    apply AllocRun_nil. }
  destruct (AllocateCIDRs_rollback Fake.in_order Fake.in_order Fake.in_order _ _ [] (Some [5%N]) None w
              steps _ _ _ _ _ Hfail) as [Heq _].
  eexists. split; [exact Heq|]. split; reflexivity.
Defined.

(** A new prefix and a prefix whose identity the allocator already holds,
    without an output map: the call returns no error, and what it upserts
    is the outcome of its allocations. *)
Lemma AllocateCIDRs_upserts_new_witness :
  let held := (["cidr:10.0.1.0/24"; "reserved:world"], 7%N, 1) in
  let w : FakeWorld := mkWorld (Fake.mkAllocator [held] 8) ∅ ∅ [] in
  let batch := [Some ("10.0.0.0", "24"); Some ("10.0.1.0", "24")] in
  ∃ ids out w',
    AllocateCIDRs Fake.in_order Fake.in_order Fake.in_order batch None None w
    = Done (ids, None, out) w'
    ∧ ∃ steps upserted,
        Completes (metadata w) None (allocator w) 0 batch steps
                  (allocator w')
        ∧ cache w' = upsert_all (cache w) upserted
        ∧ NoDup upserted.*1
        ∧ ∀ key id,
            (key, id) ∈ upserted
            ↔ latest (metadata w) s_isNew key steps = Some (Some id).
Proof.
  intros held w batch.
  destruct (returned_ok_inv
              (AllocateCIDRs Fake.in_order Fake.in_order Fake.in_order
                             batch None None w))
    as (ids & out & w' & Hcall); [by vm_compute|].
  exists ids, out, w'. split; [exact Hcall|].
  destruct (AllocateCIDRs_upserts_new Fake.in_order Fake.in_order
              Fake.in_order batch None w ids out w' Hcall)
    as (steps & upserted & returned & Hok & _ & Hcache & Hnodup & Hup & _).
  exists steps, upserted. exact (conj Hok (conj Hcache (conj Hnodup Hup))).
Defined.

(** The same batch with an output map: the call returns no error, performs
    no upsert and leaves the cache as it was. *)
Lemma AllocateCIDRs_output_map_witness :
  let held := (["cidr:10.0.1.0/24"; "reserved:world"], 7%N, 1) in
  let w : FakeWorld := mkWorld (Fake.mkAllocator [held] 8) ∅ ∅ [] in
  let batch := [Some ("10.0.0.0", "24"); Some ("10.0.1.0", "24")] in
  ∃ ids out w',
    AllocateCIDRs Fake.in_order Fake.in_order Fake.in_order batch None
                  (Some ∅) w
    = Done (ids, None, out) w'
    ∧ cache w' = cache w
    ∧ ∃ steps m',
        trace w' = trace w ++ locked_events (metadata w) None steps
        ∧ out = Some m'
        ∧ ∀ key,
            m' !! key
            = from_option Some ((∅ : gmap string _) !! key)
                (latest (metadata w) s_isNew key steps).
Proof.
  intros held w batch.
  destruct (returned_ok_inv
              (AllocateCIDRs Fake.in_order Fake.in_order Fake.in_order
                             batch None (Some ∅) w))
    as (ids & out & w' & Hcall); [by vm_compute|].
  exists ids, out, w'. split; [exact Hcall|].
  destruct (AllocateCIDRs_output_map Fake.in_order Fake.in_order
              Fake.in_order batch None ∅ w ids out w' Hcall)
    as (steps & m' & _ & Htrace & _ & _ & Hcache & Hout & Hm').
  split; [exact Hcache|].
  exists steps, m'. exact (conj Htrace (conj Hout Hm')).
Defined.

(** Two identities, the first held twice: releasing both prefixes (and a
    string that is no prefix) deletes the entry of the second only, over a
    store whose deletions touch one key. *)
Lemma releaseCIDRIdentities_deletes_last_reference_witness :
  let l0 := ["cidr:10.0.0.0/24"; "reserved:world"] in
  let l1 := ["cidr:10.0.1.0/24"; "reserved:world"] in
  let c : Fake.Cache :=
    {[ "10.0.0.0/24" := mkCacheIdentity 5%N "generated";
       "10.0.1.0/24" := mkCacheIdentity 6%N "generated" ]} in
  let w : FakeWorld :=
    mkWorld (Fake.mkAllocator [(l0, 5%N, 2); (l1, 6%N, 1)] 8) c ∅ [] in
  let batch := ["10.0.0.0/24"; "10.0.1.0/24"; "bogus"] in
  (∀ (c : Fake.Cache) q (src : Fake.Source) p, p ≠ q →
     LookupByIPRLocked (deleteLocked c q src) p = LookupByIPRLocked c p)
  ∧ ∃ w',
      releaseCIDRIdentities batch w = Done tt w'
      ∧ cache w' = delete_all c ["10.0.1.0/24"]
      ∧ LookupByIPRLocked (cache w') "10.0.0.0/24"
        = Some (mkCacheIdentity 5%N "generated")
      ∧ LookupByIPRLocked (cache w') "10.0.1.0/24" = None.
Proof.
  intros l0 l1 c w batch.
  assert (Hframe : ∀ (c : Fake.Cache) q (src : Fake.Source) p, p ≠ q →
    LookupByIPRLocked (deleteLocked c q src) p = LookupByIPRLocked c p).
  { intros c' q src p Hne. cbn [LookupByIPRLocked deleteLocked Fake.store].
    unfold Fake.delete_entry. destruct (c' !! q) as [e|]; [|done].
    case_decide; [|done]. by rewrite lookup_delete_ne. }
  split; [exact Hframe|].
  destruct (releaseCIDRIdentities_deletes_last_reference batch w Hframe)
    as (w' & Hcall & _ & Hcache & _ & _ & _ & Hkeep).
  exists w'. split_and!; [exact Hcall|exact Hcache| |].
  - rewrite Hkeep; [done|].
    intros ([|[|[|i]]] & id & err & Hp & Ho); done.
  - rewrite Hcache. done.
Defined.

(** The scenario of two prefixes: both are allocated with distinct
    identities and upserted with the tag of generated entries; releasing
    both empties the cache and the allocator again. *)
Example allocate_then_release :
  let w : FakeWorld := mkWorld (Fake.mkAllocator [] 8) ∅ ∅ [] in
  let batch := [Some ("10.0.0.0", "24"); Some ("10.0.1.0", "24")] in
  match AllocateCIDRs Fake.in_order Fake.in_order Fake.in_order
                      batch None None w with
  | Done (ids, err, _) w1 =>
    err = None
    ∧ option_map length ids = Some 2
    ∧ map_to_list (cache w1)
      = [("10.0.1.0/24", mkCacheIdentity 16777217%N "generated");
         ("10.0.0.0/24", mkCacheIdentity 16777216%N "generated")]
    ∧ match releaseCIDRIdentities ["10.0.0.0/24"; "10.0.1.0/24"] w1 with
      | Done _ w2 =>
        cache w2 = ∅ ∧ allocator w2 = Fake.mkAllocator [] 8
      | Panic _ => False
      end
  | Panic _ => False
  end.
Proof. vm_compute. done. Qed.

(** An identity held by the allocator whose cache entry is gone: the
    reconciliation upsert restores the entry and bumps the recovery counter
    once, also when the identity is listed twice. *)
Example reconciliation_restores_entry :
  let lbls := ["cidr:10.0.0.0/24"; "reserved:world"] in
  let id := Fake.ident_of lbls 5%N in
  let w : FakeWorld := mkWorld (Fake.mkAllocator [(lbls, 5%N, 1)] 8) ∅ ∅ [] in
  match UpsertGeneratedIdentities Fake.in_order Fake.in_order ∅
                                  [Some id; Some id] w with
  | Done _ w' =>
    map_to_list (cache w')
    = [("10.0.0.0/24", mkCacheIdentity 5%N "generated")]
    ∧ recoveries (trace w') = 1
  | Panic _ => False
  end.
Proof. vm_compute. done. Qed.

(** A hint beyond the end of [oldNIDs] is the sentinel: the second prefix
    is allocated without a previous numeric identity and without error. *)
Example short_oldNIDs :
  let w : FakeWorld := mkWorld (Fake.mkAllocator [] 8) ∅ ∅ [] in
  let batch := [Some ("10.0.0.0", "24"); Some ("10.0.1.0", "24")] in
  match AllocateCIDRs Fake.in_order Fake.in_order Fake.in_order
                      batch (Some [5%N]) (Some ∅) w with
  | Done (_, err, _) w' =>
    err = None ∧ alloc_calls (trace w')
    = [(["cidr:10.0.0.0/24"; "reserved:world"], 5%N);
       (["cidr:10.0.1.0/24"; "reserved:world"], 0%N)]
  | Panic _ => False
  end.
Proof. vm_compute. done. Qed.

(** Numeric identities that do not resolve are left out of the enqueued
    batch: [7] is not allocated, [6] has no CIDR label. *)
Example release_by_id_skips :
  let l0 := ["cidr:10.0.0.0/24"; "reserved:world"] in
  let w : FakeWorld :=
    mkWorld (Fake.mkAllocator [(l0, 5%N, 1); (["k8s:app=db"], 6%N, 1)] 8)
            ∅ ∅ [] in
  match ReleaseCIDRIdentitiesByID [7%N; 5%N; 6%N] w with
  | Done _ w' =>
    last (trace w')
    = Some (EvEnqueue ["10.0.0.0/24"] "selector-prefix-release")
    ∧ length (trace w') = 3 ∧ cache w' = cache w
  | Panic _ => False
  end.
Proof. vm_compute. done. Qed.

(** [cidrLabelToPrefix] tests the label against the source name without the
    colon that follows it in a CIDR label. *)
Example cidrLabelToPrefix_cases :
  cidrLabelToPrefix "cidr:10.0.0.0/24" = ("10.0.0.0/24", true)
  ∧ cidrLabelToPrefix "reserved:world" = ("", false)
  ∧ cidrLabelToPrefix "" = ("", false)
  ∧ cidrLabelToPrefix "cidrgroup:a" = ("cidrgroup:a", true).
Proof. by vm_compute. Qed.


(** The batch of the rollback, with an output map: the map keeps the
    entry of the first prefix although the call failed. *)
Lemma AllocateCIDRs_failure_keeps_output_map_witness :
  let w : FakeWorld := mkWorld (Fake.mkAllocator [] 2) ∅ ∅ [] in
  let batch := [Some ("10.0.0.0", "24"); None; Some ("10.0.1.0", "24");
                Some ("10.0.2.0", "24")] in
  ∃ m' w',
    AllocateCIDRs Fake.in_order Fake.in_order Fake.in_order batch
                  (Some [5%N]) (Some ∅) w
    = Done (None,
            Some "failed to allocate identity for cidr 10.0.2.0/24: identity quota exceeded",
            Some m') w'
    ∧ is_Some (m' !! "10.0.0.0/24").
Proof.
  intros w batch.
  pose (l0 := ["cidr:10.0.0.0/24"; "reserved:world"]).
  pose (l1 := ["cidr:10.0.1.0/24"; "reserved:world"]).
  pose (s0 := mkStep 0 ("10.0.0.0", "24") (Some (Fake.ident_of l0 5%N)) true).
  pose (steps := [s0; mkStep 2 ("10.0.1.0", "24")
                            (Some (Fake.ident_of l1 16777216%N)) true]).
  assert (Hfail : FailsAt (metadata w) (Some [5%N]) (allocator w) 0
            [Some ("10.0.0.0", "24"); None; Some ("10.0.1.0", "24")]
            ("10.0.2.0", "24") steps
            (Fake.mkAllocator [(l0, 5%N, 1); (l1, 16777216%N, 1)] 2)
            (Fake.mkAllocator [(l0, 5%N, 1); (l1, 16777216%N, 1)] 2)
            None false "identity quota exceeded").
  { split_and!; [reflexivity | | reflexivity].
    eapply AllocRun_cons; [reflexivity | by eexists |].
    eapply AllocRun_cons; [reflexivity | by eexists |].
    apply AllocRun_nil. }
  destruct (AllocateCIDRs_failure_keeps_output_map Fake.in_order
              Fake.in_order Fake.in_order _ _ [] (Some [5%N]) ∅ w
              steps _ _ _ _ _ Hfail)
    as (m' & w' & released & err & Heq & _ & _ & Hkept).
  exists m', w'. split; [exact Heq|].
  destruct (Hkept s0) as (v & Hv & _); [left | reflexivity |].
  exists v. exact Hv.
Defined.

(** A prefix listed twice is allocated twice and returned once. *)
Lemma AllocateCIDRs_returns_one_per_prefix_string_witness :
  let w : FakeWorld := mkWorld (Fake.mkAllocator [] 8) ∅ ∅ [] in
  let batch := [Some ("10.0.0.0", "24"); None; Some ("10.0.0.0", "24")] in
  ∃ ids out w',
    AllocateCIDRs Fake.in_order Fake.in_order Fake.in_order batch None None w
    = Done (ids, None, out) w'
    ∧ ∃ l, ids = Some l ∧ length l = 1
           ∧ length (alloc_calls (added w w')) = 2.
Proof.
  intros w batch.
  destruct (returned_ok_inv
              (AllocateCIDRs Fake.in_order Fake.in_order Fake.in_order
                             batch None None w))
    as (ids & out & w' & Hcall); [by vm_compute|].
  exists ids, out, w'. split; [exact Hcall|].
  destruct (AllocateCIDRs_returns_one_per_prefix_string Fake.in_order
              Fake.in_order Fake.in_order batch None None w ids out w' Hcall)
    as (l & Hids & Hlen & Hcalls & _).
  exists l. exact (conj Hids (conj Hlen Hcalls)).
Defined.

(** The prefixes that an allocation upserted are among those that the
    release of the same batch enqueues. *)
Lemma ReleaseCIDRIdentitiesByCIDR_covers_allocation_witness :
  let w : FakeWorld := mkWorld (Fake.mkAllocator [] 8) ∅ ∅ [] in
  let batch := [Some ("10.0.0.0", "24"); None; Some ("10.0.1.0", "24")] in
  ∃ ids out w1 enqueued,
    AllocateCIDRs Fake.in_order Fake.in_order Fake.in_order batch None None w
    = Done (ids, None, out) w1
    ∧ ReleaseCIDRIdentitiesByCIDR batch w1
      = Done tt (mkWorld (allocator w1) (cache w1) (metadata w1)
                   (trace w1 ++ [EvEnqueue enqueued "cidr-prefix-release"]))
    ∧ length enqueued = 3
    ∧ ∀ key, key ∈ upsert_keys (added w w1) → key ∈ enqueued.
Proof.
  intros w batch.
  destruct (returned_ok_inv
              (AllocateCIDRs Fake.in_order Fake.in_order Fake.in_order
                             batch None None w))
    as (ids & out & w1 & Hcall); [by vm_compute|].
  destruct (ReleaseCIDRIdentitiesByCIDR_covers_allocation Fake.in_order
              Fake.in_order Fake.in_order batch None None w ids out w1 Hcall)
    as (enqueued & Hrel & Hlen & Hkeys & _).
  exists ids, out, w1, enqueued.
  exact (conj Hcall (conj Hrel (conj Hlen Hkeys))).
Defined.

(** ** Concrete runs of the retrieval of the node *)

Import FakeNode.

Abbreviation FakeNodeWorld := (NodeWorld FakeNode.Script string string unit).

(** A getter with an empty script is down for good: with an IPv4 pod CIDR
    required, the wait ends after 15 requests and 15 waits. *)
Lemma waitForNodeInformation_gives_up_witness :
  let cfg := FakeNode.mkConfig true false "kubernetes" true false false false in
  let w : FakeNodeWorld := mkNodeWorld [] [] in
  ∃ w',
    waitForNodeInformation cfg "node1" w = Returned None w'
    ∧ count is_request (recorded w w') = 15
    ∧ count is_wait (recorded w w') = 15.
Proof.
  intros cfg w.
  destruct (waitForNodeInformation_gives_up cfg (λ g, g = []) "node1" w)
    as (w' & Hcall & Hcount).
  - intros g nodeName ->. split; [reflexivity | by eexists].
  - intros g nodeName ->. split; [reflexivity | by eexists].
  - reflexivity.
  - exists w'. exact (conj Hcall Hcount).
Defined.

(** Two failed requests and then the node: three requests, two waits, and
    the allocation range of the node is set. *)
Example WaitForNodeInformation_after_retries :
  let cfg := FakeNode.mkConfig true false "kubernetes" true false false false in
  let node := FakeNode.mkNode "node1" (Some "10.1.0.0/16") None in
  let w : FakeNodeWorld :=
    mkNodeWorld [(node, Some "timeout"); (node, Some "timeout"); (node, None)]
                [] in
  match WaitForNodeInformation cfg w with
  | Returned err w' =>
    err = None
    ∧ count is_request (events w') = 3
    ∧ count is_wait (events w') = 2
    ∧ filter (λ e, is_setter e = true) (events w')
      = [NSetIPv4AllocRange "10.1.0.0/16"; NSetLabels tt;
         NSetK8sExternalIPv4 None; NSetK8sExternalIPv6 None;
         NSetK8sNodeIP None]
  | _ => False
  end.
Proof. vm_compute. done. Qed.

(** A node without the required pod CIDR is asked for 15 times, and the
    process ends. *)
Example WaitForNodeInformation_missing_cidr :
  let cfg := FakeNode.mkConfig true false "cluster-pool" true false false false in
  let node := FakeNode.mkNode "node1" None None in
  let w : FakeNodeWorld := mkNodeWorld (replicate 20 (node, None)) [] in
  match WaitForNodeInformation cfg w with
  | Exited w' =>
    count is_request (events w') = 15 ∧ length (getter w') = 5
  | _ => False
  end.
Proof. vm_compute. done. Qed.


(** The identity of a prefix whose cache entry is gone, listed as used:
    the call restores the entry, and keeps the entry it found. *)
Lemma UpsertGeneratedIdentities_ensures_entries_witness :
  let lbls := ["cidr:10.0.0.0/24"; "reserved:world"] in
  let i := Fake.ident_of lbls 5%N in
  let c : Fake.Cache := {[ "10.0.9.0/24" := mkCacheIdentity 9%N "generated" ]} in
  let w : FakeWorld := mkWorld (Fake.mkAllocator [(lbls, 5%N, 1)] 8) c ∅ [] in
  ∃ w',
    UpsertGeneratedIdentities Fake.in_order Fake.in_order
      (Some <$> (∅ : gmap string _)) (Some <$> [i]) w
    = Done tt w'
    ∧ is_Some (LookupByIPRLocked (cache w') "10.0.0.0/24")
    ∧ is_Some (LookupByIPRLocked (cache w') "10.0.9.0/24").
Proof.
  intros lbls i c w.
  destruct (UpsertGeneratedIdentities_ensures_entries Fake.in_order
              Fake.in_order ∅ [i] w)
    as (w' & Hcall & _ & Hused & Hkept).
  - intros c' k v. cbn [LookupByIPRLocked Upsert Fake.store].
    rewrite lookup_insert_eq. by eexists.
  - intros c' k v k' Hk'. cbn [LookupByIPRLocked Upsert Fake.store] in *.
    destruct (decide (k = k')) as [->|Hne].
    + rewrite lookup_insert_eq. by eexists.
    + by rewrite lookup_insert_ne.
  - exists w'. split; [exact Hcall|]. split.
    + apply (Hused i); [left | reflexivity].
    + apply Hkept. by eexists.
Defined.
